(** * FileSystemGraph: a file system as a directed graph

    A shallow embedding of the class [FileSystemGraph] of [graph.cpp], in
    the version that has [shortestPath] and [minSpanTree] (the earlier
    version in the same file has the same [addVertex], [addEdge] and
    [buildGraph]), and the properties of its operations.

    - [std::map<fs::path, V>] and [std::set<fs::path>] are ordered
      containers: they are modelled by association lists and lists that
      are scanned, extended and iterated in key order, with the three-way
      comparison of [fs::path] as the order.
    - [int] is a 32-bit two's complement integer carried by [Z].
    - The file system that [buildGraph] walks is a tree of nodes; a
      [fs::filesystem_error] is an explicit completion of the call, and
      can come from a status query, from the opening of a listing or
      from the reading of one.
    - The two [while] loops and the walk along the predecessors run on
      fuel; the lemmas [sp_loop_ends] and [mst_loop_ends] say how much
      is always enough for the loops. *)

From Stdlib Require Import List ZArith Lia String.
From Stdlib Require Import OrderedTypeEx.
Import ListNotations.

(* ================================================================== *)
(** ** Path identity *)

(** [fs::path] is used as the key of every container of the class, so
    all that the code needs of it is its comparison ([fs::path::compare],
    which [operator<] and [operator==] are defined from) and the empty
    path [""], which [shortestPath] uses as "no predecessor".  Two paths
    that compare equal are the same vertex. *)
Class PathOrder (path : Type) := {
  path_compare : path -> path -> comparison;
  path_empty : path;
  path_compare_eq : forall p q, path_compare p q = Eq <-> p = q;
  path_compare_antisym : forall p q, path_compare q p = CompOpp (path_compare p q);
  path_compare_trans : forall p q r,
      path_compare p q = Lt -> path_compare q r = Lt -> path_compare p r = Lt
}.

(** [std::map<fs::path, V>]: the entries in key order. *)
Definition pmap (path V : Type) := list (path * V).

(** [std::set<fs::path>]: the elements in key order. *)
Definition pset (path : Type) := list path.

(** [std::map<fs::path, std::vector<fs::path>> adjList] *)
Definition graph (path : Type) := pmap path (list path).

Section Containers.
Context {path : Type} `{PathOrder path}.

(** [operator==] on paths. *)
Definition path_eqb (p q : path) : bool :=
  match path_compare p q with Eq => true | _ => false end.

(** Equality of paths is decided by that comparison. *)
Definition path_eq_dec (p q : path) : {p = q} + {p <> q} :=
  match path_compare p q as c return (path_compare p q = c -> {p = q} + {p <> q}) with
  | Eq => fun E => left (proj1 (path_compare_eq p q) E)
  | Lt => fun E => right (fun Hpq =>
            eq_ind Lt (fun c => match c with Lt => True | _ => False end) I Eq
                   (eq_trans (eq_sym E) (proj2 (path_compare_eq p q) Hpq)))
  | Gt => fun E => right (fun Hpq =>
            eq_ind Gt (fun c => match c with Gt => True | _ => False end) I Eq
                   (eq_trans (eq_sym E) (proj2 (path_compare_eq p q) Hpq)))
  end eq_refl.

(** *** [std::map<fs::path, V>] *)

(** [m.find(k)] *)
Fixpoint map_find {V} (k : path) (m : pmap path V) : option V :=
  match m with
  | [] => None
  | (k', v) :: r =>
      match path_compare k k' with
      | Lt => None
      | Eq => Some v
      | Gt => map_find k r
      end
  end.

(** [m.count(k)], as the truth value of [m.count(k) != 0] *)
Definition map_count {V} (k : path) (m : pmap path V) : bool :=
  match map_find k m with Some _ => true | None => false end.

(** [m[k] = v] *)
Fixpoint map_insert {V} (k : path) (v : V) (m : pmap path V) : pmap path V :=
  match m with
  | [] => [(k, v)]
  | (k', v') :: r =>
      match path_compare k k' with
      | Lt => (k, v) :: m
      | Eq => (k, v) :: r
      | Gt => (k', v') :: map_insert k v r
      end
  end.

(** [m[k]] read as a value.  On a missing key [operator[]] first inserts
    a value-initialised entry and returns that; a later read of the key
    gives the same value with or without the entry, so the read is the
    lookup with the value-initialised default [d]. *)
Definition map_at {V} (d : V) (k : path) (m : pmap path V) : V :=
  match map_find k m with Some v => v | None => d end.

(** the keys in iteration order, and [m.size()] *)
Definition map_keys {V} (m : pmap path V) : list path := map fst m.
Definition map_size {V} (m : pmap path V) : nat := List.length m.

(** *** [std::set<fs::path>] *)

Fixpoint set_count (k : path) (s : pset path) : bool :=
  match s with
  | [] => false
  | k' :: r =>
      match path_compare k k' with
      | Lt => false
      | Eq => true
      | Gt => set_count k r
      end
  end.

Fixpoint set_insert (k : path) (s : pset path) : pset path :=
  match s with
  | [] => [k]
  | k' :: r =>
      match path_compare k k' with
      | Lt => k :: s
      | Eq => s
      | Gt => k' :: set_insert k r
      end
  end.

Fixpoint set_erase (k : path) (s : pset path) : pset path :=
  match s with
  | [] => []
  | k' :: r =>
      match path_compare k k' with
      | Lt => s
      | Eq => r
      | Gt => k' :: set_erase k r
      end
  end.

(** Keys strictly increasing: the shape every container built from the
    empty one by the operations above has. *)
Fixpoint increasing (s : list path) : Prop :=
  match s with
  | [] => True
  | k :: r =>
      match r with
      | [] => True
      | k' :: _ => path_compare k k' = Lt /\ increasing r
      end
  end.

End Containers.

(* ================================================================== *)
(** ** Graph Store *)

Section GraphStore.
Context {path : Type} `{PathOrder path}.

Definition empty_graph : graph path := [].

(** [adjList[v]] read as a value: the neighbours of [v].  Every vertex
    that the class reads this way is either a key of [adjList] or,
    in a graph made by [addVertex] and [addEdge], the end of an edge and
    so a key as well. *)
Definition neighbors (g : graph path) (v : path) : list path := map_at [] v g.

Definition addVertex (p : path) (g : graph path) : graph path :=
  if negb (map_count p g) then map_insert p [] g else g.

Definition addEdge (source destination : path) (g : graph path) : graph path :=
  let g1 := addVertex source g in
  let g2 := addVertex destination g1 in
  map_insert source (map_at [] source g2 ++ [destination]) g2.

(** The star with the edges root -> c for the children c, in that
    order, as [addVertex] and [addEdge] build it. *)
Definition star_of (root : path) (children : list path) : graph path :=
  fold_left (fun g c => addEdge root c g) children (addVertex root empty_graph).

(** The chain a -> b -> c -> d, as three calls of [addEdge] build it. *)
Definition chain_graph (a b c d : path) : graph path :=
  addEdge c d (addEdge b c (addEdge a b empty_graph)).

End GraphStore.

(* ================================================================== *)
(** ** Graph Builder *)

(** What the [std::filesystem] calls of [buildGraph] find at a path.  The
    walk follows directory entries only, so the part of the file system
    under the root is a tree of nodes, each entry carrying the path that
    [entry.path()] gives. *)
#[local] Unset Elimination Schemes.
Inductive node (path : Type) : Type :=
| Absent                                    (* nothing there: the status is "not found" *)
| Regular                                   (* a regular file, or anything that is not a directory *)
| Unknown                                   (* the status query itself fails *)
| Sealed                                    (* a directory that cannot be opened for listing *)
| Directory (entries : list (path * node path))
                                            (* a directory, listed to its end *)
| Broken (entries : list (path * node path)).
                                            (* a directory whose listing gives these entries
                                               and then fails: the iterator's increment throws *)
#[local] Set Elimination Schemes.
Arguments Absent {path}.
Arguments Regular {path}.
Arguments Unknown {path}.
Arguments Sealed {path}.
Arguments Directory {path} entries.
Arguments Broken {path} entries.

(** [fs::filesystem_error], by the call that threw it and its path. *)
Inductive fs_error (path : Type) : Type :=
| StatusError (p : path)
| OpenError (p : path)
| ReadError (p : path).
Arguments StatusError {path} p.
Arguments OpenError {path} p.
Arguments ReadError {path} p.

(** How a call ends: it returns, or a [fs::filesystem_error] leaves it. *)
Inductive completion (path : Type) : Type :=
| Normal
| Throws (e : fs_error path).
Arguments Normal {path}.
Arguments Throws {path} e.

(** The object being built and the lines written to [std::cerr]. *)
Record builder (path : Type) : Type := mkBuilder {
  adjList : graph path;
  cerr : list (fs_error path)
}.
Arguments mkBuilder {path} adjList cerr.
Arguments adjList {path} b.
Arguments cerr {path} b.

Section GraphBuilder.
Context {path : Type} `{PathOrder path}.

(** [fs::exists(p)] and [fs::is_directory(p)]: a truth value, or the
    error thrown. *)
Definition fs_exists (p : path) (n : node path) : bool + fs_error path :=
  match n with
  | Absent => inl false
  | Unknown => inr (StatusError p)
  | _ => inl true
  end.

Definition fs_is_directory (p : path) (n : node path) : bool + fs_error path :=
  match n with
  | Absent | Regular => inl false
  | Unknown => inr (StatusError p)
  | Sealed | Directory _ | Broken _ => inl true
  end.

(** The [catch] block: print [e.what()] and go on. *)
Definition report (e : fs_error path) (b : builder path) : builder path :=
  mkBuilder (adjList b) (cerr b ++ [e]).

(** The [for] loop over the entries that [fs::directory_iterator(root)]
    gives.  The body is a [try] block, so an error thrown by
    [fs::is_directory] or left by the recursive call ([build]) is
    reported and the loop goes on with the next entry.  The edge is
    added before anything in the body can throw.  The increment of the
    iterator is not in the [try]: after the last entry that it gives it
    either reaches the end, and the loop is left normally, or throws,
    and the error leaves the loop and the call; [ending] is which. *)
Definition build_entries
           (build : path -> node path -> builder path -> builder path * completion path)
           (root : path) (ending : completion path)
  : list (path * node path) -> builder path -> builder path * completion path :=
  fix each (es : list (path * node path)) (b : builder path) {struct es} :=
    match es with
    | [] => (b, ending)
    | (p, c) :: rest =>
        let b1 := mkBuilder (addEdge root p (adjList b)) (cerr b) in
        match fs_is_directory p c with
        | inr e => each rest (report e b1)
        | inl false => each rest b1
        | inl true =>
            match build p c b1 with
            | (b2, Normal) => each rest b2
            | (b2, Throws e) => each rest (report e b2)
            end
        end
    end.

(** [buildGraph(root)], where [n] is what the file system has at
    [root].  The guard [!fs::exists(root) || !fs::is_directory(root)],
    the opening of [fs::directory_iterator(root)] and its increments are
    outside every [try] of this call. *)
Fixpoint buildGraph (root : path) (n : node path) (b : builder path) {struct n}
  : builder path * completion path :=
  match n with
  | Absent => (b, Normal)                        (* !fs::exists(root): return *)
  | Unknown => (b, Throws (StatusError root))   (* fs::exists(root) throws *)
  | Regular => (b, Normal)                       (* !fs::is_directory(root): return *)
  | Sealed => (b, Throws (OpenError root))      (* fs::directory_iterator(root) throws *)
  | Directory entries => build_entries buildGraph root Normal entries b
  | Broken entries =>                            (* ++ on the iterator throws *)
      build_entries buildGraph root (Throws (ReadError root)) entries b
  end.

(** Induction on a file-system tree. *)
Section NodeInduction.
Variable P : node path -> Prop.
Hypothesis PAbsent : P Absent.
Hypothesis PRegular : P Regular.
Hypothesis PUnknown : P Unknown.
Hypothesis PSealed : P Sealed.
Hypothesis PDirectory :
  forall es, Forall (fun e => P (snd e)) es -> P (Directory es).
Hypothesis PBroken :
  forall es, Forall (fun e => P (snd e)) es -> P (Broken es).

Fixpoint node_induction (n : node path) : P n :=
  match n with
  | Absent => PAbsent
  | Regular => PRegular
  | Unknown => PUnknown
  | Sealed => PSealed
  | Directory es =>
      PDirectory es
        ((fix all (l : list (path * node path)) : Forall (fun e => P (snd e)) l :=
            match l with
            | [] => Forall_nil _
            | e :: r => Forall_cons e (node_induction (snd e)) (all r)
            end) es)
  | Broken es =>
      PBroken es
        ((fix all (l : list (path * node path)) : Forall (fun e => P (snd e)) l :=
            match l with
            | [] => Forall_nil _
            | e :: r => Forall_cons e (node_induction (snd e)) (all r)
            end) es)
  end.
End NodeInduction.

End GraphBuilder.

(* ================================================================== *)
(** ** Shortest Path Engine *)

(** [int]: 32 bits, two's complement.  [distances[current] + 1] is the
    only arithmetic of the class.  At [INT_MAX] the sum leaves the range
    of [int], which C++ leaves undefined; the model takes the wrapped
    value that the usual targets compute.  This happens only when a
    vertex that the source does not reach is taken before the loop
    stops. *)
Definition INT_MAX : Z := 2147483647.
Definition int_wrap (z : Z) : Z := (z + 2147483648) mod 4294967296 - 2147483648.
Definition int_add (a b : Z) : Z := int_wrap (a + b).

(** The three local containers of [shortestPath]. *)
Record sp_state (path : Type) : Type := mkSp {
  distances : pmap path Z;
  previous : pmap path path;
  unvisited : pset path
}.
Arguments mkSp {path} distances previous unvisited.
Arguments distances {path} s.
Arguments previous {path} s.
Arguments unvisited {path} s.

Section ShortestPath.
Context {path : Type} `{PathOrder path}.

(** The first loop, over the entries of [adjList]: its body, then the
    loop. *)
Definition sp_init_step (st : sp_state path) (pair : path * list path)
  : sp_state path :=
  mkSp (map_insert (fst pair) INT_MAX (distances st))
       (map_insert (fst pair) path_empty (previous st))
       (set_insert (fst pair) (unvisited st)).

Definition sp_init (g : graph path) : sp_state path :=
  fold_left sp_init_step g (mkSp [] [] []).

(** The scan for the unvisited vertex of least distance, started at
    [*unvisited.begin()]. *)
Definition sp_select_step (dist : pmap path Z) (current p : path) : path :=
  if (map_at 0 p dist <? map_at 0 current dist)%Z then p else current.

Definition sp_select (dist : pmap path Z) (u : pset path) (first : path) : path :=
  fold_left (sp_select_step dist) u first.

(** The loop over [adjList[current]]. *)
Definition sp_relax_step (current : path)
           (dp : pmap path Z * pmap path path) (neighbor : path)
  : pmap path Z * pmap path path :=
  let alt := int_add (map_at 0%Z current (fst dp)) 1 in
  if (alt <? map_at 0 neighbor (fst dp))%Z
  then (map_insert neighbor alt (fst dp), map_insert neighbor current (snd dp))
  else dp.

Definition sp_relax (g : graph path) (current : path)
           (dp : pmap path Z * pmap path path) : pmap path Z * pmap path path :=
  fold_left (sp_relax_step current) (neighbors g current) dp.

(** One turn of the [while] loop after [current] is chosen and is not
    the destination: [unvisited.erase(current)], then the relaxation
    of its neighbours. *)
Definition sp_turn (g : graph path) (current : path) (st : sp_state path)
  : sp_state path :=
  let dp := sp_relax g current (distances st, previous st) in
  mkSp (fst dp) (snd dp) (set_erase current (unvisited st)).

(** The [while (!unvisited.empty())] loop; [None] when [fuel]
    iterations were not enough. *)
Fixpoint sp_loop (fuel : nat) (g : graph path) (destination : path)
         (st : sp_state path) : option (sp_state path) :=
  match unvisited st with
  | [] => Some st
  | first :: _ =>
      let current := sp_select (distances st) (unvisited st) first in
      if path_eqb current destination then Some st
      else
        match fuel with
        | O => None
        | S fuel' => sp_loop fuel' g destination (sp_turn g current st)
        end
  end.

(** The loop [for (p = destination; p != ""; p = previous[p])], giving
    the vertices in the order they are pushed; [None] when [fuel]
    iterations were not enough. *)
Fixpoint sp_walk (fuel : nat) (prev : pmap path path) (p : path)
  : option (list path) :=
  if path_eqb p path_empty then Some []
  else
    match fuel with
    | O => None
    | S fuel' =>
        match sp_walk fuel' prev (map_at path_empty p prev) with
        | Some l => Some (p :: l)
        | None => None
        end
    end.

(** The containers after the first loop and [distances[source] = 0]. *)
Definition sp_start (g : graph path) (source : path) : sp_state path :=
  mkSp (map_insert source 0%Z (distances (sp_init g)))
       (previous (sp_init g)) (unvisited (sp_init g)).

(** [shortestPath(source, destination)]: the vector returned, or [None]
    when one of the two loops needs more than [fuel] iterations. *)
Definition shortestPath (fuel : nat) (g : graph path)
           (source destination : path) : option (list path) :=
  match sp_loop fuel g destination (sp_start g source) with
  | None => None
  | Some st =>
      match sp_walk fuel (previous st) destination with
      | Some l => Some (rev l)
      | None => None
      end
  end.

End ShortestPath.

(* ================================================================== *)
(** ** Minimum Spanning Tree Engine *)

(** How a call of [minSpanTree] ends. *)
Inductive outcome (A : Type) : Type :=
| Returns (a : A)
| UndefinedBehaviour         (* [adjList.begin()] of an empty map is dereferenced *)
| OutOfFuel.
Arguments Returns {A} a.
Arguments UndefinedBehaviour {A}.
Arguments OutOfFuel {A}.

(** The three local containers of [minSpanTree]. *)
Record mst_state (path : Type) : Type := mkMst {
  tree : pmap path (list path);
  visited : pset path;
  pq : list (Z * path)
}.
Arguments mkMst {path} tree visited pq.
Arguments tree {path} m.
Arguments visited {path} m.
Arguments pq {path} m.

Section MinSpanTree.
Context {path : Type} `{PathOrder path}.

(** [operator<] of [std::pair<int, fs::path>]. *)
Definition pair_ltb (a b : Z * path) : bool :=
  ((fst a <? fst b)%Z
   || ((fst a =? fst b)%Z
       && match path_compare (snd a) (snd b) with Lt => true | _ => false end))%bool.

(** [std::priority_queue<..., std::greater<>>]: [top()] is the least
    pair, and pairs that compare equal are the same value, so the queue
    is the list of its pairs in ascending order: [top()] is the head,
    [pop()] drops it, [push] inserts in order. *)
Fixpoint pq_push (x : Z * path) (q : list (Z * path)) : list (Z * path) :=
  match q with
  | [] => [x]
  | y :: r => if pair_ltb y x then y :: pq_push x r else x :: q
  end.

(** The loop over [adjList[current]]: its body, then the loop. *)
Definition mst_scan_step (current : path) (v : pset path)
           (tq : pmap path (list path) * list (Z * path)) (neighbor : path)
  : pmap path (list path) * list (Z * path) :=
  if negb (set_count neighbor v)
  then (map_insert current (map_at [] current (fst tq) ++ [neighbor]) (fst tq),
        pq_push (1%Z, neighbor) (snd tq))
  else tq.

Definition mst_scan (g : graph path) (current : path) (v : pset path)
           (tq : pmap path (list path) * list (Z * path))
  : pmap path (list path) * list (Z * path) :=
  fold_left (mst_scan_step current v) (neighbors g current) tq.

(** The [while (!pq.empty())] loop; [None] when [fuel] iterations were
    not enough. *)
Fixpoint mst_loop (fuel : nat) (g : graph path) (st : mst_state path)
  : option (pmap path (list path)) :=
  match pq st with
  | [] => Some (tree st)
  | (_, current) :: rest =>
      match fuel with
      | O => None
      | S fuel' =>
          if set_count current (visited st)
          then mst_loop fuel' g (mkMst (tree st) (visited st) rest)
          else
            let v := set_insert current (visited st) in
            let tq := mst_scan g current v (tree st, rest) in
            mst_loop fuel' g (mkMst (fst tq) v (snd tq))
      end
  end.

(** [minSpanTree()] *)
Definition minSpanTree (fuel : nat) (g : graph path)
  : outcome (pmap path (list path)) :=
  match g with
  | [] => UndefinedBehaviour
  | (start, _) :: _ =>
      match mst_loop fuel g (mkMst [] [] [(0%Z, start)]) with
      | Some t => Returns t
      | None => OutOfFuel
      end
  end.

End MinSpanTree.

(* ================================================================== *)
(** ** Presentation *)

(** What is inserted into [std::cout]: a path (how [operator<<] renders
    an [fs::path] is not modelled) or a string literal. *)
Inductive out (path : Type) : Type :=
| OutPath (p : path)
| OutText (s : string).
Arguments OutPath {path} p.
Arguments OutText {path} s.

(** The string ["\n"]. *)
Definition newline : string := String (Ascii.ascii_of_nat 10) EmptyString.

Section Presentation.
Context {path : Type}.

(** The inner loop of [printGraph]: one line per neighbour. *)
Definition print_neighbors (ns : list path) : list (out path) :=
  flat_map (fun neighbor => [OutText "  "; OutPath neighbor; OutText newline]) ns.

(** The body of the outer loop: the vertex, then its neighbours. *)
Definition print_entry (pair : path * list path) : list (out path) :=
  [OutPath (fst pair); OutText (":" ++ newline)] ++ print_neighbors (snd pair).

(** [printGraph()]: everything it inserts into [std::cout], in order. *)
Definition printGraph (g : graph path) : list (out path) :=
  flat_map print_entry g.

End Presentation.

(* ================================================================== *)
(** ** Paths written as strings *)

(** For the concrete graphs below a path is its text, compared character
    by character.  [fs::path::compare] compares element by element
    instead, so the two orders can differ on texts with separators (it
    takes [a/b] and [a//b] for the same path, and puts [a/b] before
    [a-b]); they agree on paths of one file name, such as ["A"] and
    ["B"], and on the other names used below.  Everything that is proved
    for all graphs is proved for any [PathOrder], and this instance only
    serves the concrete cases. *)

#[export] Instance string_paths : PathOrder string := {|
  path_compare := String.compare;
  path_empty := EmptyString;
  path_compare_eq := String_as_OT.cmp_eq;
  path_compare_antisym := fun p q => String.compare_antisym q p;
  path_compare_trans := fun p q r Hpq Hqr =>
    proj2 (String_as_OT.cmp_lt p r)
          (String_as_OT.lt_trans p q r
             (proj1 (String_as_OT.cmp_lt p q) Hpq)
             (proj1 (String_as_OT.cmp_lt q r) Hqr))
|}.

Module Examples.
Open Scope string_scope.

(** Two vertices and no edge. *)
Definition two_isolated : graph string :=
  addVertex "B" (addVertex "A" empty_graph).

(** The chain A -> B -> C -> D. *)
Definition chain : graph string := chain_graph "A" "B" "C" "D".

(** The diamond A -> B, A -> C, B -> D, C -> D. *)
Definition diamond : graph string :=
  addEdge "C" "D" (addEdge "B" "D" (addEdge "A" "C" (addEdge "A" "B" empty_graph))).

(** A star whose root is not the first key: Z -> A, Z -> B. *)
Definition star_from_Z : graph string := star_of "Z" ["A"; "B"].

(** A vertex A, and apart from it the cycle B -> C -> B with an edge
    C -> D out of it. *)
Definition cycle_apart : graph string :=
  addEdge "C" "D" (addEdge "C" "B" (addEdge "B" "C" (addVertex "A" empty_graph))).

(** A graph with the empty path as its only vertex. *)
Definition only_empty_path : graph string := addVertex "" empty_graph.

(** A root directory with a subdirectory that cannot be listed and a
    regular file. *)
Definition locked_and_file : node string :=
  Directory [("root/locked", Sealed); ("root/file", Regular)].

(** A root directory whose listing gives one regular file and then
    fails. *)
Definition broken_listing : node string :=
  Broken [("root/a", Regular)].

(** A root directory with a subdirectory whose listing gives one
    regular file and then fails, and a regular file. *)
Definition broken_below : node string :=
  Directory [("root/sub", Broken [("root/sub/a", Regular)]); ("root/file", Regular)].

(** The entries of the diamond after the first, as the map stores them,
    and the tree returned for the diamond. *)
Definition diamond_entries : graph string :=
  [("B", ["D"]); ("C", ["D"]); ("D", [])].
Definition diamond_tree : pmap string (list string) :=
  [("A", ["B"; "C"]); ("B", ["D"]); ("C", ["D"])].

Close Scope string_scope.
End Examples.

(* ================================================================== *)
(** ** Vocabulary of the properties *)

Section Vocabulary.
Context {path : Type} `{PathOrder path}.

(** Case analysis on a comparison, with what each answer means. *)
Variant compare_cases (p q : path) : comparison -> Prop :=
| CmpLt : path_compare p q = Lt -> path_compare q p = Gt -> p <> q -> compare_cases p q Lt
| CmpEq : p = q -> compare_cases p q Eq
| CmpGt : path_compare p q = Gt -> path_compare q p = Lt -> p <> q -> compare_cases p q Gt.

(** [destination] can be reached from [source] along edges. *)
Inductive reachable (g : graph path) (source : path) : path -> Prop :=
| reach_here : reachable g source source
| reach_edge : forall v w,
    reachable g source v -> In w (neighbors g v) -> reachable g source w.

(** Every recorded predecessor is the tail of an edge of the graph. *)
Definition previous_are_edges (g : graph path) (prev : pmap path path) : Prop :=
  forall n, map_at path_empty n prev <> path_empty ->
            In n (neighbors g (map_at path_empty n prev)).

(** [b'] has every edge and every reported error of [b]. *)
Definition extends (b b' : builder path) : Prop :=
  (forall v x, In x (neighbors (adjList b) v) -> In x (neighbors (adjList b') v))
  /\ (forall e, In e (cerr b) -> In e (cerr b')).

(** A star with [root] as first key: the root's entry, then entries
    without neighbours. *)
Definition star_graph (root : path) (children : list path)
           (leaves : graph path) : graph path :=
  (root, children) :: leaves.

(** The entries that the listing of a node gives: all of them, or those
    before it fails. *)
Definition entries_given (n : node path) : list (path * node path) :=
  match n with
  | Directory es | Broken es => es
  | _ => []
  end.

(** [listed root n q es]: the walk from [root], where the file system
    has [n], comes to list the directory [q], and the listing gives the
    entries [es].  The walk only descends through directories that can
    be opened. *)
Inductive listed : path -> node path -> path -> list (path * node path) -> Prop :=
| listed_root : forall root n,
    fs_is_directory root n = inl true -> listed root n root (entries_given n)
| listed_below : forall root n p c q es',
    In (p, c) (entries_given n) -> listed p c q es' -> listed root n q es'.

(** The error that ends the handling of the entry [p], where the file
    system has [c]: the one thrown by [fs::is_directory(p)], or the one
    that leaves [buildGraph(p)].  How the recursive call ends does not
    depend on what was built before it (lemma [buildGraph_ending]), so
    it is read off a build on a new object. *)
Definition entry_error (p : path) (c : node path) : option (fs_error path) :=
  match fs_is_directory p c with
  | inr e => Some e
  | inl false => None
  | inl true =>
      match snd (buildGraph p c (mkBuilder empty_graph [])) with
      | Throws e => Some e
      | Normal => None
      end
  end.

(** What is built and reported when the loop over the entries of [root]
    is through with the entry [p]: the edge, what the recursive call
    built, and the report of the error that ended it, if any. *)
Definition entry_done (root p : path) (c : node path) (b : builder path)
  : builder path :=
  let b1 := mkBuilder (addEdge root p (adjList b)) (cerr b) in
  match entry_error p c with
  | Some e => report e (fst (buildGraph p c b1))
  | None => fst (buildGraph p c b1)
  end.

(** The shape of every graph that the class can hold: keys in
    increasing order, and every neighbour a key. *)
Definition well_formed (g : graph path) : Prop :=
  increasing (map_keys g)
  /\ forall v x, In x (neighbors g v) -> map_count x g = true.

(** The number of edges whose source is not in [v] yet: what the loop of
    [minSpanTree] can still push. *)
Definition pending_edges (g : graph path) (v : pset path) : nat :=
  list_sum (map (fun e => if set_count (fst e) v then 0%nat else List.length (snd e)) g).

(** *** The containers of [shortestPath] read as functions *)

(** [f] with the value at [k] replaced by [v]. *)
Definition upd {V} (f : path -> V) (k : path) (v : V) : path -> V :=
  fun x => if path_eq_dec x k then v else f x.

(** What [distances[v]] and [previous[v]] give, for every [v] at once,
    and which vertices are unvisited. *)
Definition sp_view (st : sp_state path)
           (U : path -> Prop) (D : path -> Z) (P : path -> path) : Prop :=
  increasing (unvisited st)
  /\ (forall v, In v (unvisited st) <-> U v)
  /\ (forall v, map_at 0%Z v (distances st) = D v)
  /\ (forall v, map_at path_empty v (previous st) = P v).

(** The body of the relaxation loop on such functions. *)
Definition relax_fun (current : path) (DP : (path -> Z) * (path -> path))
           (neighbor : path) : (path -> Z) * (path -> path) :=
  let alt := int_add (fst DP current) 1 in
  if (alt <? fst DP neighbor)%Z
  then (upd (fst DP) neighbor alt, upd (snd DP) neighbor current)
  else DP.

(** The distances when the main loop is entered. *)
Definition start_distance (g : graph path) (source : path) : path -> Z :=
  upd (fun v => if in_dec path_eq_dec v (map_keys g) then INT_MAX else 0%Z) source 0%Z.

(** *** Counting and reading back *)

(** The number of edges of the graph. *)
Definition edge_count (g : graph path) : nat :=
  list_sum (map (fun e => List.length (snd e)) g).

(** The number of directory entries that the walk from a node meets: the
    entries that the listing of the node gives, if it is a directory
    that can be opened, and those that the walk meets below each of
    them. *)
Fixpoint entries_walked (n : node path) : nat :=
  match n with
  | Directory es | Broken es => list_sum (map (fun e => S (entries_walked (snd e))) es)
  | _ => 0%nat
  end.

(** The number of those entries at which something fails: the status
    query on the entry, the opening of its listing, or the reading of
    its listing. *)
Fixpoint failures (n : node path) : nat :=
  match n with
  | Directory es | Broken es =>
      list_sum (map (fun e => (match snd e with
                               | Unknown | Sealed | Broken _ => 1
                               | _ => 0
                               end + failures (snd e))%nat) es)
  | _ => 0%nat
  end.

(** In [r] every vertex is followed by one of its neighbours. *)
Fixpoint is_path (g : graph path) (r : list path) : Prop :=
  match r with
  | [] => True
  | a :: t =>
      match t with
      | [] => True
      | b :: _ => In b (neighbors g a) /\ is_path g t
      end
  end.

(** There is a walk of [k] edges from [source]. *)
Inductive walk (g : graph path) (source : path) : path -> nat -> Prop :=
| walk_here : walk g source source 0
| walk_edge : forall v w k,
    walk g source v k -> In w (neighbors g v) -> walk g source w (S k).

(** Reading the output of [printGraph] back: the neighbour lines seen
    since the last vertex line, and the entries read. *)
Fixpoint read_lines (o : list (out path)) : option (list path * graph path) :=
  match o with
  | [] => Some ([], [])
  | OutPath k :: OutText t :: rest =>
      if String.eqb t (":" ++ newline)
      then match read_lines rest with
           | Some (ns, es) => Some ([], (k, ns) :: es)
           | None => None
           end
      else None
  | OutText t1 :: OutPath n :: OutText t2 :: rest =>
      if (String.eqb t1 "  " && String.eqb t2 newline)%bool
      then match read_lines rest with
           | Some (ns, es) => Some (n :: ns, es)
           | None => None
           end
      else None
  | _ => None
  end.

Definition read_graph (o : list (out path)) : option (graph path) :=
  match read_lines o with
  | Some ([], es) => Some es
  | _ => None
  end.

(** *** Sequences of calls on the Graph Store *)

(** A call of one of the two mutators of the store. *)
Inductive store_call : Type :=
| CallAddVertex (p : path)
| CallAddEdge (a b : path).

Definition run_call (g : graph path) (c : store_call) : graph path :=
  match c with
  | CallAddVertex p => addVertex p g
  | CallAddEdge a b => addEdge a b g
  end.

(** The graph after the calls, made in order on a new object. *)
Definition run_calls (cs : list store_call) : graph path :=
  fold_left run_call cs empty_graph.

(** The paths that a build from [root] makes vertices: for every entry
    met, the directory that lists it and the entry. *)
Fixpoint mentioned (root : path) (n : node path) : list path :=
  match n with
  | Directory es | Broken es =>
      flat_map (fun e => root :: fst e :: mentioned (fst e) (snd e)) es
  | _ => []
  end.

(** What a build adds, counted. *)
Definition counts_add_up (p : path) (n : node path) (b : builder path) : Prop :=
  edge_count (adjList (fst (buildGraph p n b)))
  = (edge_count (adjList b) + entries_walked n)%nat
  /\ List.length (cerr (fst (buildGraph p n b)))
     = (List.length (cerr b) + failures n)%nat.

(** *** The state of the main loop of [shortestPath] *)

(** [distances[v]] and [previous[v]] in a state. *)
Definition dist_of (st : sp_state path) (v : path) : Z := map_at 0%Z v (distances st).
Definition prev_of (st : sp_state path) (v : path) : path :=
  map_at path_empty v (previous st).

(** What holds at the head of the main loop for as long as the vertex
    taken has a distance below [INT_MAX].  A vertex is settled when it is
    a key that is no longer in [unvisited]. *)
Definition dijkstra_inv (g : graph path) (s : path) (st : sp_state path) : Prop :=
  increasing (unvisited st)
  /\ (forall v, In v (unvisited st) -> In v (map_keys g))
  /\ (dist_of st s = 0%Z /\ prev_of st s = path_empty)
  /\ (forall v, (0 <= dist_of st v <= INT_MAX)%Z)
  /\ (forall v, In v (map_keys g) -> v <> s -> (dist_of st v < INT_MAX)%Z ->
         In (prev_of st v) (map_keys g)
         /\ ~ In (prev_of st v) (unvisited st)
         /\ In v (neighbors g (prev_of st v))
         /\ dist_of st v = (dist_of st (prev_of st v) + 1)%Z)
  /\ (forall u n, In u (map_keys g) -> ~ In u (unvisited st) ->
         In n (neighbors g u) -> (dist_of st n <= dist_of st u + 1)%Z)
  /\ (forall u v, In u (map_keys g) -> ~ In u (unvisited st) ->
         In v (unvisited st) -> (dist_of st u <= dist_of st v)%Z).

(** *** The state of the loop of [minSpanTree] *)

(** [x] is the start vertex or is recorded in the tree as a child. *)
Definition in_tree (start : path) (t : pmap path (list path)) (x : path) : Prop :=
  x = start \/ exists p, In x (map_at [] p t).

(** What holds at the head of the loop of [minSpanTree]. *)
Definition mst_inv (g : graph path) (start : path) (st : mst_state path) : Prop :=
  increasing (visited st)
  /\ (forall p c, In c (map_at [] p (tree st)) ->
         In c (neighbors g p) /\ In p (visited st) /\ c <> p /\ c <> start)
  /\ (In start (visited st) \/ (visited st = [] /\ exists w, pq st = [(w, start)]))
  /\ (forall x, In x (visited st) -> reachable g start x /\ in_tree start (tree st) x)
  /\ (forall x, In x (pq st) ->
         reachable g start (snd x) /\ in_tree start (tree st) (snd x))
  /\ (forall u n, In u (visited st) -> In n (neighbors g u) ->
         In n (visited st) \/ exists w, In (w, n) (pq st)).

(** *** Edges in the order they are added *)

(** The ends of the edges of [l] that start at [q], in order. *)
Definition out_edges (q : path) (l : list (path * path)) : list path :=
  map snd (filter (fun e => if path_eq_dec (fst e) q then true else false) l).

(** The edges that a build from [root] adds, in the order of the walk:
    for every entry the edge to it, then the edges below it. *)
Fixpoint edges_walked (root : path) (n : node path) : list (path * path) :=
  match n with
  | Directory es | Broken es =>
      flat_map (fun e => (root, fst e) :: edges_walked (fst e) (snd e)) es
  | _ => []
  end.

(** The edges that the calls add, in order, and the paths they name. *)
Definition call_edges (cs : list store_call) : list (path * path) :=
  flat_map (fun c => match c with
                     | CallAddVertex _ => []
                     | CallAddEdge a b => [(a, b)]
                     end) cs.

Definition call_paths (cs : list store_call) : list path :=
  flat_map (fun c => match c with
                     | CallAddVertex p => [p]
                     | CallAddEdge a b => [a; b]
                     end) cs.

End Vocabulary.

(* ================================================================== *)
(** ** Properties of the containers *)

Section ContainerFacts.
Context {path : Type} `{PathOrder path}.

Lemma path_compare_refl (p : path) : path_compare p p = Eq.
Proof. apply path_compare_eq. reflexivity. Qed.

Lemma path_compare_gt (p q : path) :
  path_compare p q = Gt -> path_compare q p = Lt.
Proof. intros Hpq. rewrite path_compare_antisym, Hpq. reflexivity. Qed.

Lemma path_compare_lt (p q : path) :
  path_compare p q = Lt -> path_compare q p = Gt.
Proof. intros Hpq. rewrite path_compare_antisym, Hpq. reflexivity. Qed.

Lemma path_compare_lt_neq (p q : path) : path_compare p q = Lt -> p <> q.
Proof. intros Hpq ->. rewrite path_compare_refl in Hpq. discriminate. Qed.

Lemma path_eqb_eq (p q : path) : path_eqb p q = true <-> p = q.
Proof.
  unfold path_eqb. rewrite <- path_compare_eq.
  destruct (path_compare p q); split; congruence.
Qed.

Lemma path_eqb_refl (p : path) : path_eqb p p = true.
Proof. apply path_eqb_eq. reflexivity. Qed.

Lemma path_eqb_neq (p q : path) : path_eqb p q = false <-> p <> q.
Proof.
  rewrite <- path_eqb_eq. destruct (path_eqb p q); split; congruence.
Qed.

Lemma path_compare_cases (p q : path) : compare_cases p q (path_compare p q).
Proof.
  destruct (path_compare p q) eqn:E.
  - apply CmpEq. apply path_compare_eq, E.
  - apply CmpLt; auto using path_compare_lt, path_compare_lt_neq.
  - apply CmpGt; auto using path_compare_gt.
    intros ->. rewrite path_compare_refl in E. discriminate.
Qed.

(** *** Maps *)

Lemma map_find_insert_same {V} (k : path) (v : V) (m : pmap path V) :
  map_find k (map_insert k v m) = Some v.
Proof.
  induction m as [|[k' v'] r IH]; simpl.
  - rewrite path_compare_refl. reflexivity.
  - destruct (path_compare k k') eqn:E; simpl.
    + rewrite path_compare_refl. reflexivity.
    + rewrite path_compare_refl. reflexivity.
    + rewrite E. exact IH.
Qed.

Lemma map_find_insert_other {V} (k k1 : path) (v : V) (m : pmap path V) :
  k1 <> k -> map_find k1 (map_insert k v m) = map_find k1 m.
Proof.
  intros Hne. induction m as [|[k' v'] r IH]; simpl.
  - destruct (path_compare_cases k1 k); congruence.
  - destruct (path_compare_cases k k') as [Hlt _ _| -> |Hgt _ _]; simpl.
    + destruct (path_compare_cases k1 k) as [H1 _ _| |_ _ _]; try congruence.
      rewrite (path_compare_trans _ _ _ H1 Hlt). reflexivity.
    + destruct (path_compare_cases k1 k'); congruence.
    + destruct (path_compare k1 k'); auto.
Qed.

Lemma map_at_insert_same {V} (d : V) (k : path) (v : V) (m : pmap path V) :
  map_at d k (map_insert k v m) = v.
Proof. unfold map_at. rewrite map_find_insert_same. reflexivity. Qed.

Lemma map_at_insert_other {V} (d : V) (k k1 : path) (v : V) (m : pmap path V) :
  k1 <> k -> map_at d k1 (map_insert k v m) = map_at d k1 m.
Proof. intros Hne. unfold map_at. rewrite map_find_insert_other by exact Hne. reflexivity. Qed.

Lemma map_count_insert_same {V} (k : path) (v : V) (m : pmap path V) :
  map_count k (map_insert k v m) = true.
Proof. unfold map_count. rewrite map_find_insert_same. reflexivity. Qed.

Lemma map_count_insert_other {V} (k k1 : path) (v : V) (m : pmap path V) :
  k1 <> k -> map_count k1 (map_insert k v m) = map_count k1 m.
Proof. intros Hne. unfold map_count. rewrite map_find_insert_other by exact Hne. reflexivity. Qed.

Lemma map_count_insert_mono {V} (k k1 : path) (v : V) (m : pmap path V) :
  map_count k1 m = true -> map_count k1 (map_insert k v m) = true.
Proof.
  intros Hc. destruct (path_eq_dec k1 k) as [-> |Hne].
  - apply map_count_insert_same.
  - rewrite map_count_insert_other; assumption.
Qed.

Lemma map_size_insert_absent {V} (k : path) (v : V) (m : pmap path V) :
  map_count k m = false -> map_size (map_insert k v m) = S (map_size m).
Proof.
  unfold map_count, map_size. induction m as [|[k' v'] r IH]; simpl; intros Hc.
  - reflexivity.
  - destruct (path_compare k k'); simpl.
    + discriminate.
    + reflexivity.
    + rewrite IH by exact Hc. reflexivity.
Qed.

Lemma map_size_insert_present {V} (k : path) (v : V) (m : pmap path V) :
  map_count k m = true -> map_size (map_insert k v m) = map_size m.
Proof.
  unfold map_count, map_size. induction m as [|[k' v'] r IH]; simpl; intros Hc.
  - discriminate.
  - destruct (path_compare k k'); simpl.
    + reflexivity.
    + discriminate.
    + rewrite IH by exact Hc. reflexivity.
Qed.

End ContainerFacts.

(* ================================================================== *)
(** ** Graph Store: [addVertex] and [addEdge] *)

Section GraphStoreFacts.
Context {path : Type} `{PathOrder path}.

Lemma addVertex_present (p : path) (g : graph path) :
  map_count p g = true -> addVertex p g = g.
Proof. unfold addVertex. intros ->. reflexivity. Qed.

Lemma addVertex_absent (p : path) (g : graph path) :
  map_count p g = false -> addVertex p g = map_insert p [] g.
Proof. unfold addVertex. intros ->. reflexivity. Qed.

Lemma addVertex_count (p : path) (g : graph path) :
  map_count p (addVertex p g) = true.
Proof.
  unfold addVertex. destruct (map_count p g) eqn:E; simpl.
  - exact E.
  - apply map_count_insert_same.
Qed.

Lemma addVertex_count_mono (p q : path) (g : graph path) :
  map_count q g = true -> map_count q (addVertex p g) = true.
Proof.
  unfold addVertex. destruct (map_count p g); simpl; intros Hq.
  - exact Hq.
  - apply map_count_insert_mono, Hq.
Qed.

(** [addVertex] never changes a neighbour list: a new vertex starts
    with the empty one, which is also what a missing vertex reads as. *)
Lemma addVertex_neighbors (p v : path) (g : graph path) :
  neighbors (addVertex p g) v = neighbors g v.
Proof.
  unfold addVertex, neighbors. destruct (map_count p g) eqn:E; simpl.
  - reflexivity.
  - destruct (path_eq_dec v p) as [-> |Hne].
    + rewrite map_at_insert_same. unfold map_at.
      unfold map_count in E. destruct (map_find p g); [discriminate|reflexivity].
    + apply map_at_insert_other, Hne.
Qed.

Lemma addVertex_size (p : path) (g : graph path) :
  map_size (addVertex p g) = (map_size g + if map_count p g then 0 else 1)%nat.
Proof.
  unfold addVertex. destruct (map_count p g) eqn:E; simpl.
  - lia.
  - rewrite map_size_insert_absent by exact E. lia.
Qed.

Lemma addEdge_neighbors_source (a b : path) (g : graph path) :
  neighbors (addEdge a b g) a = neighbors g a ++ [b].
Proof.
  unfold addEdge, neighbors. rewrite map_at_insert_same.
  fold (neighbors (addVertex b (addVertex a g)) a).
  rewrite !addVertex_neighbors. reflexivity.
Qed.

Lemma addEdge_neighbors_other (a b v : path) (g : graph path) :
  v <> a -> neighbors (addEdge a b g) v = neighbors g v.
Proof.
  intros Hne. unfold addEdge, neighbors. rewrite map_at_insert_other by exact Hne.
  fold (neighbors (addVertex b (addVertex a g)) v).
  rewrite !addVertex_neighbors. reflexivity.
Qed.

Lemma addEdge_count_source (a b : path) (g : graph path) :
  map_count a (addEdge a b g) = true.
Proof. unfold addEdge. apply map_count_insert_same. Qed.

Lemma addEdge_count_destination (a b : path) (g : graph path) :
  map_count b (addEdge a b g) = true.
Proof.
  unfold addEdge. apply map_count_insert_mono, addVertex_count.
Qed.

Lemma addEdge_count_mono (a b q : path) (g : graph path) :
  map_count q g = true -> map_count q (addEdge a b g) = true.
Proof.
  intros Hq. unfold addEdge.
  apply map_count_insert_mono, addVertex_count_mono, addVertex_count_mono, Hq.
Qed.

(** C7: [addEdge a b] is a total function on graphs (it has no failing
    outcome); afterwards [a] and [b] are both vertices, and [b] occurs
    in the neighbour list of [a] exactly once more than before, whether
    or not the edge was already there: the new list is the old one
    with [b] appended. *)
Theorem addEdge_adds_one_occurrence (g : graph path) (a b : path) :
  map_count a (addEdge a b g) = true
  /\ map_count b (addEdge a b g) = true
  /\ neighbors (addEdge a b g) a = neighbors g a ++ [b]
  /\ count_occ path_eq_dec (neighbors (addEdge a b g) a) b
     = S (count_occ path_eq_dec (neighbors g a) b).
Proof.
  split; [apply addEdge_count_source|].
  split; [apply addEdge_count_destination|].
  split; [apply addEdge_neighbors_source|].
  rewrite addEdge_neighbors_source, count_occ_app. simpl.
  destruct (path_eq_dec b b) as [_|Hbb]; [lia|congruence].
Qed.

(** C8, as the code has it: a second [addVertex p] changes nothing, one
    call grows the vertex set by at most one, and two calls in a row
    grow it by exactly one when [p] was not a vertex and by nothing when
    it was. *)
Theorem addVertex_twice (g : graph path) (p : path) :
  addVertex p (addVertex p g) = addVertex p g
  /\ (map_size (addVertex p g) <= map_size g + 1)%nat
  /\ map_size (addVertex p (addVertex p g))
     = (map_size g + if map_count p g then 0 else 1)%nat.
Proof.
  assert (Hidem : addVertex p (addVertex p g) = addVertex p g)
    by (apply addVertex_present, addVertex_count).
  split; [exact Hidem|].
  split.
  - rewrite addVertex_size. destruct (map_count p g); lia.
  - rewrite Hidem. apply addVertex_size.
Qed.

End GraphStoreFacts.

(** C8 as stated fails on a graph that already has the vertex: two calls
    of [addVertex "A"] on the graph with the single vertex "A" leave the
    size at 1. *)
Lemma addVertex_twice_on_present_vertex :
  map_count "A"%string (addVertex "A"%string empty_graph) = true
  /\ map_size (addVertex "A"%string (addVertex "A"%string (addVertex "A"%string empty_graph)))
     <> (map_size (addVertex "A"%string empty_graph) + 1)%nat.
Proof. split; [reflexivity|]. vm_compute. discriminate. Qed.

(* ================================================================== *)
(** ** Graph Builder: [buildGraph] *)

Section GraphBuilderFacts.
Context {path : Type} `{PathOrder path}.

Lemma extends_refl (b : builder path) : extends b b.
Proof. split; auto. Qed.

Lemma extends_trans (b1 b2 b3 : builder path) :
  extends b1 b2 -> extends b2 b3 -> extends b1 b3.
Proof. intros [E1 C1] [E2 C2]. split; auto. Qed.

Lemma addEdge_neighbors_mono (a b v x : path) (g : graph path) :
  In x (neighbors g v) -> In x (neighbors (addEdge a b g) v).
Proof.
  intros Hin. destruct (path_eq_dec v a) as [-> |Hne].
  - rewrite addEdge_neighbors_source. apply in_or_app. left. exact Hin.
  - rewrite addEdge_neighbors_other by exact Hne. exact Hin.
Qed.

Lemma extends_addEdge (root p : path) (b : builder path) :
  extends b (mkBuilder (addEdge root p (adjList b)) (cerr b)).
Proof.
  split; simpl; auto. intros v x. apply addEdge_neighbors_mono.
Qed.

Lemma extends_report (e : fs_error path) (b : builder path) :
  extends b (report e b).
Proof.
  split; simpl; auto. intros e' Hin. apply in_or_app. left. exact Hin.
Qed.

Lemma report_logged (e : fs_error path) (b : builder path) :
  In e (cerr (report e b)).
Proof. simpl. apply in_or_app. right. left. reflexivity. Qed.

(** The loop keeps what was built, whenever the recursive call does. *)
Lemma build_entries_extends build (root : path) (ending : completion path)
      (es : list (path * node path)) :
  Forall (fun e => forall p b, extends b (fst (build p (snd e) b))) es ->
  forall b, extends b (fst (build_entries build root ending es b)).
Proof.
  induction 1 as [|[p c] rest Hc _ IH]; intros b; simpl.
  - apply extends_refl.
  - set (b1 := mkBuilder (addEdge root p (adjList b)) (cerr b)).
    assert (H1 : extends b b1) by apply extends_addEdge.
    destruct (fs_is_directory p c) as [[|]|e].
    + simpl in Hc. specialize (Hc p b1).
      destruct (build p c b1) as [b2 [|e]]; simpl in Hc.
      * eauto using extends_trans.
      * eauto using extends_trans, extends_report.
    + eauto using extends_trans.
    + eauto using extends_trans, extends_report.
Qed.

Lemma buildGraph_extends (n : node path) :
  forall root b, extends b (fst (buildGraph root n b)).
Proof.
  induction n as [| | | |es IH|es IH] using node_induction; intros root b; simpl;
    try apply extends_refl; apply build_entries_extends; exact IH.
Qed.

(** The loop is left the way the enumeration ends: no error of the body
    leaves it. *)
Lemma build_entries_ending build (root : path) (ending : completion path)
      (es : list (path * node path)) :
  forall b, snd (build_entries build root ending es b) = ending.
Proof.
  induction es as [|[p c] rest IH]; intros b; simpl.
  - reflexivity.
  - destruct (fs_is_directory p c) as [[|]|e]; auto.
    destruct (build p c _) as [b2 [|e]]; auto.
Qed.

Lemma build_entries_normal build (root : path) (es : list (path * node path)) :
  forall b, snd (build_entries build root Normal es b) = Normal.
Proof. apply build_entries_ending. Qed.

(** What the loop builds does not depend on how the enumeration ends. *)
Lemma build_entries_built build (root : path) (ending : completion path)
      (es : list (path * node path)) :
  forall b, fst (build_entries build root ending es b)
            = fst (build_entries build root Normal es b).
Proof.
  induction es as [|[p c] rest IH]; intros b; simpl.
  - reflexivity.
  - destruct (fs_is_directory p c) as [[|]|e]; auto.
    destruct (build p c _) as [b2 [|e]]; auto.
Qed.

(** How [buildGraph] ends is decided by what the root is. *)
Lemma buildGraph_ending (p : path) (c : node path) (b : builder path) :
  snd (buildGraph p c b)
  = match c with
    | Unknown => Throws (StatusError p)
    | Sealed => Throws (OpenError p)
    | Broken _ => Throws (ReadError p)
    | _ => Normal
    end.
Proof.
  destruct c as [| | | |es|es]; simpl; try reflexivity; apply build_entries_ending.
Qed.

Lemma entry_error_cases (p : path) (c : node path) :
  entry_error p c
  = match c with
    | Unknown => Some (StatusError p)
    | Sealed => Some (OpenError p)
    | Broken _ => Some (ReadError p)
    | _ => None
    end.
Proof.
  unfold entry_error. rewrite buildGraph_ending. destruct c; reflexivity.
Qed.

(** One turn of the loop: the edge, then what the recursive call builds,
    then the report of the error if there is one. *)
Lemma build_entries_step (root : path) (ending : completion path) (p : path)
      (c : node path) (rest : list (path * node path)) (b : builder path) :
  build_entries buildGraph root ending ((p, c) :: rest) b
  = build_entries buildGraph root ending rest (entry_done root p c b).
Proof.
  unfold entry_done. rewrite entry_error_cases. cbn [build_entries].
  set (b1 := mkBuilder (addEdge root p (adjList b)) (cerr b)).
  pose proof (buildGraph_ending p c b1) as Hend.
  destruct c as [| | | |es|es]; cbn [fs_is_directory]; try reflexivity.
  - destruct (buildGraph p (Directory es) b1) as [b2 r]. cbn [snd] in Hend.
    subst r. reflexivity.
  - destruct (buildGraph p (Broken es) b1) as [b2 r]. cbn [snd] in Hend.
    subst r. reflexivity.
Qed.

(** The loop over a list of entries in two parts. *)
Lemma build_entries_app (root : path) (ending : completion path)
      (before after : list (path * node path)) :
  forall b,
    build_entries buildGraph root ending (before ++ after) b
    = build_entries buildGraph root ending after
        (fst (build_entries buildGraph root Normal before b)).
Proof.
  induction before as [|[p c] before IH]; intros b.
  - reflexivity.
  - cbn [app]. rewrite !build_entries_step. apply IH.
Qed.

Lemma entry_done_extends (root p : path) (c : node path) (b : builder path) :
  extends (mkBuilder (addEdge root p (adjList b)) (cerr b)) (entry_done root p c b).
Proof.
  unfold entry_done. destruct (entry_error p c) as [e|].
  - eapply extends_trans; [apply buildGraph_extends|apply extends_report].
  - apply buildGraph_extends.
Qed.

Lemma entry_done_reports (root p : path) (c : node path) (b : builder path)
      (e : fs_error path) :
  entry_error p c = Some e -> In e (cerr (entry_done root p c b)).
Proof.
  intros He. unfold entry_done. rewrite He. apply report_logged.
Qed.

Lemma build_entries_edges (root : path) (ending : completion path)
      (es : list (path * node path)) :
  forall b p c,
    In (p, c) es ->
    let b' := fst (build_entries buildGraph root ending es b) in
    In p (neighbors (adjList b') root)
    /\ (forall e, entry_error p c = Some e -> In e (cerr b')).
Proof.
  induction es as [|[q d] rest IH]; intros b p c Hin; [destruct Hin|].
  cbv zeta. rewrite build_entries_step.
  pose proof (entry_done_extends root q d b) as Hext.
  pose proof (buildGraph_extends (Directory rest) root (entry_done root q d b))
    as [Hedges Hlog].
  cbn [buildGraph] in Hedges, Hlog.
  rewrite build_entries_built.
  destruct Hin as [Hhd|Htl].
  - inversion Hhd; subst q d. split.
    + apply Hedges, Hext. cbn [adjList].
      rewrite addEdge_neighbors_source. apply in_or_app. right. left. reflexivity.
    + intros e He. apply Hlog. apply entry_done_reports. exact He.
  - rewrite <- (build_entries_built buildGraph root ending).
    apply (IH (entry_done root q d b) p c Htl).
Qed.

Lemma listed_is_directory [root : path] [n : node path] [q : path]
      [es : list (path * node path)] :
  listed root n q es -> fs_is_directory root n = inl true.
Proof.
  intros Hl. destruct Hl as [root n Hdir|root n p c q es' Hin _]; [exact Hdir|].
  destruct n; try destruct Hin; reflexivity.
Qed.

(** The recursive build of a subdirectory entry is part of the result. *)
Lemma build_entries_reaches (root : path) (ending : completion path)
      (es : list (path * node path)) :
  forall b p c,
    In (p, c) es ->
    exists b1, extends (fst (buildGraph p c b1))
                       (fst (build_entries buildGraph root ending es b)).
Proof.
  induction es as [|[q d] rest IH]; intros b p c Hin; [destruct Hin|].
  rewrite build_entries_step.
  destruct Hin as [Hhd|Htl].
  - inversion Hhd; subst q d.
    exists (mkBuilder (addEdge root p (adjList b)) (cerr b)).
    rewrite build_entries_built.
    eapply extends_trans;
      [|apply (buildGraph_extends (Directory rest) root (entry_done root p c b))].
    unfold entry_done. destruct (entry_error p c) as [e|].
    + apply extends_report.
    + apply extends_refl.
  - apply IH; assumption.
Qed.

Lemma buildGraph_entries_given (root : path) (n : node path) (b : builder path) :
  fs_is_directory root n = inl true ->
  fst (buildGraph root n b)
  = fst (build_entries buildGraph root Normal (entries_given n) b).
Proof.
  destruct n as [| | | |es|es]; cbn [fs_is_directory]; intros Hdir;
    try discriminate; cbn [buildGraph entries_given build_entries fst];
    try reflexivity.
  apply build_entries_built.
Qed.

Lemma buildGraph_listed_edges [root : path] [n : node path] [q : path]
      [es : list (path * node path)] :
  listed root n q es ->
  forall b p c, In (p, c) es ->
    In p (neighbors (adjList (fst (buildGraph root n b))) q)
    /\ (forall e, entry_error p c = Some e -> In e (cerr (fst (buildGraph root n b)))).
Proof.
  induction 1 as [root n Hdir|root n p0 c0 q es' Hin Hl IH]; intros b p c Hp.
  - rewrite (buildGraph_entries_given root n b Hdir).
    apply (build_entries_edges root Normal (entries_given n) b p c Hp).
  - assert (Hdir : fs_is_directory root n = inl true)
      by (destruct n; try destruct Hin; reflexivity).
    rewrite (buildGraph_entries_given root n b Hdir).
    destruct (build_entries_reaches root Normal (entries_given n) b p0 c0 Hin)
      as (b1 & [Hedges Hlog]).
    destruct (IH b1 p c Hp) as [Hedge Hreport]. split.
    + apply Hedges, Hedge.
    + intros e He. apply Hlog, Hreport, He.
Qed.

(** C5, as the code has it: building from a directory whose listing is
    read to its end always returns normally, whatever fails below it.
    Every error that ends the handling of an entry (thrown by
    [fs::is_directory] on it, or leaving the recursive build of it
    because its listing cannot be opened or breaks off) is caught in the
    loop and reported.  The entry is not dropped: the edge to it, added
    before the error, stays ([addEdge] itself raises no error), and
    nothing else is built for it unless its own listing was under way.
    The loop then goes on with the remaining siblings.  Every entry of
    every directory that the walk lists, failing or not and at any
    depth, has its edge from that directory in the graph and, if it
    fails, its error reported, and nothing built or reported before is
    lost. *)
Theorem buildGraph_survives_failing_entries
        (root : path) (entries : list (path * node path)) (b : builder path) :
  let r := buildGraph root (Directory entries) b in
  snd r = Normal
  /\ extends b (fst r)
  /\ (forall q es p c,
        listed root (Directory entries) q es -> In (p, c) es ->
        In p (neighbors (adjList (fst r)) q)
        /\ (forall e, entry_error p c = Some e -> In e (cerr (fst r))))
  /\ (forall before p c after e,
        entries = before ++ (p, c) :: after ->
        entry_error p c = Some e ->
        let b0 := fst (build_entries buildGraph root Normal before b) in
        let b1 := mkBuilder (addEdge root p (adjList b0)) (cerr b0) in
        In e (cerr (fst r))
        /\ In p (neighbors (adjList (fst r)) root)
        /\ ((forall es, c <> Broken es) -> fst (buildGraph p c b1) = b1)
        /\ r = build_entries buildGraph root Normal after
                 (report e (fst (buildGraph p c b1)))).
Proof.
  cbv zeta. split; [apply build_entries_normal|].
  split; [apply (buildGraph_extends (Directory entries))|].
  split.
  - intros q es p c Hl Hin. apply (buildGraph_listed_edges Hl b p c Hin).
  - intros before p c after e -> He.
    assert (Hin : In (p, c) (before ++ (p, c) :: after))
      by (apply in_or_app; right; left; reflexivity).
    destruct (build_entries_edges root Normal _ b p c Hin) as [Hedge Hlog].
    split; [apply Hlog, He|]. split; [exact Hedge|]. split.
    + intros Hc. rewrite entry_error_cases in He.
      destruct c as [| | | |es|es]; try discriminate; try reflexivity.
      destruct (Hc es eq_refl).
    + cbn [buildGraph]. rewrite build_entries_app, build_entries_step.
      unfold entry_done. rewrite He. reflexivity.
Qed.

(** C6: when [root] does not exist or is not a directory the call
    returns at once and normally: the graph (its vertices and every
    adjacency list) and the error output are what they were. *)
Theorem buildGraph_invalid_root (root : path) (n : node path) (b : builder path) :
  fs_exists root n = inl false \/ fs_is_directory root n = inl false ->
  buildGraph root n b = (b, Normal).
Proof.
  intros [Hex|Hdir]; destruct n; simpl in *; try discriminate; reflexivity.
Qed.

End GraphBuilderFacts.

Lemma buildGraph_invalid_root_witness :
  (fs_exists "C:/missing"%string Absent = inl false
   \/ fs_is_directory "C:/missing"%string Absent = inl false)
  /\ buildGraph "C:/missing"%string Absent (mkBuilder Examples.chain [])
     = (mkBuilder Examples.chain [], Normal).
Proof.
  split; [left; reflexivity|].
  apply (buildGraph_invalid_root "C:/missing"%string Absent (mkBuilder Examples.chain [])).
  left. reflexivity.
Defined.

(** The root's own listing is opened outside every [try] of the call:
    when it is the root that cannot be listed, the error leaves
    [buildGraph] and nothing is built. *)
Example buildGraph_root_not_listable (b : builder string) :
  buildGraph "root"%string Sealed b = (b, Throws (OpenError "root"%string)).
Proof. reflexivity. Qed.

(** A root with a subdirectory that cannot be listed and a regular
    file: both edges are there, the error is reported, the call returns. *)
Example buildGraph_locked_and_file :
  buildGraph "root"%string Examples.locked_and_file (mkBuilder empty_graph [])
  = (mkBuilder [("root", ["root/locked"; "root/file"]); ("root/file", []); ("root/locked", [])]
               [OpenError "root/locked"],
     Normal)%string.
Proof. vm_compute. reflexivity. Qed.

(** C5 as stated fails, in two ways.  An entry at which something fails
    is not skipped: [root/locked] cannot be opened and is a vertex, with
    its edge from the root, all the same.  And an error
    of the enumeration is not caught when it is the root's own: when the
    listing of the root breaks off after its first entry the error leaves
    the call, which does not go on and does not return normally. *)
Lemma buildGraph_failing_entry_not_skipped :
  (entry_error "root/locked"%string Sealed = Some (OpenError "root/locked"%string)
   /\ In "root/locked"%string
         (map_keys (adjList (fst (buildGraph "root"%string Examples.locked_and_file
                                             (mkBuilder empty_graph [])))))
   /\ In "root/locked"%string
         (neighbors (adjList (fst (buildGraph "root"%string Examples.locked_and_file
                                              (mkBuilder empty_graph []))))
                    "root"%string))
  /\ buildGraph "root"%string Examples.broken_listing (mkBuilder empty_graph [])
     = (mkBuilder [("root", ["root/a"]); ("root/a", [])] [],
        Throws (ReadError "root"))%string.
Proof.
  split; [|vm_compute; reflexivity].
  split; [reflexivity|]. split; vm_compute; tauto.
Qed.

(** A subdirectory whose listing breaks off: the error leaves the
    recursive call and is caught by the loop of the root, which goes on
    with the regular file; the entry met before the failure keeps its
    edge. *)
Example buildGraph_broken_below :
  buildGraph "root"%string Examples.broken_below (mkBuilder empty_graph [])
  = (mkBuilder [("root", ["root/sub"; "root/file"]); ("root/file", []);
                ("root/sub", ["root/sub/a"]); ("root/sub/a", [])]
               [ReadError "root/sub"],
     Normal)%string.
Proof. vm_compute. reflexivity. Qed.

(* ================================================================== *)
(** ** Sets in key order *)

Section SetFacts.
Context {path : Type} `{PathOrder path}.

Lemma set_insert_In (k x : path) (s : pset path) :
  In x (set_insert k s) <-> x = k \/ In x s.
Proof.
  induction s as [|k' r IH]; simpl.
  - intuition.
  - destruct (path_compare_cases k k') as [_ _ _| -> |_ _ _]; simpl.
    + intuition.
    + intuition.
    + rewrite IH. intuition.
Qed.

Lemma set_erase_subset (k x : path) (s : pset path) :
  In x (set_erase k s) -> In x s.
Proof.
  induction s as [|k' r IH]; simpl; [tauto|].
  destruct (path_compare k k'); simpl; intuition.
Qed.

(** In an increasing list the head is below every later element. *)
Lemma increasing_head [k x : path] [r : list path] :
  increasing (k :: r) -> In x r -> path_compare k x = Lt.
Proof.
  revert k. induction r as [|k' r IH]; intros k Hinc Hin; [destruct Hin|].
  destruct Hinc as [Hlt Hinc]. destruct Hin as [-> |Hin]; [exact Hlt|].
  apply path_compare_trans with k'; [exact Hlt|]. apply IH; assumption.
Qed.

Lemma increasing_tail [k : path] [r : list path] :
  increasing (k :: r) -> increasing r.
Proof. destruct r; simpl; tauto. Qed.

Lemma increasing_cons (k : path) (r : list path) :
  increasing r -> (forall x, In x r -> path_compare k x = Lt) -> increasing (k :: r).
Proof.
  destruct r as [|k' r]; simpl; [tauto|]. intros Hinc Hlt. split; auto.
Qed.

Lemma set_insert_increasing (k : path) (s : pset path) :
  increasing s -> increasing (set_insert k s).
Proof.
  induction s as [|k' r IH]; intros Hinc; [exact I|].
  simpl set_insert.
  destruct (path_compare_cases k k') as [Hlt _ _| -> |_ Hlt _].
  - split; assumption.
  - exact Hinc.
  - apply increasing_cons.
    + apply IH. apply increasing_tail with k'. exact Hinc.
    + intros x Hx. apply set_insert_In in Hx. destruct Hx as [-> |Hx]; [exact Hlt|].
      apply increasing_head with r; assumption.
Qed.

Lemma set_erase_increasing (k : path) (s : pset path) :
  increasing s -> increasing (set_erase k s).
Proof.
  induction s as [|k' r IH]; intros Hinc; [exact I|].
  simpl set_erase. destruct (path_compare k k').
  - apply increasing_tail with k'. exact Hinc.
  - exact Hinc.
  - apply increasing_cons.
    + apply IH. apply increasing_tail with k'. exact Hinc.
    + intros x Hx. apply increasing_head with r; [exact Hinc|].
      apply set_erase_subset with k. exact Hx.
Qed.

(** Erasing an element of an increasing set removes exactly one entry. *)
Lemma set_erase_length (k : path) (s : pset path) :
  increasing s -> In k s -> S (List.length (set_erase k s)) = List.length s.
Proof.
  induction s as [|k' r IH]; intros Hinc Hin; [destruct Hin|].
  simpl set_erase.
  destruct (path_compare_cases k k') as [Hlt _ _|_|_ _ Hne].
  - exfalso. destruct Hin as [-> |Hin].
    + rewrite path_compare_refl in Hlt. discriminate.
    + pose proof (increasing_head Hinc Hin) as Hk.
      pose proof (path_compare_trans _ _ _ Hlt Hk) as Hkk.
      rewrite path_compare_refl in Hkk. discriminate.
  - reflexivity.
  - simpl. f_equal. apply IH.
    + apply increasing_tail with k'. exact Hinc.
    + destruct Hin as [-> |Hin]; [congruence|exact Hin].
Qed.

Lemma set_erase_In (k x : path) (s : pset path) :
  increasing s -> (In x (set_erase k s) <-> In x s /\ x <> k).
Proof.
  induction s as [|k' r IH]; intros Hinc; simpl; [tauto|].
  pose proof (increasing_tail Hinc) as Hr.
  destruct (path_compare_cases k k') as [Hlt _ _| <- |_ Hgt Hne]; simpl.
  - split; [|tauto]. intros Hin. split; [exact Hin|]. intros ->.
    destruct Hin as [-> |Hin].
    + rewrite path_compare_refl in Hlt. discriminate.
    + pose proof (increasing_head Hinc Hin) as Hk.
      pose proof (path_compare_trans _ _ _ Hlt Hk) as Hkk.
      rewrite path_compare_refl in Hkk. discriminate.
  - split.
    + intros Hin. split; [tauto|]. intros ->.
      pose proof (increasing_head Hinc Hin) as Hk.
      rewrite path_compare_refl in Hk. discriminate.
    + intros [[-> |Hin] Hne]; [congruence|exact Hin].
  - rewrite (IH Hr). split.
    + intros [-> |[Hin Hx]]; [split; [tauto|congruence]|tauto].
    + intros [[-> |Hin] Hx]; tauto.
Qed.

Lemma set_count_In (k : path) (s : pset path) :
  set_count k s = true -> In k s.
Proof.
  induction s as [|k' r IH]; simpl; [discriminate|].
  destruct (path_compare_cases k k') as [_ _ _| -> |_ _ _]; intros Hc.
  - discriminate.
  - left. reflexivity.
  - right. apply IH, Hc.
Qed.

Lemma set_count_insert_same (k : path) (s : pset path) :
  set_count k (set_insert k s) = true.
Proof.
  induction s as [|k' r IH]; simpl.
  - rewrite path_compare_refl. reflexivity.
  - destruct (path_compare k k') eqn:E; simpl.
    + rewrite E. reflexivity.
    + rewrite path_compare_refl. reflexivity.
    + rewrite E. exact IH.
Qed.

Lemma map_find_In {V} (k : path) (v : V) (m : pmap path V) :
  map_find k m = Some v -> In (k, v) m.
Proof.
  induction m as [|[k' v'] r IH]; simpl; [discriminate|].
  destruct (path_compare_cases k k') as [_ _ _| -> |_ _ _]; intros Hf.
  - discriminate.
  - left. congruence.
  - right. apply IH, Hf.
Qed.

Lemma map_count_In {V} (k : path) (m : pmap path V) :
  map_count k m = true -> In k (map_keys m).
Proof.
  unfold map_count. destruct (map_find k m) as [v|] eqn:E; [|discriminate].
  intros _. apply map_find_In in E. apply (in_map fst) in E. exact E.
Qed.

(** A neighbour list read from the graph is that of one of its entries,
    or empty. *)
Lemma neighbors_entry (g : graph path) (v x : path) :
  In x (neighbors g v) -> exists ns, In (v, ns) g /\ In x ns.
Proof.
  unfold neighbors, map_at. destruct (map_find v g) as [ns|] eqn:E.
  - intros Hin. exists ns. split; [apply map_find_In, E|exact Hin].
  - intros [].
Qed.

End SetFacts.

(* ================================================================== *)
(** ** Shortest Path Engine: [shortestPath] *)

Section ShortestPathFacts.
Context {path : Type} `{PathOrder path}.

(** *** The initialisation loop *)

Lemma sp_init_unvisited (g : graph path) : forall st v,
  In v (unvisited (fold_left sp_init_step g st))
  <-> In v (map_keys g) \/ In v (unvisited st).
Proof.
  induction g as [|[k ns] r IH]; intros st v; simpl.
  - tauto.
  - rewrite IH. simpl. rewrite set_insert_In. intuition congruence.
Qed.

Lemma sp_init_increasing (g : graph path) : forall st,
  increasing (unvisited st) -> increasing (unvisited (fold_left sp_init_step g st)).
Proof.
  induction g as [|[k ns] r IH]; intros st Hinc; simpl.
  - exact Hinc.
  - apply IH. simpl. apply set_insert_increasing, Hinc.
Qed.

Lemma set_insert_length (k : path) (s : pset path) :
  (List.length (set_insert k s) <= S (List.length s))%nat.
Proof.
  induction s as [|k' r IH]; simpl; [lia|].
  destruct (path_compare k k'); simpl; lia.
Qed.

Lemma sp_init_length (g : graph path) : forall st,
  (List.length (unvisited (fold_left sp_init_step g st))
   <= map_size g + List.length (unvisited st))%nat.
Proof.
  unfold map_size. induction g as [|[k ns] r IH]; intros st; simpl.
  - lia.
  - specialize (IH (sp_init_step st (k, ns))). simpl in IH.
    pose proof (set_insert_length k (unvisited st)). lia.
Qed.

Lemma sp_init_distance_other (g : graph path) : forall st v,
  ~ In v (map_keys g) ->
  map_at 0%Z v (distances (fold_left sp_init_step g st)) = map_at 0%Z v (distances st).
Proof.
  induction g as [|[k ns] r IH]; intros st v Hv; simpl.
  - reflexivity.
  - simpl in Hv. rewrite IH by tauto. simpl.
    apply map_at_insert_other. intros ->. tauto.
Qed.

Lemma sp_init_distance_key (g : graph path) : forall st v,
  In v (map_keys g) ->
  map_at 0%Z v (distances (fold_left sp_init_step g st)) = INT_MAX.
Proof.
  induction g as [|[k ns] r IH]; intros st v Hv; simpl.
  - destruct Hv.
  - destruct (in_dec path_eq_dec v (map_keys r)) as [Hr|Hr].
    + apply IH, Hr.
    + rewrite sp_init_distance_other by exact Hr. simpl.
      destruct Hv as [<-|Hv]; [|contradiction].
      apply map_at_insert_same.
Qed.

Lemma sp_init_previous (g : graph path) : forall st,
  (forall v, map_at path_empty v (previous st) = path_empty) ->
  forall v, map_at path_empty v (previous (fold_left sp_init_step g st)) = path_empty.
Proof.
  induction g as [|[k ns] r IH]; intros st Hst v; simpl.
  - apply Hst.
  - apply IH. intros w. simpl. destruct (path_eq_dec w k) as [-> |Hne].
    + apply map_at_insert_same.
    + rewrite map_at_insert_other by exact Hne. apply Hst.
Qed.

(** *** The selection scan *)

Lemma sp_select_In (dist : pmap path Z) (u : pset path) : forall first,
  sp_select dist u first = first \/ In (sp_select dist u first) u.
Proof.
  unfold sp_select. induction u as [|p r IH]; intros first; simpl.
  - left. reflexivity.
  - destruct (IH (sp_select_step dist first p)) as [Heq|Hin]; [|tauto].
    rewrite Heq. unfold sp_select_step. destruct (_ <? _)%Z; tauto.
Qed.

(** The scan finds the vertex whose distance is strictly below all
    others, wherever it stands in the set. *)
Lemma sp_select_least (dist : pmap path Z) (s : path) (u : pset path) :
  forall first,
    (In s u \/ first = s) ->
    (forall y, In y u \/ y = first -> y <> s ->
               (map_at 0 s dist < map_at 0 y dist)%Z) ->
    sp_select dist u first = s.
Proof.
  unfold sp_select. induction u as [|p r IH]; intros first Hs Hmin; simpl.
  - destruct Hs as [[]|Hs]. exact Hs.
  - apply IH.
    + unfold sp_select_step. destruct (path_eq_dec p s) as [-> |Hps].
      * right. destruct (path_eq_dec first s) as [-> |Hfs].
        -- destruct (_ <? _)%Z; reflexivity.
        -- assert (map_at 0 s dist < map_at 0 first dist)%Z as Hlt
            by (apply Hmin; [right; reflexivity|exact Hfs]).
           apply Z.ltb_lt in Hlt. rewrite Hlt. reflexivity.
      * destruct Hs as [[Hp|Hs]|Hs]; [congruence|tauto|].
        right. subst first.
        assert (map_at 0 s dist < map_at 0 p dist)%Z as Hlt
            by (apply Hmin; [left; left; reflexivity|exact Hps]).
        apply Z.lt_le_incl, Z.ltb_ge in Hlt. rewrite Hlt. reflexivity.
    + intros y Hy Hne. apply Hmin; [|exact Hne].
      destruct Hy as [Hy|Hy]; [left; right; exact Hy|].
      subst y. unfold sp_select_step. destruct (_ <? _)%Z; [left; left|right]; reflexivity.
Qed.

(** *** The relaxation loop *)

Lemma sp_relax_previous_other (current d : path) (l : list path) : forall dp,
  ~ In d l ->
  map_at path_empty d (snd (fold_left (sp_relax_step current) l dp))
  = map_at path_empty d (snd dp).
Proof.
  induction l as [|n r IH]; intros dp Hd; simpl.
  - reflexivity.
  - simpl in Hd. rewrite IH by tauto. unfold sp_relax_step.
    destruct (_ <? _)%Z; simpl; [|reflexivity].
    apply map_at_insert_other. intros ->. tauto.
Qed.

(** *** The main loop *)

Lemma sp_loop_stop (fuel : nat) (g : graph path) [d : path] [st : sp_state path]
      [first : path] [r : list path] :
  unvisited st = first :: r ->
  sp_select (distances st) (unvisited st) first = d ->
  sp_loop fuel g d st = Some st.
Proof.
  intros Hu Hsel. destruct fuel; simpl; rewrite Hu; rewrite Hu in Hsel;
    rewrite Hsel, path_eqb_refl; reflexivity.
Qed.

Lemma sp_loop_turn (fuel : nat) (g : graph path) [d : path] [st : sp_state path]
      [first : path] [r : list path] [current : path] :
  unvisited st = first :: r ->
  sp_select (distances st) (unvisited st) first = current ->
  current <> d ->
  sp_loop (S fuel) g d st = sp_loop fuel g d (sp_turn g current st).
Proof.
  intros Hu Hsel Hne. simpl. rewrite Hu. rewrite Hu in Hsel. rewrite Hsel.
  apply path_eqb_neq in Hne. rewrite Hne. unfold sp_turn. rewrite Hu. reflexivity.
Qed.

(** The loop ends within as many turns as there are unvisited vertices,
    and what every turn keeps, the loop keeps. *)
Lemma sp_loop_ends (g : graph path) (d : path) (P : sp_state path -> Prop) :
  (forall st current, P st -> In current (unvisited st) -> P (sp_turn g current st)) ->
  forall fuel st,
    P st -> increasing (unvisited st) ->
    (List.length (unvisited st) <= fuel)%nat ->
    exists st', sp_loop fuel g d st = Some st' /\ P st'.
Proof.
  intros Hturn. induction fuel as [|fuel IH]; intros st HP Hinc Hlen.
  - destruct (unvisited st) as [|first r] eqn:Hu; [|simpl in Hlen; lia].
    exists st. simpl. rewrite Hu. auto.
  - destruct (unvisited st) as [|first r] eqn:Hu.
    + exists st. simpl. rewrite Hu. auto.
    + remember (sp_select (distances st) (unvisited st) first) as current eqn:Hsel.
      symmetry in Hsel.
      destruct (path_eq_dec current d) as [Hcd|Hcd].
      * exists st. split; [|exact HP]. subst current.
        apply (sp_loop_stop _ _ Hu Hcd).
      * rewrite (sp_loop_turn _ _ Hu Hsel Hcd).
        assert (Hcur : In current (unvisited st)).
        { rewrite <- Hsel.
          destruct (sp_select_In (distances st) (unvisited st) first) as [-> |Hin];
            [rewrite Hu; left; reflexivity|exact Hin]. }
        apply IH.
        -- apply Hturn; assumption.
        -- simpl. rewrite Hu. apply set_erase_increasing, Hinc.
        -- simpl. rewrite Hu in Hcur |- *.
           pose proof (set_erase_length _ _ Hinc Hcur) as Hl.
           cbn [List.length] in Hl, Hlen. lia.
Qed.

End ShortestPathFacts.

Section ShortestPathClaims.
Context {path : Type} `{PathOrder path}.

Lemma shortestPath_unfold (fuel : nat) (g : graph path) (s d : path) :
  shortestPath fuel g s d =
  match sp_loop fuel g d (sp_start g s) with
  | None => None
  | Some st =>
      match sp_walk fuel (previous st) d with
      | Some l => Some (rev l)
      | None => None
      end
  end.
Proof. reflexivity. Qed.

Lemma sp_start_previous (g : graph path) (s v : path) :
  map_at path_empty v (previous (sp_start g s)) = path_empty.
Proof. simpl. apply sp_init_previous. intros w. reflexivity. Qed.

Lemma sp_start_increasing (g : graph path) (s : path) :
  increasing (unvisited (sp_start g s)).
Proof. simpl. apply sp_init_increasing. exact I. Qed.

Lemma sp_start_length (g : graph path) (s : path) :
  (List.length (unvisited (sp_start g s)) <= map_size g)%nat.
Proof.
  simpl. pose proof (sp_init_length g (mkSp [] [] [])) as Hl. simpl in Hl.
  unfold sp_init. lia.
Qed.

Lemma sp_start_unvisited (g : graph path) (s v : path) :
  In v (unvisited (sp_start g s)) <-> In v (map_keys g).
Proof.
  simpl. unfold sp_init. rewrite sp_init_unvisited. simpl. tauto.
Qed.

Lemma sp_start_distance_source (g : graph path) (s : path) :
  map_at 0%Z s (distances (sp_start g s)) = 0%Z.
Proof. simpl. apply map_at_insert_same. Qed.

Lemma sp_start_distance_other (g : graph path) (s v : path) :
  v <> s -> In v (map_keys g) ->
  map_at 0%Z v (distances (sp_start g s)) = INT_MAX.
Proof.
  intros Hne Hv. simpl. rewrite map_at_insert_other by exact Hne.
  apply sp_init_distance_key, Hv.
Qed.

Lemma sp_walk_empty (fuel : nat) (prev : pmap path path) :
  sp_walk fuel prev path_empty = Some [].
Proof. destruct fuel; simpl; rewrite path_eqb_refl; reflexivity. Qed.

Lemma sp_walk_step (fuel : nat) (prev : pmap path path) (p : path) :
  p <> path_empty ->
  sp_walk (S fuel) prev p =
  match sp_walk fuel prev (map_at path_empty p prev) with
  | Some l => Some (p :: l)
  | None => None
  end.
Proof. intros Hp. apply path_eqb_neq in Hp. simpl. rewrite Hp. reflexivity. Qed.

(** C9, as the code has it: for a vertex [v] of the graph that is not
    the empty path, [shortestPath(v, v)] returns the one-vertex path
    [v], of 0 hops. *)
Theorem shortestPath_self (g : graph path) (v : path) (fuel : nat) :
  In v (map_keys g) ->
  v <> path_empty ->
  shortestPath (S fuel) g v v = Some [v]
  /\ (List.length [v] - 1 = 0)%nat.
Proof.
  intros Hv Hne. split; [|reflexivity].
  rewrite shortestPath_unfold.
  assert (Hin : In v (unvisited (sp_start g v))) by (apply sp_start_unvisited, Hv).
  destruct (unvisited (sp_start g v)) as [|first r] eqn:Hu; [destruct Hin|].
  assert (Hsel : sp_select (distances (sp_start g v)) (unvisited (sp_start g v)) first = v).
  { apply sp_select_least.
    - left. rewrite Hu. exact Hin.
    - intros y Hy Hyv. rewrite sp_start_distance_source.
      rewrite sp_start_distance_other; [reflexivity|exact Hyv|].
      apply (sp_start_unvisited g v).
      destruct Hy as [Hy| ->]; [exact Hy|rewrite Hu; left; reflexivity]. }
  rewrite (sp_loop_stop (S fuel) g Hu Hsel).
  rewrite sp_walk_step by exact Hne.
  rewrite sp_start_previous, sp_walk_empty. reflexivity.
Qed.

(** *** Unreachable destinations *)

Lemma sp_relax_step_edges (g : graph path) (current : path) (l : list path) :
  forall dp,
    (forall n, In n l -> In n (neighbors g current)) ->
    previous_are_edges g (snd dp) ->
    previous_are_edges g (snd (fold_left (sp_relax_step current) l dp)).
Proof.
  induction l as [|n r IH]; intros dp Hl Hdp; simpl; [exact Hdp|].
  apply IH; [intros m Hm; apply Hl; right; exact Hm|].
  unfold sp_relax_step. destruct (_ <? _)%Z; simpl; [|exact Hdp].
  intros m Hm. destruct (path_eq_dec m n) as [-> |Hmn].
  - rewrite map_at_insert_same. apply Hl. left. reflexivity.
  - rewrite map_at_insert_other in Hm |- * by exact Hmn. apply Hdp, Hm.
Qed.

Lemma sp_turn_edges (g : graph path) (current : path) (st : sp_state path) :
  previous_are_edges g (previous st) ->
  previous_are_edges g (previous (sp_turn g current st)).
Proof.
  intros Hst. unfold sp_turn, sp_relax. simpl.
  apply sp_relax_step_edges; auto.
Qed.

Lemma reachable_trans (g : graph path) (a b c : path) :
  reachable g a b -> reachable g b c -> reachable g a c.
Proof.
  intros Hab Hbc. induction Hbc as [|v w _ IH Hvw]; [exact Hab|].
  apply reach_edge with v; assumption.
Qed.

Lemma reachable_edge_first (g : graph path) (a b c : path) :
  In b (neighbors g a) -> reachable g b c -> reachable g a c.
Proof.
  intros Hab Hbc. apply reachable_trans with b; [|exact Hbc].
  apply reach_edge with a; [apply reach_here|exact Hab].
Qed.

(** The walk back from [p] only meets vertices from which [p] can be
    reached, and it starts with [p]. *)
Lemma sp_walk_reaches (g : graph path) (prev : pmap path path) (d : path) :
  previous_are_edges g prev ->
  forall fuel p l,
    reachable g p d ->
    sp_walk fuel prev p = Some l ->
    forall x, In x l -> reachable g x d.
Proof.
  intros Hprev. induction fuel as [|fuel IH]; intros p l Hp Hw x Hx.
  - simpl in Hw. destruct (path_eqb p path_empty); [|discriminate].
    inversion Hw; subst l. destruct Hx.
  - destruct (path_eq_dec p path_empty) as [-> |Hne].
    + rewrite sp_walk_empty in Hw. inversion Hw; subst l. destruct Hx.
    + rewrite sp_walk_step in Hw by exact Hne.
      destruct (sp_walk fuel prev (map_at path_empty p prev)) as [l'|] eqn:Hw';
        [|discriminate].
      inversion Hw; subst l. destruct Hx as [<-|Hx]; [exact Hp|].
      destruct (path_eq_dec (map_at path_empty p prev) path_empty) as [He|He].
      * rewrite He, sp_walk_empty in Hw'. inversion Hw'; subst l'. destruct Hx.
      * apply (IH (map_at path_empty p prev) l'); [|exact Hw'|exact Hx].
        apply reachable_edge_first with p; [apply Hprev, He|exact Hp].
Qed.

Lemma sp_walk_head (fuel : nat) (prev : pmap path path) (d : path) (l : list path) :
  d <> path_empty -> sp_walk fuel prev d = Some l -> exists l', l = d :: l'.
Proof.
  intros Hd Hw. destruct fuel as [|fuel].
  - simpl in Hw. apply path_eqb_neq in Hd. rewrite Hd in Hw. discriminate.
  - rewrite sp_walk_step in Hw by exact Hd.
    destruct (sp_walk fuel prev _) as [l'|]; [|discriminate].
    inversion Hw. exists l'. reflexivity.
Qed.

(** C1, as the code has it.  [shortestPath] has one kind of result, a
    vertex sequence, and nothing in it says "no path".  For a
    destination (not the empty path) that cannot be reached from the
    source: every sequence it returns ends at the destination and does
    not contain the source, so it stops short of the source; and when
    no edge enters the destination it does return, with the destination
    alone.  (Sums that leave the range of [int] on the way are wrapped,
    see [int_add]; a graph without edges has none.) *)
Theorem shortestPath_unreachable (g : graph path) (s d : path) (fuel : nat) :
  ~ reachable g s d ->
  d <> path_empty ->
  (map_size g < fuel)%nat ->
  (forall r, shortestPath fuel g s d = Some r ->
             (exists l, r = l ++ [d]) /\ ~ In s r)
  /\ ((forall v, ~ In d (neighbors g v)) -> shortestPath fuel g s d = Some [d]).
Proof.
  intros Hunreach Hd Hfuel. rewrite shortestPath_unfold. split.
  - destruct (sp_loop_ends g d (fun st => previous_are_edges g (previous st)))
      with (fuel := fuel) (st := sp_start g s) as (st' & Hloop & Hedges).
    + intros st current Hst _. apply sp_turn_edges, Hst.
    + intros n Hn. rewrite sp_start_previous in Hn. congruence.
    + apply sp_start_increasing.
    + pose proof (sp_start_length g s). lia.
    + rewrite Hloop. intros r Hr.
      destruct (sp_walk fuel (previous st') d) as [l|] eqn:Hw; [|discriminate].
      inversion Hr; subst r. split.
      * destruct (sp_walk_head _ _ _ _ Hd Hw) as [l' ->]. exists (rev l'). reflexivity.
      * intros Hin. apply in_rev in Hin. apply Hunreach.
        apply (sp_walk_reaches g (previous st') d Hedges fuel d l (reach_here g d) Hw s Hin).
  - intros Hnone.
    destruct (sp_loop_ends g d (fun st => map_at path_empty d (previous st) = path_empty))
      with (fuel := fuel) (st := sp_start g s) as (st' & Hloop & Hprev).
    + intros st current Hst _. unfold sp_turn, sp_relax. simpl.
      rewrite sp_relax_previous_other by apply Hnone. exact Hst.
    + apply sp_start_previous.
    + apply sp_start_increasing.
    + pose proof (sp_start_length g s). lia.
    + rewrite Hloop. destruct fuel as [|fuel]; [lia|].
      rewrite sp_walk_step by exact Hd. rewrite Hprev, sp_walk_empty. reflexivity.
Qed.

End ShortestPathClaims.

(* ================================================================== *)
(** ** Shortest Path Engine: running the loop on functions *)

Section ShortestPathViews.
Context {path : Type} `{PathOrder path}.

Lemma upd_same {V} (f : path -> V) (k : path) (v : V) : upd f k v k = v.
Proof. unfold upd. destruct (path_eq_dec k k); congruence. Qed.

Lemma upd_other {V} (f : path -> V) (k x : path) (v : V) :
  x <> k -> upd f k v x = f x.
Proof. intros Hne. unfold upd. destruct (path_eq_dec x k); congruence. Qed.

Lemma map_keys_insert {V} (k x : path) (v : V) (m : pmap path V) :
  In x (map_keys (map_insert k v m)) <-> x = k \/ In x (map_keys m).
Proof.
  unfold map_keys. induction m as [|[k' v'] r IH]; simpl.
  - intuition.
  - destruct (path_compare_cases k k') as [_ _ _| -> |_ _ _]; simpl.
    + intuition.
    + intuition.
    + rewrite IH. intuition.
Qed.

Lemma map_keys_addVertex (p x : path) (g : graph path) :
  In x (map_keys (addVertex p g)) <-> x = p \/ In x (map_keys g).
Proof.
  unfold addVertex. destruct (map_count p g) eqn:E; simpl.
  - split; [tauto|]. intros [->|Hx]; [|exact Hx]. apply map_count_In, E.
  - apply map_keys_insert.
Qed.

Lemma map_keys_addEdge (a b x : path) (g : graph path) :
  In x (map_keys (addEdge a b g)) <-> x = a \/ x = b \/ In x (map_keys g).
Proof.
  unfold addEdge. rewrite map_keys_insert, !map_keys_addVertex. tauto.
Qed.

(** The containers at the start of the main loop. *)
Lemma sp_start_view (g : graph path) (s : path) :
  sp_view (sp_start g s) (fun v => In v (map_keys g))
          (start_distance g s) (fun _ => path_empty).
Proof.
  split; [apply sp_start_increasing|].
  split; [intros v; apply sp_start_unvisited|].
  split; [|intros v; apply sp_start_previous].
  intros v. unfold start_distance, upd.
  destruct (path_eq_dec v s) as [->|Hne]; [apply sp_start_distance_source|].
  destruct (in_dec path_eq_dec v (map_keys g)) as [Hin|Hout].
  - apply sp_start_distance_other; assumption.
  - simpl. rewrite map_at_insert_other by exact Hne.
    unfold sp_init. rewrite sp_init_distance_other by exact Hout. reflexivity.
Qed.

(** The relaxation loop on the maps does what [relax_fun] does on the
    functions they stand for. *)
Lemma sp_relax_view (current : path) (l : list path) :
  forall dp DP,
    (forall v, map_at 0%Z v (fst dp) = fst DP v) ->
    (forall v, map_at path_empty v (snd dp) = snd DP v) ->
    (forall v, map_at 0%Z v (fst (fold_left (sp_relax_step current) l dp))
               = fst (fold_left (relax_fun current) l DP) v)
    /\ (forall v, map_at path_empty v (snd (fold_left (sp_relax_step current) l dp))
                  = snd (fold_left (relax_fun current) l DP) v).
Proof.
  induction l as [|n r IH]; intros dp DP HD HP; simpl; [split; assumption|].
  apply IH; unfold sp_relax_step, relax_fun; rewrite !HD;
    destruct (_ <? _)%Z; simpl; auto; intros v; unfold upd;
    (destruct (path_eq_dec v n) as [->|Hne];
     [apply map_at_insert_same|rewrite map_at_insert_other by exact Hne; auto]).
Qed.

Lemma sp_turn_view (g : graph path) (current : path) [st : sp_state path]
      [U : path -> Prop] [D : path -> Z] [P : path -> path] :
  sp_view st U D P ->
  sp_view (sp_turn g current st)
          (fun v => U v /\ v <> current)
          (fst (fold_left (relax_fun current) (neighbors g current) (D, P)))
          (snd (fold_left (relax_fun current) (neighbors g current) (D, P))).
Proof.
  intros (Hinc & HU & HD & HP).
  destruct (sp_relax_view current (neighbors g current)
                          (distances st, previous st) (D, P) HD HP) as [HD' HP'].
  split; [apply set_erase_increasing, Hinc|].
  split; [|split; [exact HD'|exact HP']].
  intros v. simpl. rewrite (set_erase_In _ _ _ Hinc), HU. tauto.
Qed.

Lemma sp_view_select [st : sp_state path]
      [U : path -> Prop] [D : path -> Z] [P : path -> path] [s : path] :
  sp_view st U D P ->
  U s ->
  (forall y, U y -> y <> s -> (D s < D y)%Z) ->
  exists first r,
    unvisited st = first :: r
    /\ sp_select (distances st) (unvisited st) first = s.
Proof.
  intros (Hinc & HU & HD & HP) Hs Hmin.
  assert (Hin : In s (unvisited st)) by (apply HU, Hs).
  destruct (unvisited st) as [|first r] eqn:Hu; [destruct Hin|].
  exists first, r. split; [reflexivity|].
  apply sp_select_least; [left; exact Hin|].
  intros y Hy Hne. rewrite !HD. apply Hmin; [|exact Hne].
  apply HU. destruct Hy as [Hy| ->]; [exact Hy|left; reflexivity].
Qed.

(** A turn of the main loop, when the vertex of least distance is known
    and is not the destination. *)
Lemma sp_loop_view_turn (fuel : nat) (g : graph path) (d : path) [st : sp_state path]
      [U : path -> Prop] [D : path -> Z] [P : path -> path] [current : path] :
  sp_view st U D P ->
  U current ->
  (forall y, U y -> y <> current -> (D current < D y)%Z) ->
  current <> d ->
  sp_loop (S fuel) g d st = sp_loop fuel g d (sp_turn g current st).
Proof.
  intros Hview Hcur Hmin Hne.
  destruct (sp_view_select Hview Hcur Hmin) as (first & r & Hu & Hsel).
  apply (sp_loop_turn fuel g Hu Hsel Hne).
Qed.

(** The end of the main loop, when the vertex of least distance is the
    destination. *)
Lemma sp_loop_view_stop (fuel : nat) (g : graph path) [d : path] [st : sp_state path]
      [U : path -> Prop] [D : path -> Z] [P : path -> path] :
  sp_view st U D P ->
  U d ->
  (forall y, U y -> y <> d -> (D d < D y)%Z) ->
  sp_loop fuel g d st = Some st.
Proof.
  intros Hview Hd Hmin.
  destruct (sp_view_select Hview Hd Hmin) as (first & r & Hu & Hsel).
  apply (sp_loop_stop fuel g Hu Hsel).
Qed.

End ShortestPathViews.

Section ShortestPathChain.
Context {path : Type} `{PathOrder path}.

Lemma relax_fun_update (current n : path) (D : path -> Z) (P : path -> path) [alt : Z] :
  int_add (D current) 1 = alt ->
  (alt < D n)%Z ->
  fold_left (relax_fun current) [n] (D, P) = (upd D n alt, upd P n current).
Proof.
  intros Halt Hlt. simpl. unfold relax_fun. simpl. rewrite Halt.
  apply Z.ltb_lt in Hlt. rewrite Hlt. reflexivity.
Qed.

Lemma chain_graph_keys (a b c d v : path) :
  In v (map_keys (chain_graph a b c d)) <-> In v [a; b; c; d].
Proof.
  unfold chain_graph. rewrite !map_keys_addEdge. unfold empty_graph, map_keys. simpl.
  intuition congruence.
Qed.

Lemma chain_graph_neighbors [a b c d : path] :
  NoDup [a; b; c; d] ->
  neighbors (chain_graph a b c d) a = [b]
  /\ neighbors (chain_graph a b c d) b = [c]
  /\ neighbors (chain_graph a b c d) c = [d]
  /\ neighbors (chain_graph a b c d) d = [].
Proof.
  intros Hnd. unfold chain_graph.
  inversion Hnd as [|? ? Ha Hnd1]; subst. inversion Hnd1 as [|? ? Hb Hnd2]; subst.
  inversion Hnd2 as [|? ? Hc _]; subst. simpl in Ha, Hb, Hc.
  assert (a <> b /\ a <> c /\ a <> d /\ b <> c /\ b <> d /\ c <> d)
    as (Hab & Hac & Had & Hbc & Hbd & Hcd) by (repeat split; intros Heq; subst; intuition).
  repeat split.
  - rewrite 2 addEdge_neighbors_other by assumption.
    rewrite addEdge_neighbors_source. reflexivity.
  - rewrite addEdge_neighbors_other by assumption.
    rewrite addEdge_neighbors_source.
    rewrite addEdge_neighbors_other by congruence. reflexivity.
  - rewrite addEdge_neighbors_source.
    rewrite 2 addEdge_neighbors_other by congruence. reflexivity.
  - rewrite 3 addEdge_neighbors_other by congruence. reflexivity.
Qed.

(** C4: on the chain with the edges a -> b, b -> c, c -> d and no other,
    for four distinct vertices none of which is the empty path and in
    whatever order the map keeps them, [shortestPath(a, d)] returns the
    four vertices a, b, c, d, which is three hops. *)
Theorem shortestPath_chain (a b c d : path) (k : nat) :
  NoDup [a; b; c; d] ->
  ~ In path_empty [a; b; c; d] ->
  shortestPath (4 + k) (chain_graph a b c d) a d = Some [a; b; c; d]
  /\ List.length [a; b; c; d] = 4%nat
  /\ (List.length [a; b; c; d] - 1 = 3)%nat.
Proof.
  intros Hnd Hne. split; [|split; reflexivity].
  destruct (chain_graph_neighbors Hnd) as (Na & Nb & Nc & _).
  inversion Hnd as [|? ? Ha Hnd1]; subst. inversion Hnd1 as [|? ? Hb Hnd2]; subst.
  inversion Hnd2 as [|? ? Hc _]; subst. simpl in Ha, Hb, Hc, Hne.
  assert (a <> b /\ a <> c /\ a <> d /\ b <> c /\ b <> d /\ c <> d)
    as (Hab & Hac & Had & Hbc & Hbd & Hcd) by (repeat split; intros Heq; subst; intuition).
  assert (a <> path_empty /\ b <> path_empty /\ c <> path_empty /\ d <> path_empty)
    as (Hea & Heb & Hec & Hed) by (repeat split; intros Heq; symmetry in Heq; intuition).
  set (g := chain_graph a b c d) in *.
  set (D0 := start_distance g a).
  set (P0 := fun _ : path => path_empty).
  assert (V0 : sp_view (sp_start g a) (fun v => In v (map_keys g)) D0 P0)
    by apply sp_start_view.
  assert (HD0a : D0 a = 0%Z) by apply upd_same.
  assert (HD0 : forall v, In v [b; c; d] -> D0 v = INT_MAX).
  { intros v Hv. unfold D0, start_distance.
    rewrite upd_other by (intros ->; simpl in Hv; intuition congruence).
    destruct (in_dec path_eq_dec v (map_keys g)) as [_|Hout]; [reflexivity|].
    exfalso. apply Hout. apply chain_graph_keys. right. exact Hv. }
  assert (Hkeys : forall v, In v (map_keys g) -> v = a \/ v = b \/ v = c \/ v = d).
  { intros v Hv. apply chain_graph_keys in Hv. simpl in Hv. intuition. }
  (* first turn: a is taken, b gets distance 1 *)
  set (D1 := upd D0 b 1%Z). set (P1 := upd P0 b a).
  pose proof (sp_turn_view g a V0) as V1. rewrite Na in V1.
  rewrite (relax_fun_update a b D0 P0 (alt := 1%Z)) in V1;
    [|rewrite HD0a; reflexivity|rewrite HD0 by (simpl; tauto); reflexivity].
  simpl fst in V1. simpl snd in V1. fold D1 P1 in V1.
  (* second turn: b is taken, c gets distance 2 *)
  set (D2 := upd D1 c 2%Z). set (P2 := upd P1 c b).
  assert (HD1b : D1 b = 1%Z) by apply upd_same.
  assert (HD1 : forall v, In v [c; d] -> D1 v = INT_MAX).
  { intros v Hv. unfold D1. rewrite upd_other by (intros ->; simpl in Hv; intuition congruence).
    apply HD0. right. exact Hv. }
  pose proof (sp_turn_view g b V1) as V2. rewrite Nb in V2.
  rewrite (relax_fun_update b c D1 P1 (alt := 2%Z)) in V2;
    [|rewrite HD1b; reflexivity|rewrite HD1 by (simpl; tauto); reflexivity].
  simpl fst in V2. simpl snd in V2. fold D2 P2 in V2.
  (* third turn: c is taken, d gets distance 3 *)
  set (D3 := upd D2 d 3%Z). set (P3 := upd P2 d c).
  assert (HD2c : D2 c = 2%Z) by apply upd_same.
  assert (HD2d : D2 d = INT_MAX).
  { unfold D2. rewrite upd_other by congruence. apply HD1. simpl. tauto. }
  pose proof (sp_turn_view g c V2) as V3. rewrite Nc in V3.
  rewrite (relax_fun_update c d D2 P2 (alt := 3%Z)) in V3;
    [|rewrite HD2c; reflexivity|rewrite HD2d; reflexivity].
  simpl fst in V3. simpl snd in V3. fold D3 P3 in V3.
  (* the loop *)
  unfold shortestPath. simpl Nat.add.
  rewrite (sp_loop_view_turn (S (S (S k))) g d V0 (current := a)); [| | |exact Had].
  2: { apply chain_graph_keys. simpl. tauto. }
  2: { intros y Hy Hya. rewrite HD0a.
       destruct (Hkeys y Hy) as [->|Hy']; [congruence|].
       rewrite HD0 by (simpl; intuition). reflexivity. }
  rewrite (sp_loop_view_turn (S (S k)) g d V1 (current := b)); [| | |exact Hbd].
  2: { split; [apply chain_graph_keys; simpl; tauto|congruence]. }
  2: { intros y [Hy Hya] Hyb. rewrite HD1b.
       destruct (Hkeys y Hy) as [->|[->|Hy']]; [congruence|congruence|].
       rewrite HD1 by (simpl; intuition). reflexivity. }
  rewrite (sp_loop_view_turn (S k) g d V2 (current := c)); [| | |exact Hcd].
  2: { repeat split; [apply chain_graph_keys; simpl; tauto|congruence|congruence]. }
  2: { intros y [[Hy Hya] Hyb] Hyc. rewrite HD2c.
       destruct (Hkeys y Hy) as [->|[->|[->| ->]]]; try congruence.
       rewrite HD2d. reflexivity. }
  rewrite (sp_loop_view_stop (S k) g V3).
  2: { repeat split; [apply chain_graph_keys; simpl; tauto|congruence..]. }
  2: { intros y [[[Hy Hya] Hyb] Hyc] Hyd.
       destruct (Hkeys y Hy) as [->|[->|[->| ->]]]; congruence. }
  (* the walk back *)
  destruct V3 as (_ & _ & _ & HP3).
  assert (Hpd : map_at path_empty d (previous (sp_turn g c (sp_turn g b (sp_turn g a (sp_start g a))))) = c)
    by (rewrite HP3; apply upd_same).
  assert (Hpc : map_at path_empty c (previous (sp_turn g c (sp_turn g b (sp_turn g a (sp_start g a))))) = b).
  { rewrite HP3. unfold P3. rewrite upd_other by congruence. apply upd_same. }
  assert (Hpb : map_at path_empty b (previous (sp_turn g c (sp_turn g b (sp_turn g a (sp_start g a))))) = a).
  { rewrite HP3. unfold P3, P2. rewrite 2 upd_other by congruence. apply upd_same. }
  assert (Hpa : map_at path_empty a (previous (sp_turn g c (sp_turn g b (sp_turn g a (sp_start g a))))) = path_empty).
  { rewrite HP3. unfold P3, P2, P1. rewrite 3 upd_other by congruence. reflexivity. }
  rewrite sp_walk_step by exact Hed. rewrite Hpd.
  rewrite sp_walk_step by exact Hec. rewrite Hpc.
  rewrite sp_walk_step by exact Heb. rewrite Hpb.
  rewrite sp_walk_step by exact Hea. rewrite Hpa.
  rewrite sp_walk_empty. reflexivity.
Qed.

End ShortestPathChain.

(* ================================================================== *)
(** ** The graphs that the class can hold *)

Section GraphInvariants.
Context {path : Type} `{PathOrder path}.

Lemma map_keys_insert_set {V} (k : path) (v : V) (m : pmap path V) :
  map_keys (map_insert k v m) = set_insert k (map_keys m).
Proof.
  unfold map_keys. induction m as [|[k' v'] r IH]; simpl; [reflexivity|].
  destruct (path_compare_cases k k') as [_ _ _| -> |_ _ _]; simpl.
  - reflexivity.
  - reflexivity.
  - rewrite IH. reflexivity.
Qed.

(** With the keys in increasing order, [count] finds exactly the keys
    that the iteration meets. *)
Lemma map_count_keys {V} (k : path) (m : pmap path V) :
  increasing (map_keys m) -> (map_count k m = true <-> In k (map_keys m)).
Proof.
  intros Hinc. split; [apply map_count_In|].
  unfold map_count, map_keys in *.
  induction m as [|[k' v'] r IH]; simpl; [tauto|].
  intros [->|Hin].
  - rewrite path_compare_refl. reflexivity.
  - simpl in Hinc. pose proof (increasing_head Hinc Hin) as Hlt.
    rewrite (path_compare_lt _ _ Hlt).
    apply IH; [apply (increasing_tail Hinc)|exact Hin].
Qed.

Lemma well_formed_empty : well_formed (@empty_graph path).
Proof. split; [exact I|]. intros v x []. Qed.

Lemma well_formed_addVertex (p : path) [g : graph path] :
  well_formed g -> well_formed (addVertex p g).
Proof.
  intros [Hinc Hclosed]. split.
  - unfold addVertex. destruct (map_count p g); simpl; [exact Hinc|].
    rewrite map_keys_insert_set. apply set_insert_increasing, Hinc.
  - intros v x. rewrite addVertex_neighbors. intros Hx.
    apply addVertex_count_mono, (Hclosed v x Hx).
Qed.

Lemma well_formed_addEdge (a b : path) (g : graph path) :
  well_formed g -> well_formed (addEdge a b g).
Proof.
  intros Hwf.
  pose proof (well_formed_addVertex b (well_formed_addVertex a Hwf)) as [Hinc _].
  destruct Hwf as [_ Hclosed]. split.
  - unfold addEdge. rewrite map_keys_insert_set. apply set_insert_increasing, Hinc.
  - intros v x Hx. destruct (path_eq_dec v a) as [->|Hne].
    + rewrite addEdge_neighbors_source in Hx. apply in_app_or in Hx.
      destruct Hx as [Hx|[<-|[]]].
      * apply addEdge_count_mono, (Hclosed a x Hx).
      * apply addEdge_count_destination.
    + rewrite addEdge_neighbors_other in Hx by exact Hne.
      apply addEdge_count_mono, (Hclosed v x Hx).
Qed.

Lemma well_formed_build_entries build (root : path) (ending : completion path)
      (es : list (path * node path)) :
  Forall (fun e => forall p b, well_formed (adjList b) ->
                               well_formed (adjList (fst (build p (snd e) b)))) es ->
  forall b, well_formed (adjList b) ->
            well_formed (adjList (fst (build_entries build root ending es b))).
Proof.
  induction 1 as [|[p c] rest Hc _ IH]; intros b Hwf; simpl; [exact Hwf|].
  assert (H1 : well_formed (addEdge root p (adjList b))) by apply well_formed_addEdge, Hwf.
  destruct (fs_is_directory p c) as [[|]|e]; try (apply IH; exact H1).
  simpl in Hc.
  specialize (Hc p (mkBuilder (addEdge root p (adjList b)) (cerr b)) H1).
  destruct (build p c _) as [b2 [|e]]; apply IH; exact Hc.
Qed.

(** [buildGraph] keeps the graph in that shape, however it ends. *)
Lemma well_formed_buildGraph (n : node path) :
  forall root b, well_formed (adjList b) ->
                 well_formed (adjList (fst (buildGraph root n b))).
Proof.
  induction n as [| | | |es IH|es IH] using node_induction; intros root b Hwf; simpl;
    try exact Hwf; apply well_formed_build_entries; assumption.
Qed.

End GraphInvariants.

(* ================================================================== *)
(** ** Minimum Spanning Tree Engine: [minSpanTree] *)

Section MinSpanTreeFacts.
Context {path : Type} `{PathOrder path}.

Lemma map_insert_twice {V} (k : path) (v v' : V) (m : pmap path V) :
  map_insert k v (map_insert k v' m) = map_insert k v m.
Proof.
  induction m as [|[k' w] r IH]; simpl.
  - rewrite path_compare_refl. reflexivity.
  - destruct (path_compare k k') eqn:E; simpl.
    + rewrite path_compare_refl. reflexivity.
    + rewrite path_compare_refl. reflexivity.
    + rewrite E, IH. reflexivity.
Qed.

Lemma pq_push_In (x y : Z * path) (q : list (Z * path)) :
  In x (pq_push y q) <-> x = y \/ In x q.
Proof.
  induction q as [|z r IH]; simpl.
  - intuition.
  - destruct (pair_ltb z y); simpl; [rewrite IH|]; intuition.
Qed.

Lemma pq_push_length (y : Z * path) (q : list (Z * path)) :
  List.length (pq_push y q) = S (List.length q).
Proof.
  induction q as [|z r IH]; simpl; [reflexivity|].
  destruct (pair_ltb z y); simpl; [rewrite IH|]; reflexivity.
Qed.

(** More fuel does not change a result. *)
Lemma mst_loop_more_fuel (g : graph path) (k : nat) :
  forall fuel st t,
    mst_loop fuel g st = Some t -> mst_loop (fuel + k) g st = Some t.
Proof.
  induction fuel as [|fuel IH]; intros st t.
  - simpl. destruct (pq st) as [|[w c] rest] eqn:Hq; [|discriminate].
    intros Ht. destruct k; simpl; rewrite Hq; exact Ht.
  - simpl. destruct (pq st) as [|[w c] rest]; [auto|].
    destruct (set_count c (visited st)); apply IH.
Qed.

(** Once every queued vertex has no neighbours the tree is final. *)
Lemma mst_loop_drain (g : graph path) :
  forall fuel st,
    (forall x, In x (pq st) -> neighbors g (snd x) = []) ->
    (List.length (pq st) <= fuel)%nat ->
    mst_loop fuel g st = Some (tree st).
Proof.
  induction fuel as [|fuel IH]; intros st Hleaf Hlen.
  - simpl. destruct (pq st); [reflexivity|simpl in Hlen; lia].
  - simpl. destruct (pq st) as [|[w c] rest] eqn:Hq; [reflexivity|].
    simpl in Hlen.
    destruct (set_count c (visited st)).
    + rewrite IH; simpl; [reflexivity| |lia].
      intros x Hx. apply Hleaf. right. exact Hx.
    + unfold mst_scan.
      pose proof (Hleaf (w, c) (or_introl eq_refl)) as Hc. simpl in Hc.
      rewrite Hc. simpl.
      rewrite IH; simpl; [reflexivity| |lia].
      intros x Hx. apply Hleaf. right. exact Hx.
Qed.

(** The scan of the root of a star: no child is the root, so each one
    is recorded under the root and queued. *)
Lemma mst_scan_root (root : path) (l : list path) :
  ~ In root l ->
  forall t q,
    let tq := fold_left (mst_scan_step root (set_insert root [])) l (t, q) in
    fst tq = match l with
             | [] => t
             | _ :: _ => map_insert root (map_at [] root t ++ l) t
             end
    /\ List.length (snd tq) = (List.length q + List.length l)%nat
    /\ (forall x, In x (snd tq) -> In x q \/ In (snd x) l).
Proof.
  induction l as [|c r IH]; intros Hroot t q; simpl.
  - repeat split; auto.
  - assert (Hc : set_count c [root] = false).
    { simpl. destruct (path_compare_cases c root) as [_ _ _|Heq|_ _ _];
        try reflexivity. subst c. exfalso. apply Hroot. left. reflexivity. }
    assert (Hstep : mst_scan_step root [root] (t, q) c
                    = (map_insert root (map_at [] root t ++ [c]) t, pq_push (1%Z, c) q)).
    { unfold mst_scan_step. rewrite Hc. reflexivity. }
    simpl set_insert. rewrite !Hstep.
    destruct (IH (fun Hin => Hroot (or_intror Hin))
                 (map_insert root (map_at [] root t ++ [c]) t)
                 (pq_push (1%Z, c) q)) as (Ht & Hlen & Hq).
    simpl set_insert in Ht, Hlen, Hq.
    split; [|split].
    + rewrite Ht. destruct r as [|c' r']; [reflexivity|].
      rewrite map_at_insert_same, map_insert_twice, <- app_assoc. reflexivity.
    + rewrite Hlen, pq_push_length. lia.
    + intros x Hx. destruct (Hq x Hx) as [Hin|Hin]; [|tauto].
      apply pq_push_In in Hin. destruct Hin as [->|Hin]; [right; left; reflexivity|tauto].
Qed.

Lemma star_neighbors_root (root : path) (children : list path) (leaves : graph path) :
  neighbors (star_graph root children leaves) root = children.
Proof.
  unfold neighbors, map_at, star_graph. simpl. rewrite path_compare_refl. reflexivity.
Qed.

Lemma star_neighbors_leaf (root : path) (children : list path) (leaves : graph path)
      (c : path) :
  Forall (fun e => snd e = []) leaves ->
  c <> root ->
  neighbors (star_graph root children leaves) c = [].
Proof.
  intros Hleaves Hc. unfold neighbors, map_at, star_graph. simpl.
  destruct (path_compare_cases c root) as [_ _ _|Heq|_ _ _]; [reflexivity|congruence|].
  destruct (map_find c leaves) as [ns|] eqn:E; [|reflexivity].
  apply map_find_In in E. rewrite Forall_forall in Hleaves.
  apply (Hleaves (c, ns) E).
Qed.

Lemma minSpanTree_star_graph
      (root : path) (children : list path) (leaves : graph path) (fuel : nat) :
  ~ In root children ->
  Forall (fun e => snd e = []) leaves ->
  (List.length children < fuel)%nat ->
  minSpanTree fuel (star_graph root children leaves)
  = Returns (match children with [] => [] | _ :: _ => [(root, children)] end).
Proof.
  intros Hroot Hleaves Hfuel.
  destruct fuel as [|fuel]; [lia|].
  unfold minSpanTree, star_graph. fold (star_graph root children leaves).
  simpl mst_loop. unfold mst_scan. rewrite star_neighbors_root.
  destruct (mst_scan_root root children Hroot [] []) as (Ht & Hlen & Hq).
  cbv zeta in Ht, Hlen, Hq. simpl set_insert in Ht, Hlen, Hq |- *.
  rewrite mst_loop_drain.
  - simpl tree. rewrite Ht. destruct children; reflexivity.
  - simpl pq. intros x Hx. apply star_neighbors_leaf; [exact Hleaves|].
    destruct (Hq x Hx) as [[]|Hin]. intros Heq. rewrite Heq in Hin. contradiction.
  - simpl pq. rewrite Hlen. simpl. lia.
Qed.

Lemma map_insert_no_neighbors (c : path) (m : graph path) :
  Forall (fun e => snd e = []) m ->
  Forall (fun e => snd e = []) (map_insert c [] m).
Proof.
  induction 1 as [|[k ns] r Hk Hr IH]; simpl.
  - repeat constructor.
  - destruct (path_compare c k); repeat constructor; auto.
Qed.

(** Adding one more child to a star keeps it a star. *)
Lemma star_graph_addEdge (root c : path) (children : list path) (leaves : graph path) :
  Forall (fun e => snd e = []) leaves ->
  path_compare root c = Lt ->
  exists leaves',
    addEdge root c (star_graph root children leaves)
    = star_graph root (children ++ [c]) leaves'
    /\ Forall (fun e => snd e = []) leaves'.
Proof.
  intros Hleaves Hlt. pose proof (path_compare_lt _ _ Hlt) as Hgt.
  assert (Hroot : map_count root (star_graph root children leaves) = true).
  { unfold map_count, star_graph. simpl. rewrite path_compare_refl. reflexivity. }
  unfold addEdge. rewrite (addVertex_present _ _ Hroot).
  assert (Hc : exists leaves',
             addVertex c (star_graph root children leaves) = star_graph root children leaves'
             /\ Forall (fun e => snd e = []) leaves').
  { unfold addVertex. destruct (map_count c (star_graph root children leaves)); simpl.
    - exists leaves. split; [reflexivity|exact Hleaves].
    - rewrite Hgt. exists (map_insert c [] leaves). split; [reflexivity|].
      apply map_insert_no_neighbors, Hleaves. }
  destruct Hc as (leaves' & -> & Hleaves').
  exists leaves'. split; [|exact Hleaves'].
  unfold star_graph, map_at. simpl. rewrite path_compare_refl. reflexivity.
Qed.

Lemma star_graph_fold (root : path) (children : list path) :
  Forall (fun c => path_compare root c = Lt) children ->
  forall done leaves,
    Forall (fun e => snd e = []) leaves ->
    exists leaves',
      fold_left (fun g c => addEdge root c g) children (star_graph root done leaves)
      = star_graph root (done ++ children) leaves'
      /\ Forall (fun e => snd e = []) leaves'.
Proof.
  induction 1 as [|c r Hc _ IH]; intros done leaves Hleaves; simpl.
  - exists leaves. rewrite app_nil_r. split; [reflexivity|exact Hleaves].
  - destruct (star_graph_addEdge root c done leaves Hleaves Hc) as (leaves' & -> & Hleaves').
    destruct (IH (done ++ [c]) leaves' Hleaves') as (leaves'' & Heq & Hl'').
    exists leaves''. rewrite Heq, <- app_assoc. split; [reflexivity|exact Hl''].
Qed.

(** The graph that [addEdge] builds for a root that precedes its children
    in key order has the root's entry first. *)
Lemma star_of_star_graph [root : path] [children : list path] :
  Forall (fun c => path_compare root c = Lt) children ->
  exists leaves,
    star_of root children = star_graph root children leaves
    /\ Forall (fun e => snd e = []) leaves.
Proof.
  intros Hlt.
  apply (star_graph_fold root children Hlt [] []). constructor.
Qed.

(** C3, as the code has it: for the star built from a root and its
    children, where the root precedes every child in key order and so is
    the first key of [adjList], [minSpanTree] returns the tree in which
    the root has exactly the children it has in the graph (all N of them,
    in the same order) and no other vertex has any child. *)
Theorem minSpanTree_star_rooted_at_first_key
        (root : path) (children : list path) (fuel : nat) :
  Forall (fun c => path_compare root c = Lt) children ->
  (List.length children < fuel)%nat ->
  exists t,
    minSpanTree fuel (star_of root children) = Returns t
    /\ map_at [] root t = children
    /\ List.length (map_at [] root t) = List.length children
    /\ forall p, p <> root -> map_at [] p t = [].
Proof.
  intros Hlt Hfuel.
  destruct (star_of_star_graph Hlt) as (leaves & -> & Hleaves).
  assert (Hroot : ~ In root children).
  { intros Hin. rewrite Forall_forall in Hlt. specialize (Hlt root Hin).
    rewrite path_compare_refl in Hlt. discriminate. }
  rewrite (minSpanTree_star_graph root children leaves fuel Hroot Hleaves Hfuel).
  set (t := match children with [] => [] | _ :: _ => [(root, children)] end).
  exists t. split; [reflexivity|].
  assert (Hat : map_at [] root t = children).
  { subst t. destruct children; [reflexivity|].
    unfold map_at. simpl. rewrite path_compare_refl. reflexivity. }
  split; [exact Hat|]. split; [rewrite Hat; reflexivity|].
  intros p Hp. subst t. destruct children; [reflexivity|].
  unfold map_at. simpl.
  destruct (path_compare_cases p root); [reflexivity|congruence|reflexivity].
Qed.

(** *** [minSpanTree] returns *)

Lemma set_count_iff (k : path) (s : pset path) :
  increasing s -> (set_count k s = true <-> In k s).
Proof.
  intros Hinc. split; [apply set_count_In|].
  induction s as [|k' r IH]; simpl; [tauto|].
  intros [->|Hin].
  - rewrite path_compare_refl. reflexivity.
  - pose proof (increasing_head Hinc Hin) as Hlt.
    rewrite (path_compare_lt _ _ Hlt).
    apply IH; [apply (increasing_tail Hinc)|exact Hin].
Qed.

Lemma set_count_insert_mono (c k : path) (s : pset path) :
  increasing s -> set_count k s = true -> set_count k (set_insert c s) = true.
Proof.
  intros Hinc Hk. apply set_count_iff; [apply set_insert_increasing, Hinc|].
  apply set_insert_In. right. apply set_count_iff; assumption.
Qed.

(** Visiting a vertex takes its edges out of the pending ones. *)
Lemma pending_edges_visit (g : graph path) (c : path) (v : pset path) :
  increasing v ->
  set_count c v = false ->
  (pending_edges g (set_insert c v) + List.length (neighbors g c)
   <= pending_edges g v)%nat.
Proof.
  intros Hinc Hc. unfold pending_edges, neighbors, map_at.
  induction g as [|[k ns] r IH]; simpl; [lia|].
  assert (Hhead : ((if set_count k (set_insert c v) then 0 else List.length ns)
                   <= (if set_count k v then 0 else List.length ns))%nat).
  { destruct (set_count k v) eqn:Ek.
    - rewrite (set_count_insert_mono c k v Hinc Ek). lia.
    - destruct (set_count k (set_insert c v)); lia. }
  assert (Hrest : (list_sum (map (fun e : path * list path =>
                                    if set_count (fst e) (set_insert c v)
                                    then 0%nat else List.length (snd e)) r)
                   <= list_sum (map (fun e : path * list path =>
                                       if set_count (fst e) v
                                       then 0%nat else List.length (snd e)) r))%nat).
  { clear IH. induction r as [|[k' ns'] r' IHr]; simpl; [lia|].
    destruct (set_count k' v) eqn:Ek'.
    - rewrite (set_count_insert_mono c k' v Hinc Ek'). lia.
    - destruct (set_count k' (set_insert c v)); lia. }
  destruct (path_compare_cases c k) as [_ _ _|Heq|_ _ _].
  - simpl. lia.
  - subst k. rewrite set_count_insert_same, Hc. lia.
  - lia.
Qed.

Lemma mst_scan_length (g : graph path) (c : path) (v : pset path) :
  forall l tq,
    (List.length (snd (fold_left (mst_scan_step c v) l tq))
     <= List.length (snd tq) + List.length l)%nat.
Proof.
  induction l as [|n r IH]; intros tq; simpl; [lia|].
  specialize (IH (mst_scan_step c v tq n)).
  assert (List.length (snd (mst_scan_step c v tq n)) <= S (List.length (snd tq)))%nat.
  { unfold mst_scan_step. destruct (negb _); simpl; [rewrite pq_push_length|]; lia. }
  lia.
Qed.

(** Every turn of the loop takes one pair from the queue and pushes at
    most the pending edges of the vertex it visits, so the loop ends. *)
Lemma mst_loop_ends (g : graph path) :
  forall fuel st,
    increasing (visited st) ->
    (List.length (pq st) + pending_edges g (visited st) <= fuel)%nat ->
    exists t, mst_loop fuel g st = Some t.
Proof.
  induction fuel as [|fuel IH]; intros st Hinc Hfuel.
  - destruct (pq st) as [|x rest] eqn:Hq; [|simpl in Hfuel; lia].
    exists (tree st). simpl. rewrite Hq. reflexivity.
  - simpl. destruct (pq st) as [|[w c] rest] eqn:Hq; [eexists; reflexivity|].
    simpl in Hfuel. destruct (set_count c (visited st)) eqn:Hc.
    + apply IH; simpl; [exact Hinc|lia].
    + apply IH; simpl.
      * apply set_insert_increasing, Hinc.
      * pose proof (pending_edges_visit g c (visited st) Hinc Hc) as Hp.
        pose proof (mst_scan_length g c (set_insert c (visited st))
                                    (neighbors g c) (tree st, rest)) as Hl.
        unfold mst_scan. simpl in Hl. lia.
Qed.

(** On a graph that is not empty [minSpanTree] returns a tree, as soon
    as the fuel exceeds the number of edges. *)
Lemma minSpanTree_returns (g : graph path) (fuel : nat) :
  g <> [] ->
  (pending_edges g [] < fuel)%nat ->
  exists t, minSpanTree fuel g = Returns t.
Proof.
  intros Hg Hfuel. unfold minSpanTree. destruct g as [|[start ns] g']; [congruence|].
  destruct (mst_loop_ends ((start, ns) :: g') fuel (mkMst [] [] [(0%Z, start)]))
    as [t Ht].
  - exact I.
  - simpl pq. simpl visited. simpl List.length. lia.
  - rewrite Ht. exists t. reflexivity.
Qed.


(** C2: on the empty graph [minSpanTree] dereferences
    [adjList.begin()], which is [adjList.end()]: no "empty graph"
    condition is raised, for any amount of fuel. *)
Theorem minSpanTree_empty_graph (fuel : nat) :
  minSpanTree fuel (@empty_graph path) = UndefinedBehaviour.
Proof. reflexivity. Qed.

End MinSpanTreeFacts.

(* ================================================================== *)
(** ** The claims on concrete graphs *)

Section MoreFuel.
Context {path : Type} `{PathOrder path}.

Lemma sp_loop_more_fuel (g : graph path) (d : path) (k : nat) :
  forall fuel st st',
    sp_loop fuel g d st = Some st' -> sp_loop (fuel + k) g d st = Some st'.
Proof.
  induction fuel as [|fuel IH]; intros st st'.
  - simpl. destruct (unvisited st) as [|first r] eqn:Hu.
    + intros Hs. destruct k; simpl; rewrite Hu; exact Hs.
    + destruct (path_eqb _ d) eqn:E; [|discriminate].
      intros Hs. destruct k; simpl; rewrite Hu, E; exact Hs.
  - simpl. destruct (unvisited st) as [|first r]; [auto|].
    destruct (path_eqb _ d); [auto|]. apply IH.
Qed.

Lemma sp_walk_more_fuel (prev : pmap path path) (k : nat) :
  forall fuel p l,
    sp_walk fuel prev p = Some l -> sp_walk (fuel + k) prev p = Some l.
Proof.
  induction fuel as [|fuel IH]; intros p l.
  - simpl. destruct (path_eqb p path_empty) eqn:E; [|discriminate].
    intros Hs. destruct k; simpl; rewrite E; exact Hs.
  - simpl. destruct (path_eqb p path_empty); [auto|].
    destruct (sp_walk fuel prev _) as [l'|] eqn:Hw; [|discriminate].
    rewrite (IH _ _ Hw). auto.
Qed.

(** A result of [shortestPath] does not depend on the fuel that was
    enough for it. *)
Lemma shortestPath_more_fuel (g : graph path) (s d : path) (fuel k : nat)
      (r : list path) :
  shortestPath fuel g s d = Some r -> shortestPath (fuel + k) g s d = Some r.
Proof.
  rewrite !shortestPath_unfold.
  destruct (sp_loop fuel g d (sp_start g s)) as [st|] eqn:Hl; [|discriminate].
  rewrite (sp_loop_more_fuel g d k _ _ _ Hl).
  destruct (sp_walk fuel (previous st) d) as [l|] eqn:Hw; [|discriminate].
  rewrite (sp_walk_more_fuel _ k _ _ _ Hw). auto.
Qed.

Lemma minSpanTree_more_fuel (g : graph path) (fuel k : nat)
      (t : pmap path (list path)) :
  minSpanTree fuel g = Returns t -> minSpanTree (fuel + k) g = Returns t.
Proof.
  unfold minSpanTree. destruct g as [|[start ns] g']; [discriminate|].
  destruct (mst_loop fuel _ _) as [t'|] eqn:Hl; [|discriminate].
  rewrite (mst_loop_more_fuel _ k _ _ _ Hl). auto.
Qed.

End MoreFuel.

Module Concrete.
Import Examples.
Open Scope string_scope.

Lemma two_isolated_no_edge (v x : string) : ~ In x (neighbors two_isolated v).
Proof.
  intros Hin. apply neighbors_entry in Hin. destruct Hin as (ns & Hentry & Hx).
  vm_compute in Hentry.
  destruct Hentry as [E|[E|[]]]; inversion E; subst ns; destruct Hx.
Qed.

Lemma two_isolated_unreachable : ~ reachable two_isolated "A" "B".
Proof.
  intros Hr. inversion Hr as [|v w _ Hedge].
  exact (two_isolated_no_edge _ _ Hedge).
Qed.

(** C1 as stated fails: in the graph with the vertices A and B and no
    edge, B cannot be reached from A, and [shortestPath("A", "B")]
    returns the sequence [B], which does not reach A; it does not
    report "no path". *)
Lemma shortestPath_unreachable_returns_sequence :
  ~ reachable two_isolated "A" "B"
  /\ forall k, shortestPath (2 + k) two_isolated "A" "B" = Some ["B"].
Proof.
  split; [exact two_isolated_unreachable|].
  intros k. apply shortestPath_more_fuel. vm_compute. reflexivity.
Qed.

(** An unreachable destination for which nothing is returned: on
    [cycle_apart], B is taken with distance [INT_MAX] and
    [distances[current] + 1] leaves the range of [int]; with the wrapped
    value B and C become each other's predecessor, and the walk back from
    D goes round them for ever. *)
Example shortestPath_walk_round_cycle (fuel : nat) :
  shortestPath fuel cycle_apart "A" "D" = None.
Proof.
  destruct fuel as [|[|[|k]]]; try reflexivity.
  unfold shortestPath.
  set (st := mkSp [("A", 0%Z); ("B", (-2147483647)%Z); ("C", (-2147483648)%Z);
                   ("D", (-2147483647)%Z)]
                  [("A", ""); ("B", "C"); ("C", "B"); ("D", "C")] ["D"]).
  assert (Hloop : sp_loop (3 + k) cycle_apart "D" (sp_start cycle_apart "A") = Some st).
  { apply sp_loop_more_fuel. vm_compute. reflexivity. }
  simpl Nat.add in Hloop. rewrite Hloop.
  assert (Hwalk : forall n p, In p ["B"; "C"; "D"] -> sp_walk n (previous st) p = None).
  { induction n as [|n IH]; intros p Hp.
    - simpl in Hp. destruct Hp as [<-|[<-|[<-|[]]]]; reflexivity.
    - rewrite sp_walk_step
        by (simpl in Hp; destruct Hp as [<-|[<-|[<-|[]]]]; discriminate).
      rewrite IH; [reflexivity|].
      simpl in Hp. destruct Hp as [<-|[<-|[<-|[]]]]; vm_compute; tauto. }
  rewrite Hwalk; [reflexivity|simpl; tauto].
Qed.

Lemma shortestPath_unreachable_witness :
  (~ reachable two_isolated "A" "B"
   /\ "B" <> path_empty
   /\ (map_size two_isolated < 3)%nat)
  /\ ((forall r, shortestPath 3 two_isolated "A" "B" = Some r ->
                 (exists l, r = (l ++ ["B"])%list) /\ ~ In "A" r)
      /\ ((forall v, ~ In "B" (neighbors two_isolated v)) ->
          shortestPath 3 two_isolated "A" "B" = Some ["B"])).
Proof.
  assert (Hne : "B" <> path_empty) by discriminate.
  assert (Hsize : (map_size two_isolated < 3)%nat) by (vm_compute; lia).
  split.
  - split; [exact two_isolated_unreachable|]. split; assumption.
  - exact (shortestPath_unreachable two_isolated "A" "B" 3
                                    two_isolated_unreachable Hne Hsize).
Defined.

(** C9 as stated fails for the empty path: it is a vertex of the graph
    made by [addVertex("")], and [shortestPath("", "")] returns the
    empty sequence, because the walk back stops at [""] before pushing
    anything. *)
Lemma shortestPath_self_empty_path :
  map_count "" only_empty_path = true
  /\ In "" (map_keys only_empty_path)
  /\ forall k, shortestPath (1 + k) only_empty_path "" "" = Some []
               /\ shortestPath (1 + k) only_empty_path "" "" <> Some [""].
Proof.
  split; [reflexivity|]. split; [left; reflexivity|].
  intros k.
  assert (Hr : shortestPath (1 + k) only_empty_path "" "" = Some []).
  { apply shortestPath_more_fuel. vm_compute. reflexivity. }
  split; [exact Hr|]. rewrite Hr. discriminate.
Qed.

Lemma shortestPath_self_witness :
  (In "B" (map_keys chain) /\ "B" <> path_empty)
  /\ shortestPath 1 chain "B" "B" = Some ["B"]
  /\ (List.length ["B"] - 1 = 0)%nat.
Proof.
  assert (Hin : In "B" (map_keys chain)) by (vm_compute; tauto).
  assert (Hne : "B" <> path_empty) by discriminate.
  split; [split; assumption|].
  exact (shortestPath_self chain "B" 0 Hin Hne).
Defined.

(** C3 as stated fails when the root is not the first key: the star
    with the edges Z -> A and Z -> B is started at A, which has no
    neighbours, and the tree returned is empty, so the root has no
    child in it. *)
Lemma minSpanTree_star_not_rooted_at_first_key :
  neighbors star_from_Z "Z" = ["A"; "B"]
  /\ neighbors star_from_Z "A" = []
  /\ neighbors star_from_Z "B" = []
  /\ map_keys star_from_Z = ["A"; "B"; "Z"]
  /\ forall k, minSpanTree (1 + k) star_from_Z = Returns []
               /\ map_at [] "Z" (@nil (string * list string)) = [].
Proof.
  repeat (split; [reflexivity|]).
  intros k. split; [|reflexivity].
  apply minSpanTree_more_fuel. vm_compute. reflexivity.
Qed.

Lemma minSpanTree_star_witness :
  (Forall (fun c => path_compare "R" c = Lt) ["S"; "T"]
   /\ (List.length ["S"; "T"] < 3)%nat)
  /\ exists t,
      minSpanTree 3 (star_of "R" ["S"; "T"]) = Returns t
      /\ map_at [] "R" t = ["S"; "T"]
      /\ List.length (map_at [] "R" t) = List.length ["S"; "T"]
      /\ forall p, p <> "R" -> map_at [] p t = [].
Proof.
  assert (Hlt : Forall (fun c => path_compare "R" c = Lt) ["S"; "T"]).
  { repeat constructor. }
  assert (Hfuel : (List.length ["S"; "T"] < 3)%nat) by (simpl; lia).
  split; [split; [exact Hlt|exact Hfuel]|].
  exact (minSpanTree_star_rooted_at_first_key "R" ["S"; "T"] 3 Hlt Hfuel).
Defined.

(** The star of the witness, as it is stored and what is returned. *)
Example star_of_run :
  star_of "R" ["S"; "T"] = [("R", ["S"; "T"]); ("S", []); ("T", [])]
  /\ minSpanTree 3 (star_of "R" ["S"; "T"]) = Returns [("R", ["S"; "T"])].
Proof. split; reflexivity. Qed.

(** C10: on the diamond A -> B, A -> C, B -> D, C -> D the mapping
    returned by [minSpanTree] lists D among the children of B and among
    the children of C, two distinct parents: D is still unvisited (only
    queued) when C is scanned. *)
Theorem minSpanTree_diamond_two_parents (k : nat) :
  minSpanTree (5 + k) diamond
  = Returns [("A", ["B"; "C"]); ("B", ["D"]); ("C", ["D"])]
  /\ exists t,
      minSpanTree (5 + k) diamond = Returns t
      /\ In "D" (map_at [] "B" t)
      /\ In "D" (map_at [] "C" t)
      /\ "B" <> "C".
Proof.
  assert (Hr : minSpanTree (5 + k) diamond
               = Returns [("A", ["B"; "C"]); ("B", ["D"]); ("C", ["D"])]).
  { apply minSpanTree_more_fuel. vm_compute. reflexivity. }
  split; [exact Hr|].
  eexists. split; [exact Hr|].
  split; [left; reflexivity|]. split; [left; reflexivity|discriminate].
Qed.

Lemma shortestPath_chain_witness :
  (NoDup ["A"; "B"; "C"; "D"] /\ ~ In path_empty ["A"; "B"; "C"; "D"])
  /\ shortestPath 4 chain "A" "D" = Some ["A"; "B"; "C"; "D"]
  /\ List.length ["A"; "B"; "C"; "D"] = 4%nat
  /\ (List.length ["A"; "B"; "C"; "D"] - 1 = 3)%nat.
Proof.
  assert (Hnd : NoDup ["A"; "B"; "C"; "D"]).
  { repeat constructor; simpl; intuition discriminate. }
  assert (Hne : ~ In path_empty ["A"; "B"; "C"; "D"]).
  { simpl. intuition discriminate. }
  split; [split; assumption|].
  exact (shortestPath_chain "A" "B" "C" "D" 0 Hnd Hne).
Defined.

(** The same by running the code, and for the chain stored in the
    opposite key order. *)
Example shortestPath_chain_run :
  shortestPath 4 chain "A" "D" = Some ["A"; "B"; "C"; "D"]
  /\ shortestPath 4 (chain_graph "D" "C" "B" "A") "D" "A" = Some ["D"; "C"; "B"; "A"].
Proof. split; vm_compute; reflexivity. Qed.

Close Scope string_scope.
End Concrete.

(* ================================================================== *)
(** ** More on the Graph Store *)

Section GraphStoreMore.
Context {path : Type} `{PathOrder path}.

Lemma edge_count_insert (k : path) (v : list path) (g : graph path) :
  (edge_count (map_insert k v g) + List.length (map_at [] k g)
   = edge_count g + List.length v)%nat.
Proof.
  unfold edge_count, map_at. induction g as [|[k' v'] r IH]; simpl; [lia|].
  destruct (path_compare k k'); simpl; lia.
Qed.

Lemma edge_count_addVertex (p : path) (g : graph path) :
  edge_count (addVertex p g) = edge_count g.
Proof.
  unfold addVertex. destruct (map_count p g) eqn:E; simpl; [reflexivity|].
  pose proof (edge_count_insert p [] g) as Hi.
  unfold map_at in Hi. unfold map_count in E.
  destruct (map_find p g); [discriminate|]. simpl in Hi. lia.
Qed.

Lemma edge_count_addEdge (a b : path) (g : graph path) :
  edge_count (addEdge a b g) = S (edge_count g).
Proof.
  unfold addEdge.
  pose proof (edge_count_insert a (map_at [] a (addVertex b (addVertex a g)) ++ [b])
                                (addVertex b (addVertex a g))) as Hi.
  rewrite length_app in Hi. simpl in Hi. rewrite !edge_count_addVertex in Hi. lia.
Qed.

(** X1: whatever calls of [addVertex] and [addEdge] are made on a new
    object, and in whatever order, the map keeps its keys in strictly
    increasing order (so no vertex is stored twice), every neighbour in
    every list is itself a vertex, and [count] finds exactly the keys
    that an iteration meets. *)
Theorem run_calls_well_formed (cs : list store_call) :
  well_formed (run_calls cs)
  /\ forall v, map_count v (run_calls cs) = true <-> In v (map_keys (run_calls cs)).
Proof.
  assert (Hwf : well_formed (run_calls cs)).
  { unfold run_calls. generalize (@well_formed_empty path _).
    generalize (@empty_graph path) as g.
    induction cs as [|c r IH]; intros g Hg; simpl; [exact Hg|].
    apply IH. destruct c; simpl.
    - apply well_formed_addVertex, Hg.
    - apply well_formed_addEdge, Hg. }
  split; [exact Hwf|].
  intros v. apply map_count_keys. apply Hwf.
Qed.

(** X2: [addEdge a b] changes nothing but the neighbour list of [a]: the
    list of every other vertex is what it was, the vertices afterwards
    are the old ones with [a] and [b], and so the vertex count grows by
    at most two. *)
Theorem addEdge_frame (g : graph path) (a b : path) :
  (forall v, v <> a -> neighbors (addEdge a b g) v = neighbors g v)
  /\ (forall x, In x (map_keys (addEdge a b g))
                <-> x = a \/ x = b \/ In x (map_keys g))
  /\ (map_size g <= map_size (addEdge a b g) <= map_size g + 2)%nat.
Proof.
  split; [intros v Hv; apply addEdge_neighbors_other, Hv|].
  split; [intros x; apply map_keys_addEdge|].
  unfold addEdge.
  pose proof (addVertex_size a g) as Ha.
  pose proof (addVertex_size b (addVertex a g)) as Hb.
  rewrite map_size_insert_present
    by (apply map_count_insert_mono || apply addVertex_count_mono, addVertex_count).
  destruct (map_count a g), (map_count b (addVertex a g)); lia.
Qed.

(** X3: [addEdge] adds exactly one edge to the graph, also when the same
    edge is already there, and [addVertex] adds none. *)
Theorem addEdge_edge_count (g : graph path) (a b p : path) :
  edge_count (addEdge a b g) = S (edge_count g)
  /\ edge_count (addVertex p g) = edge_count g
  /\ edge_count (addEdge a b (addEdge a b g)) = S (S (edge_count g)).
Proof.
  split; [apply edge_count_addEdge|].
  split; [apply edge_count_addVertex|].
  rewrite !edge_count_addEdge. reflexivity.
Qed.

(** X4: [addVertex p] adds [p] to the vertices and nothing else: the
    vertices afterwards are the old ones with [p], every other path is a
    vertex exactly if it was one, and every neighbour list, that of [p]
    included, is what it was. *)
Theorem addVertex_frame (g : graph path) (p : path) :
  (forall x, In x (map_keys (addVertex p g)) <-> x = p \/ In x (map_keys g))
  /\ (forall q, q <> p -> map_count q (addVertex p g) = map_count q g)
  /\ (forall v, neighbors (addVertex p g) v = neighbors g v).
Proof.
  split; [intros x; apply map_keys_addVertex|].
  split; [|intros v; apply addVertex_neighbors].
  intros q Hq. unfold addVertex. destruct (map_count p g); simpl; [reflexivity|].
  apply map_count_insert_other, Hq.
Qed.

End GraphStoreMore.

(* ================================================================== *)
(** ** More on the Graph Builder *)

Section GraphBuilderMore.
Context {path : Type} `{PathOrder path}.

Lemma entry_done_counts (root p : path) (c : node path) (b : builder path) :
  counts_add_up p c (mkBuilder (addEdge root p (adjList b)) (cerr b)) ->
  edge_count (adjList (entry_done root p c b))
  = (S (edge_count (adjList b)) + entries_walked c)%nat
  /\ List.length (cerr (entry_done root p c b))
     = (List.length (cerr b)
        + (match c with Unknown | Sealed | Broken _ => 1 | _ => 0 end + failures c))%nat.
Proof.
  intros [Hedges Hlog]. cbn [adjList cerr] in Hedges, Hlog.
  rewrite edge_count_addEdge in Hedges.
  unfold entry_done. rewrite entry_error_cases.
  destruct c; cbn [report adjList cerr]; rewrite ?length_app; cbn [List.length];
    split; lia.
Qed.

Lemma build_entries_counts (root : path) (ending : completion path)
      (es : list (path * node path)) :
  Forall (fun e => forall p b, counts_add_up p (snd e) b) es ->
  forall b,
    edge_count (adjList (fst (build_entries buildGraph root ending es b)))
    = (edge_count (adjList b)
       + list_sum (map (fun e => S (entries_walked (snd e))) es))%nat
    /\ List.length (cerr (fst (build_entries buildGraph root ending es b)))
       = (List.length (cerr b)
          + list_sum (map (fun e => (match snd e with
                                     | Unknown | Sealed | Broken _ => 1
                                     | _ => 0
                                     end + failures (snd e))%nat) es))%nat.
Proof.
  induction 1 as [|[p c] rest Hc _ IH]; intros b.
  - simpl. split; lia.
  - rewrite build_entries_step. cbn [snd] in Hc.
    destruct (IH (entry_done root p c b)) as [IHe IHl].
    destruct (entry_done_counts root p c b (Hc p _)) as [He Hl].
    simpl map. simpl list_sum. simpl snd. split; lia.
Qed.

Lemma buildGraph_counts (n : node path) :
  forall root b, counts_add_up root n b.
Proof.
  induction n as [| | | |es IH|es IH] using node_induction; intros root b;
    unfold counts_add_up; simpl; try (split; lia);
    apply build_entries_counts; exact IH.
Qed.

(** What was written to [std::cerr] before a build is the beginning of
    what is there after it. *)
Lemma buildGraph_cerr_grows (n : node path) :
  forall root b, exists t, cerr (fst (buildGraph root n b)) = cerr b ++ t.
Proof.
  assert (Hloop : forall root ending es,
             Forall (fun e => forall p b,
                         exists t, cerr (fst (buildGraph p (snd e) b)) = cerr b ++ t) es ->
             forall b, exists t,
                 cerr (fst (build_entries buildGraph root ending es b)) = cerr b ++ t).
  { intros root ending es Hes.
    induction Hes as [|[p c] rest Hc _ IHrest]; intros b.
    - exists []. rewrite app_nil_r. reflexivity.
    - rewrite build_entries_step.
      destruct (IHrest (entry_done root p c b)) as [t2 Ht2]. rewrite Ht2.
      cbn [snd] in Hc.
      destruct (Hc p (mkBuilder (addEdge root p (adjList b)) (cerr b))) as [t1 Ht1].
      cbn [cerr] in Ht1. unfold entry_done.
      destruct (entry_error p c) as [e|]; cbn [report cerr]; rewrite Ht1.
      + exists ((t1 ++ [e]) ++ t2). rewrite !app_assoc. reflexivity.
      + exists (t1 ++ t2). rewrite app_assoc. reflexivity. }
  induction n as [| | | |es IH|es IH] using node_induction; intros root b;
    cbn [buildGraph fst]; try (exists []; rewrite app_nil_r; reflexivity);
    apply Hloop; exact IH.
Qed.

(** X5: a build adds one edge for every directory entry that the walk
    meets, the entries that fail included, and no other. *)
Theorem buildGraph_edge_count (root : path) (n : node path) (b : builder path) :
  edge_count (adjList (fst (buildGraph root n b)))
  = (edge_count (adjList b) + entries_walked n)%nat.
Proof. apply (buildGraph_counts n root b). Qed.

(** X6: a build reports one error for every entry that the walk meets
    and on which something fails: the status query on it, the opening
    of its listing, or the reading of its listing (the increment of the
    iterator in the recursive call).  It reports nothing else: a failure
    on the root itself is not reported but leaves the call, and on a
    tree without failing entries nothing is written to [std::cerr]. *)
Theorem buildGraph_report_count (root : path) (n : node path) (b : builder path) :
  List.length (cerr (fst (buildGraph root n b)))
  = (List.length (cerr b) + failures n)%nat
  /\ (failures n = 0%nat -> cerr (fst (buildGraph root n b)) = cerr b).
Proof.
  assert (Hlen : List.length (cerr (fst (buildGraph root n b)))
                 = (List.length (cerr b) + failures n)%nat)
    by apply (buildGraph_counts n root b).
  split; [exact Hlen|]. intros Hzero.
  destruct (buildGraph_cerr_grows n root b) as [t Ht].
  rewrite Ht in Hlen |- *. rewrite length_app in Hlen.
  destruct t; [apply app_nil_r|simpl in Hlen; lia].
Qed.

(** X7: the only errors that leave [buildGraph] are those on the root
    itself.  When the status query on the root fails, or the root is a
    directory whose listing cannot be opened, the call throws and the
    graph and the error output are untouched.  When the listing of the
    root breaks off (the increment of the iterator throws, outside the
    [try]), the call throws after it has built and reported what it
    would have, had the listing ended there.  In every other case the
    call returns normally, whatever fails below the root. *)
Theorem buildGraph_completion (root : path) (n : node path) (b : builder path) :
  (n = Unknown /\ buildGraph root n b = (b, Throws (StatusError root)))
  \/ (n = Sealed /\ buildGraph root n b = (b, Throws (OpenError root)))
  \/ (exists es, n = Broken es
        /\ buildGraph root n b
           = (fst (buildGraph root (Directory es) b), Throws (ReadError root)))
  \/ (n <> Unknown /\ n <> Sealed /\ (forall es, n <> Broken es)
      /\ snd (buildGraph root n b) = Normal).
Proof.
  destruct n as [| | | |es|es]; cbn [buildGraph].
  - do 3 right. repeat split; discriminate || reflexivity.
  - do 3 right. repeat split; discriminate || reflexivity.
  - left. split; reflexivity.
  - right. left. split; reflexivity.
  - do 3 right. split; [discriminate|]. split; [discriminate|].
    split; [discriminate|]. apply build_entries_normal.
  - right. right. left. exists es. split; [reflexivity|].
    rewrite (surjective_pairing (build_entries buildGraph root _ es b)).
    rewrite build_entries_ending, build_entries_built. reflexivity.
Qed.

Lemma entry_done_keys (root p : path) (c : node path) (b : builder path) (x : path) :
  (forall b', In x (map_keys (adjList (fst (buildGraph p c b'))))
              <-> In x (map_keys (adjList b')) \/ In x (mentioned p c)) ->
  In x (map_keys (adjList (entry_done root p c b)))
  <-> In x (map_keys (adjList b)) \/ x = root \/ x = p \/ In x (mentioned p c).
Proof.
  intros Hc. unfold entry_done.
  destruct (entry_error p c) as [e|]; cbn [report adjList]; rewrite Hc;
    cbn [adjList]; rewrite map_keys_addEdge; tauto.
Qed.

Lemma build_entries_keys (root : path) (ending : completion path)
      (es : list (path * node path)) :
  Forall (fun e => forall p b x,
              In x (map_keys (adjList (fst (buildGraph p (snd e) b))))
              <-> In x (map_keys (adjList b)) \/ In x (mentioned p (snd e))) es ->
  forall b x,
    In x (map_keys (adjList (fst (build_entries buildGraph root ending es b))))
    <-> In x (map_keys (adjList b))
        \/ In x (flat_map (fun e => root :: fst e :: mentioned (fst e) (snd e)) es).
Proof.
  induction 1 as [|[p c] rest Hc _ IH]; intros b x.
  - simpl. tauto.
  - rewrite build_entries_step, IH. cbn [snd] in Hc.
    rewrite (entry_done_keys root p c b x (fun b' => Hc p b' x)).
    simpl. rewrite in_app_iff. intuition.
Qed.

(** X8: after a build the vertices are the old ones and, for every entry
    that the walk met, the directory that lists it and the entry itself;
    no vertex is ever removed, and a directory without entries, the root
    included, does not become a vertex by being listed. *)
Theorem buildGraph_vertices (root : path) (n : node path) (b : builder path) (x : path) :
  In x (map_keys (adjList (fst (buildGraph root n b))))
  <-> In x (map_keys (adjList b)) \/ In x (mentioned root n).
Proof.
  revert root b x. induction n as [| | | |es IH|es IH] using node_induction;
    intros root b x; simpl; try tauto; apply build_entries_keys; exact IH.
Qed.

(** X9: a build keeps the graph in the shape that the store maintains
    (keys in strictly increasing order, every neighbour a vertex),
    whether it returns or throws. *)
Theorem buildGraph_keeps_well_formed (root : path) (n : node path) (b : builder path) :
  well_formed (adjList b) ->
  well_formed (adjList (fst (buildGraph root n b)))
  /\ forall v, map_count v (adjList (fst (buildGraph root n b))) = true
               <-> In v (map_keys (adjList (fst (buildGraph root n b)))).
Proof.
  intros Hwf. pose proof (well_formed_buildGraph n root b Hwf) as Hwf'.
  split; [exact Hwf'|]. intros v. apply map_count_keys, Hwf'.
Qed.

End GraphBuilderMore.

(* ================================================================== *)
(** ** More on the Shortest Path Engine *)

Section ShortestPathMore.
Context {path : Type} `{PathOrder path}.

(** What every turn keeps, a finished loop has kept. *)
Lemma sp_loop_keeps (g : graph path) (d : path) (P : sp_state path -> Prop) :
  (forall st current, P st -> P (sp_turn g current st)) ->
  forall fuel st st', P st -> sp_loop fuel g d st = Some st' -> P st'.
Proof.
  intros Hturn. induction fuel as [|fuel IH]; intros st st' HP; simpl.
  - destruct (unvisited st) as [|first r]; [intros E; inversion E; subst; exact HP|].
    destruct (path_eqb _ d); [intros E; inversion E; subst; exact HP|discriminate].
  - destruct (unvisited st) as [|first r]; [intros E; inversion E; subst; exact HP|].
    destruct (path_eqb _ d); [intros E; inversion E; subst; exact HP|].
    apply IH, Hturn, HP.
Qed.

Lemma is_path_snoc (g : graph path) (r : list path) (a b : path) :
  is_path g (r ++ [a]) -> In b (neighbors g a) -> is_path g (r ++ [a; b]).
Proof.
  intros Hr Hab. induction r as [|x r IH]; simpl.
  - split; [exact Hab|exact I].
  - simpl in Hr. destruct r as [|y r']; simpl in *.
    + destruct Hr as [Hxa _]. repeat split; assumption.
    + destruct Hr as [Hxy Hr]. split; [exact Hxy|]. apply IH, Hr.
Qed.

(** The walk back, reversed, goes along edges; it holds no empty path. *)
Lemma sp_walk_is_path [g : graph path] [prev : pmap path path] :
  previous_are_edges g prev ->
  forall fuel p l,
    sp_walk fuel prev p = Some l ->
    is_path g (rev l)
    /\ ~ In path_empty l
    /\ (p <> path_empty -> exists l', l = p :: l').
Proof.
  intros Hprev. induction fuel as [|fuel IH]; intros p l Hw.
  - simpl in Hw. destruct (path_eqb p path_empty) eqn:E; [|discriminate].
    inversion Hw; subst l. apply path_eqb_eq in E.
    split; [exact I|]. split; [intros []|]. intros Hp. contradiction.
  - destruct (path_eq_dec p path_empty) as [-> |Hne].
    + rewrite sp_walk_empty in Hw. inversion Hw; subst l.
      split; [exact I|]. split; [intros []|]. intros Hp. congruence.
    + rewrite sp_walk_step in Hw by exact Hne.
      destruct (sp_walk fuel prev (map_at path_empty p prev)) as [l'|] eqn:Hw';
        [|discriminate].
      inversion Hw; subst l. destruct (IH _ _ Hw') as (Hpath & Hnone & Hhead).
      split; [|split].
      * destruct (path_eq_dec (map_at path_empty p prev) path_empty) as [He|He].
        -- rewrite He, sp_walk_empty in Hw'. inversion Hw'; subst l'. exact I.
        -- destruct (Hhead He) as [l'' ->]. simpl. simpl in Hpath.
           rewrite <- app_assoc. apply is_path_snoc; [exact Hpath|].
           apply Hprev, He.
      * intros [Heq|Hin]; [congruence|contradiction].
      * intros _. exists l'. reflexivity.
Qed.

(** X10: the main loop of [shortestPath] always ends: every turn that
    does not stop it erases one vertex from [unvisited], so as many
    turns as the graph has vertices are enough, whatever the graph, the
    source and the destination. *)
Theorem shortestPath_loop_ends (g : graph path) (s d : path) (fuel : nat) :
  (map_size g <= fuel)%nat ->
  exists st, sp_loop fuel g d (sp_start g s) = Some st
             /\ (List.length (unvisited st) <= map_size g)%nat.
Proof.
  intros Hfuel.
  destruct (sp_loop_ends g d
              (fun st => (List.length (unvisited st) <= map_size g)%nat /\
                         increasing (unvisited st)))
    with (fuel := fuel) (st := sp_start g s) as (st & Hloop & Hlen & _).
  - intros st current [Hlen Hinc] Hcur. simpl. split.
    + pose proof (set_erase_length _ _ Hinc Hcur). lia.
    + apply set_erase_increasing, Hinc.
  - split; [apply sp_start_length|apply sp_start_increasing].
  - apply sp_start_increasing.
  - pose proof (sp_start_length g s). lia.
  - exists st. split; assumption.
Qed.

(** X11: whatever [shortestPath] returns is a walk in the graph: every
    vertex of the sequence has the next one among its neighbours.  The
    sequence holds no empty path; it ends with the destination, unless
    the destination is the empty path, and then it is empty. *)
Theorem shortestPath_result_is_path (g : graph path) (s d : path) (fuel : nat)
        (r : list path) :
  shortestPath fuel g s d = Some r ->
  is_path g r
  /\ ~ In path_empty r
  /\ (d <> path_empty -> exists l, r = l ++ [d])
  /\ (d = path_empty -> r = []).
Proof.
  unfold shortestPath.
  destruct (sp_loop fuel g d (sp_start g s)) as [st|] eqn:Hloop; [|discriminate].
  destruct (sp_walk fuel (previous st) d) as [l|] eqn:Hw; [|discriminate].
  intros E. inversion E; subst r.
  assert (Hedges : previous_are_edges g (previous st)).
  { apply (sp_loop_keeps g d (fun st => previous_are_edges g (previous st)))
      with (fuel := fuel) (st := sp_start g s); [| |exact Hloop].
    - intros st0 current Hst0. apply sp_turn_edges, Hst0.
    - intros n Hn. rewrite sp_start_previous in Hn. congruence. }
  destruct (sp_walk_is_path Hedges fuel d l Hw) as (Hpath & Hnone & Hhead).
  split; [exact Hpath|]. split; [rewrite <- in_rev; exact Hnone|]. split.
  - intros Hd. destruct (Hhead Hd) as [l' ->]. exists (rev l'). reflexivity.
  - intros ->. rewrite sp_walk_empty in Hw. inversion Hw. reflexivity.
Qed.

(** X12: asked for the way to the empty path, [shortestPath] returns the
    empty sequence, from any source and in any graph, the ones in which
    the empty path is a vertex included. *)
Theorem shortestPath_to_empty_path (g : graph path) (s : path) (fuel : nat) :
  (map_size g <= fuel)%nat ->
  shortestPath fuel g s path_empty = Some [].
Proof.
  intros Hfuel. unfold shortestPath.
  destruct (sp_loop_ends g path_empty (fun _ => True))
    with (fuel := fuel) (st := sp_start g s) as (st & Hloop & _); auto.
  - apply sp_start_increasing.
  - pose proof (sp_start_length g s). lia.
  - rewrite Hloop, sp_walk_empty. reflexivity.
Qed.

(** X13: asked for the way to a path that is not a vertex of the graph
    (and not the empty path), [shortestPath] does not fail: it visits
    every vertex and returns the sequence that holds that path alone. *)
Theorem shortestPath_to_missing_vertex (g : graph path) (s d : path) (fuel : nat) :
  well_formed g ->
  map_count d g = false ->
  d <> path_empty ->
  (map_size g < fuel)%nat ->
  shortestPath fuel g s d = Some [d].
Proof.
  intros [_ Hclosed] Hd Hne Hfuel. unfold shortestPath.
  assert (Hnone : forall v, ~ In d (neighbors g v)).
  { intros v Hin. rewrite (Hclosed v d Hin) in Hd. discriminate. }
  destruct (sp_loop_ends g d (fun st => map_at path_empty d (previous st) = path_empty))
    with (fuel := fuel) (st := sp_start g s) as (st & Hloop & Hprev).
  - intros st current Hst _. unfold sp_turn, sp_relax. simpl.
    rewrite sp_relax_previous_other by apply Hnone. exact Hst.
  - apply sp_start_previous.
  - apply sp_start_increasing.
  - pose proof (sp_start_length g s). lia.
  - rewrite Hloop. destruct fuel as [|fuel]; [lia|].
    rewrite sp_walk_step by exact Hne. rewrite Hprev, sp_walk_empty. reflexivity.
Qed.

End ShortestPathMore.

(* ================================================================== *)
(** ** The Shortest Path Engine on reachable destinations *)

Section DijkstraFacts.
Context {path : Type} `{PathOrder path}.

Lemma int_add_one [x : Z] :
  (0 <= x < INT_MAX)%Z -> int_add x 1 = (x + 1)%Z.
Proof.
  unfold int_add, int_wrap, INT_MAX. intros Hx.
  rewrite Z.mod_small by lia. lia.
Qed.

(** The scan takes a vertex of least distance. *)
Lemma sp_select_min (dist : pmap path Z) (u : pset path) :
  forall first y,
    In y u \/ y = first ->
    (map_at 0 (sp_select dist u first) dist <= map_at 0 y dist)%Z.
Proof.
  unfold sp_select. induction u as [|p r IH]; intros first y Hy; simpl.
  - destruct Hy as [[]| ->]. lia.
  - assert (Hstep : (map_at 0 (sp_select_step dist first p) dist <= map_at 0 first dist)%Z
                    /\ (map_at 0 (sp_select_step dist first p) dist <= map_at 0 p dist)%Z).
    { unfold sp_select_step. destruct (_ <? _)%Z eqn:E.
      - apply Z.ltb_lt in E. lia.
      - apply Z.ltb_ge in E. lia. }
    destruct Hy as [[-> |Hy]| ->].
    + specialize (IH (sp_select_step dist first y) (sp_select_step dist first y)
                     (or_intror eq_refl)). lia.
    + apply IH. left. exact Hy.
    + specialize (IH (sp_select_step dist first p) (sp_select_step dist first p)
                     (or_intror eq_refl)). lia.
Qed.

(** The relaxation loop, when the sum does not leave the range of
    [int]: each vertex either keeps its distance and predecessor, or is
    a neighbour that gets the new distance and [current]. *)
Lemma relax_fold_spec (current : path) (a : Z) (l : list path) :
  forall (D : path -> Z) (P : path -> path),
    (0 <= D current < INT_MAX)%Z ->
    a = (D current + 1)%Z ->
    forall v,
      (fst (fold_left (relax_fun current) l (D, P)) v = D v
       /\ snd (fold_left (relax_fun current) l (D, P)) v = P v
       /\ (In v l -> (D v <= a)%Z))
      \/ (In v l /\ (a < D v)%Z
          /\ fst (fold_left (relax_fun current) l (D, P)) v = a
          /\ snd (fold_left (relax_fun current) l (D, P)) v = current).
Proof.
  induction l as [|n r IH]; intros D P HD Ha v; simpl.
  - left. repeat split. intros [].
  - assert (Hstep : relax_fun current (D, P) n
                    = if (a <? D n)%Z then (upd D n a, upd P n current) else (D, P)).
    { unfold relax_fun. simpl. rewrite (int_add_one HD), <- Ha. reflexivity. }
    rewrite Hstep. clear Hstep. destruct (a <? D n)%Z eqn:E.
    + apply Z.ltb_lt in E.
      assert (Hn : n <> current) by (intros ->; lia).
      assert (Hcur : upd D n a current = D current)
        by (apply upd_other; congruence).
      specialize (IH (upd D n a) (upd P n current)).
      rewrite Hcur in IH. specialize (IH HD Ha v).
      destruct (path_eq_dec v n) as [-> |Hvn].
      * rewrite !upd_same in IH. right.
        destruct IH as [(HD' & HP' & _)|(_ & Hlt & _)]; [|lia].
        split; [left; reflexivity|]. split; [exact E|]. split; assumption.
      * rewrite !upd_other in IH by exact Hvn.
        destruct IH as [(HD' & HP' & Hle)|(Hin & Hlt & HD' & HP')].
        -- left. split; [exact HD'|]. split; [exact HP'|].
           intros [Heq|Hin]; [congruence|auto].
        -- right. split; [right; exact Hin|]. split; [exact Hlt|]. split; assumption.
    + apply Z.ltb_ge in E.
      destruct (IH D P HD Ha v) as [(HD' & HP' & Hle)|(Hin & Hlt & HD' & HP')].
      * left. split; [exact HD'|]. split; [exact HP'|].
        intros [<- |Hin]; [exact E|auto].
      * right. split; [right; exact Hin|]. split; [exact Hlt|]. split; assumption.
Qed.

(** A turn of the main loop, read on [dist_of] and [prev_of]. *)
Lemma sp_turn_spec (g : graph path) (current : path) (st : sp_state path) :
  increasing (unvisited st) ->
  (0 <= dist_of st current < INT_MAX)%Z ->
  (forall v, In v (unvisited (sp_turn g current st))
             <-> In v (unvisited st) /\ v <> current)
  /\ forall v,
      (dist_of (sp_turn g current st) v = dist_of st v
       /\ prev_of (sp_turn g current st) v = prev_of st v
       /\ (In v (neighbors g current) -> (dist_of st v <= dist_of st current + 1)%Z))
      \/ (In v (neighbors g current)
          /\ (dist_of st current + 1 < dist_of st v)%Z
          /\ dist_of (sp_turn g current st) v = (dist_of st current + 1)%Z
          /\ prev_of (sp_turn g current st) v = current).
Proof.
  intros Hinc Hcur.
  assert (Hview : sp_view st (fun v => In v (unvisited st)) (dist_of st) (prev_of st)).
  { split; [exact Hinc|]. split; [tauto|]. split; reflexivity. }
  destruct (sp_turn_view g current Hview) as (_ & HU & HD & HP).
  split; [exact HU|]. intros v.
  assert (Hd : dist_of (sp_turn g current st) v
               = fst (fold_left (relax_fun current) (neighbors g current)
                                (dist_of st, prev_of st)) v) by apply HD.
  assert (Hp : prev_of (sp_turn g current st) v
               = snd (fold_left (relax_fun current) (neighbors g current)
                                (dist_of st, prev_of st)) v) by apply HP.
  rewrite Hd, Hp.
  apply (relax_fold_spec current (dist_of st current + 1) (neighbors g current)
                         (dist_of st) (prev_of st) Hcur eq_refl v).
Qed.

(** The invariant holds when the loop is entered. *)
Lemma dijkstra_inv_start (g : graph path) (s : path) :
  dijkstra_inv g s (sp_start g s).
Proof.
  assert (Hdist : forall v, dist_of (sp_start g s) v = 0%Z
                            \/ (v <> s /\ dist_of (sp_start g s) v = INT_MAX)).
  { intros v. unfold dist_of. destruct (path_eq_dec v s) as [-> |Hne].
    - left. apply sp_start_distance_source.
    - destruct (in_dec path_eq_dec v (map_keys g)) as [Hin|Hout].
      + right. split; [exact Hne|]. apply sp_start_distance_other; assumption.
      + left. simpl. rewrite map_at_insert_other by exact Hne.
        unfold sp_init. rewrite sp_init_distance_other by exact Hout. reflexivity. }
  assert (Hkey : forall v, In v (map_keys g) -> v <> s ->
                           dist_of (sp_start g s) v = INT_MAX).
  { intros v Hv Hne. apply sp_start_distance_other; assumption. }
  split; [apply sp_start_increasing|].
  split; [intros v Hv; apply (sp_start_unvisited g s), Hv|].
  split; [split; [apply sp_start_distance_source|apply sp_start_previous]|].
  split; [intros v; destruct (Hdist v) as [-> |[_ ->]]; unfold INT_MAX; lia|].
  split; [intros v Hv Hne Hlt; rewrite (Hkey v Hv Hne) in Hlt; lia|].
  split; intros u x Hu Hnot; exfalso; apply Hnot, (sp_start_unvisited g s), Hu.
Qed.

(** A turn that takes a vertex of least distance, below [INT_MAX],
    keeps the invariant. *)
Lemma dijkstra_inv_turn [g : graph path] [s current : path] [st : sp_state path] :
  dijkstra_inv g s st ->
  In current (unvisited st) ->
  (forall y, In y (unvisited st) -> (dist_of st current <= dist_of st y)%Z) ->
  (dist_of st current < INT_MAX)%Z ->
  dijkstra_inv g s (sp_turn g current st).
Proof.
  intros (Hinc & Hsub & [Hs0 Hsp] & Hrange & Hpred & Hsettled & Hord) Hcur Hmin Hfin.
  assert (Hc : (0 <= dist_of st current < INT_MAX)%Z)
    by (pose proof (Hrange current); lia).
  destruct (sp_turn_spec g current st Hinc Hc) as [HU Hv].
  set (st' := sp_turn g current st) in *.
  assert (Hle : forall v, (dist_of st' v <= dist_of st v)%Z).
  { intros v. destruct (Hv v) as [(-> & _)|(_ & Hlt & -> & _)]; lia. }
  assert (Hkeep : forall u, (dist_of st u <= dist_of st current)%Z ->
                            dist_of st' u = dist_of st u /\ prev_of st' u = prev_of st u).
  { intros u Hu. destruct (Hv u) as [(Hd & Hp & _)|(_ & Hlt & _)]; [auto|lia]. }
  assert (Hold : forall u, In u (map_keys g) -> ~ In u (unvisited st) ->
                           (dist_of st u <= dist_of st current)%Z).
  { intros u Hu Hnot. apply Hord; assumption. }
  assert (Hdone : forall u, In u (map_keys g) -> ~ In u (unvisited st') ->
                            u = current \/ ~ In u (unvisited st)).
  { intros u Hu Hnot. destruct (path_eq_dec u current) as [-> |Hne]; [tauto|].
    right. intros Hin. apply Hnot, HU. tauto. }
  assert (Hdone_keep : forall u, In u (map_keys g) -> ~ In u (unvisited st') ->
                                 dist_of st' u = dist_of st u
                                 /\ (dist_of st u <= dist_of st current)%Z).
  { intros u Hu Hnot. destruct (Hdone u Hu Hnot) as [-> |Hn].
    - split; [apply Hkeep|]; lia.
    - split; [apply Hkeep|]; apply Hold; assumption. }
  split; [apply set_erase_increasing, Hinc|].
  split; [intros v Hin; apply Hsub, HU, Hin|].
  split; [destruct (Hkeep s) as [-> ->]; [rewrite Hs0; lia|tauto]|].
  split; [intros v; pose proof (Hrange v);
          destruct (Hv v) as [(-> & _)|(_ & _ & -> & _)]; lia|].
  split; [|split].
  - intros v Hvk Hvs Hlt.
    destruct (Hv v) as [(Hd & Hp & _)|(Hin & _ & Hd & Hp)].
    + rewrite Hd, Hp in *.
      destruct (Hpred v Hvk Hvs Hlt) as (Hu & Hnot & Hedge & Heq).
      split; [exact Hu|]. split; [intros Hin; apply Hnot, HU, Hin|].
      split; [exact Hedge|].
      destruct (Hkeep (prev_of st v)) as [-> _]; [apply Hold; assumption|exact Heq].
    + rewrite Hd, Hp. split; [apply Hsub, Hcur|].
      split; [intros Hc'; apply HU in Hc'; tauto|].
      split; [exact Hin|]. destruct (Hkeep current) as [-> _]; lia.
  - intros u n Hu Hnot Hedge.
    destruct (Hdone_keep u Hu Hnot) as [-> Hule].
    destruct (Hdone u Hu Hnot) as [-> |Hn].
    + destruct (Hv n) as [(-> & _ & Hnle)|(_ & _ & -> & _)]; [apply Hnle, Hedge|lia].
    + pose proof (Hsettled u n Hu Hn Hedge). pose proof (Hle n). lia.
  - intros u v Hu Hnot Hvin.
    destruct (Hdone_keep u Hu Hnot) as [-> Hule].
    apply HU in Hvin. destruct Hvin as [Hvin Hvne].
    pose proof (Hmin v Hvin).
    destruct (Hv v) as [(-> & _)|(_ & _ & -> & _)]; lia.
Qed.

(** Along a walk from the source, either some unvisited vertex is at
    most that far, or the end of the walk is settled and at most that
    far. *)
Lemma dijkstra_walk_bound [g : graph path] [s : path] [st : sp_state path] :
  (forall v x, In x (neighbors g v) -> In x (map_keys g)) ->
  In s (map_keys g) ->
  dijkstra_inv g s st ->
  forall [w k],
    walk g s w k ->
    (exists y, In y (unvisited st) /\ (dist_of st y <= Z.of_nat k)%Z)
    \/ (In w (map_keys g) /\ ~ In w (unvisited st) /\ (dist_of st w <= Z.of_nat k)%Z).
Proof.
  intros Hclosed Hs (_ & _ & [Hs0 _] & _ & _ & Hsettled & _) w k Hw.
  induction Hw as [|v w k _ IH Hedge].
  - destruct (in_dec path_eq_dec s (unvisited st)) as [Hin|Hout].
    + left. exists s. split; [exact Hin|]. rewrite Hs0. simpl. lia.
    + right. repeat split; auto. rewrite Hs0. simpl. lia.
  - destruct IH as [(y & Hy & Hle)|(Hv & Hnot & Hle)].
    + left. exists y. split; [exact Hy|lia].
    + pose proof (Hsettled v w Hv Hnot Hedge) as Hw'.
      destruct (in_dec path_eq_dec w (unvisited st)) as [Hin|Hout].
      * left. exists w. split; [exact Hin|lia].
      * right. split; [apply (Hclosed v w Hedge)|]. split; [exact Hout|lia].
Qed.

(** The main loop ends with the destination taken, the invariant in
    force and the destination at least as near as any unvisited vertex. *)
Lemma dijkstra_loop [g : graph path] [s d : path] [k0 : nat] :
  (forall v x, In x (neighbors g v) -> In x (map_keys g)) ->
  In s (map_keys g) ->
  walk g s d k0 ->
  (Z.of_nat k0 < INT_MAX)%Z ->
  forall fuel st,
    dijkstra_inv g s st ->
    In d (unvisited st) ->
    (List.length (unvisited st) <= fuel)%nat ->
    exists st',
      sp_loop fuel g d st = Some st'
      /\ dijkstra_inv g s st'
      /\ In d (unvisited st')
      /\ forall y, In y (unvisited st') -> (dist_of st' d <= dist_of st' y)%Z.
Proof.
  intros Hclosed Hs Hwalk Hk0.
  induction fuel as [|fuel IH]; intros st Hinv Hd Hlen.
  - destruct (unvisited st); [destruct Hd|simpl in Hlen; lia].
  - destruct (unvisited st) as [|first r] eqn:Hu; [destruct Hd|].
    remember (sp_select (distances st) (unvisited st) first) as current eqn:Hsel.
    symmetry in Hsel.
    assert (Hmin : forall y, In y (unvisited st) ->
                             (dist_of st current <= dist_of st y)%Z).
    { intros y Hy. rewrite <- Hsel. apply sp_select_min. left. exact Hy. }
    assert (Hcur : In current (unvisited st)).
    { rewrite <- Hsel.
      destruct (sp_select_In (distances st) (unvisited st) first) as [-> |Hin];
        [rewrite Hu; left; reflexivity|exact Hin]. }
    destruct (path_eq_dec current d) as [Hcd|Hcd].
    + exists st. split; [apply (sp_loop_stop _ _ Hu); congruence|].
      split; [exact Hinv|]. split; [rewrite Hu; exact Hd|].
      subst current. rewrite <- Hcd. exact Hmin.
    + rewrite (sp_loop_turn _ _ Hu Hsel Hcd).
      assert (Hfin : (dist_of st current < INT_MAX)%Z).
      { destruct (dijkstra_walk_bound Hclosed Hs Hinv Hwalk)
          as [(y & Hy & Hle)|(_ & Hnot & _)].
        - pose proof (Hmin y Hy). lia.
        - exfalso. apply Hnot. rewrite Hu. exact Hd. }
      pose proof (dijkstra_inv_turn Hinv Hcur Hmin Hfin) as Hinv'.
      destruct Hinv as (Hinc & _).
      apply IH; [exact Hinv'| |].
      * simpl. apply (set_erase_In _ _ _ Hinc). rewrite Hu. split; [exact Hd|congruence].
      * simpl. pose proof (set_erase_length _ _ Hinc Hcur) as Hl.
        rewrite Hu in Hl |- *. cbn [List.length] in Hl, Hlen. lia.
Qed.

(** The walk back from a vertex whose distance is below [INT_MAX] meets
    that many predecessors and then the source. *)
Lemma dijkstra_walk_back [g : graph path] [s : path] [st : sp_state path] :
  ~ In path_empty (map_keys g) ->
  In s (map_keys g) ->
  dijkstra_inv g s st ->
  forall m v fuel,
    In v (map_keys g) ->
    dist_of st v = Z.of_nat m ->
    (Z.of_nat m < INT_MAX)%Z ->
    (m < fuel)%nat ->
    exists l,
      sp_walk fuel (previous st) v = Some (v :: l)
      /\ List.length l = m
      /\ exists l', v :: l = l' ++ [s].
Proof.
  intros Hempty Hs (_ & _ & [Hs0 Hsp] & Hrange & Hpred & _).
  assert (Hnonempty : forall v, In v (map_keys g) -> v <> path_empty)
    by (intros v Hv ->; contradiction).
  induction m as [|m IH]; intros v fuel Hv Hdist Hlt Hfuel;
    (destruct fuel as [|fuel]; [lia|]).
  - assert (v = s).
    { destruct (path_eq_dec v s) as [Heq|Hne]; [exact Heq|].
      assert (Hfin : (dist_of st v < INT_MAX)%Z) by (rewrite Hdist; unfold INT_MAX; simpl; lia).
      destruct (Hpred v Hv Hne Hfin) as (_ & _ & _ & Heq).
      pose proof (Hrange (prev_of st v)). simpl in Hdist. lia. }
    subst v. exists []. rewrite sp_walk_step by apply Hnonempty, Hs.
    fold (prev_of st s). rewrite Hsp, sp_walk_empty.
    split; [reflexivity|]. split; [reflexivity|]. exists []. reflexivity.
  - assert (Hne : v <> s) by (intros ->; rewrite Hs0 in Hdist; lia).
    assert (Hfin : (dist_of st v < INT_MAX)%Z) by lia.
    destruct (Hpred v Hv Hne Hfin) as (Hu & _ & _ & Heq).
    destruct (IH (prev_of st v) fuel Hu) as (l & Hw & Hlen & l' & Hl'); [lia|lia|lia|].
    exists (prev_of st v :: l). rewrite sp_walk_step by apply Hnonempty, Hv.
    fold (prev_of st v). rewrite Hw. split; [reflexivity|]. split; [simpl; lia|].
    exists (v :: l'). rewrite Hl'. reflexivity.
Qed.

End DijkstraFacts.

Section DijkstraResults.
Context {path : Type} `{PathOrder path}.

Lemma well_formed_closed [g : graph path] :
  well_formed g -> forall v x, In x (neighbors g v) -> In x (map_keys g).
Proof. intros [_ Hclosed] v x Hin. apply map_count_In, (Hclosed v x Hin). Qed.

Lemma walk_ends_at_key [g : graph path] [s d : path] [k : nat] :
  well_formed g -> In s (map_keys g) -> walk g s d k -> In d (map_keys g).
Proof.
  intros Hwf Hs Hw. destruct Hw as [|v w k _ Hedge]; [exact Hs|].
  apply (well_formed_closed Hwf v w Hedge).
Qed.

(** On a destination that a walk of fewer than [INT_MAX] edges reaches,
    [shortestPath] returns a sequence from the source to the destination
    that has no more edges than any walk between them. *)
Lemma dijkstra_returns [g : graph path] [s d : path] [fuel k0 : nat] :
  well_formed g ->
  ~ In path_empty (map_keys g) ->
  In s (map_keys g) ->
  walk g s d k0 ->
  (Z.of_nat k0 < INT_MAX)%Z ->
  (map_size g <= fuel)%nat ->
  (k0 < fuel)%nat ->
  exists r m,
    shortestPath fuel g s d = Some r
    /\ List.length r = S m
    /\ (exists t, r = s :: t)
    /\ (exists l, r = l ++ [d])
    /\ forall k, walk g s d k -> (m <= k)%nat.
Proof.
  intros Hwf Hempty Hs Hwalk Hk0 Hfuel Hfuel'.
  pose proof (well_formed_closed Hwf) as Hclosed.
  pose proof (walk_ends_at_key Hwf Hs Hwalk) as Hd.
  destruct (dijkstra_loop Hclosed Hs Hwalk Hk0 fuel (sp_start g s))
    as (st & Hloop & Hinv & Hdin & Hmin).
  - apply dijkstra_inv_start.
  - apply sp_start_unvisited, Hd.
  - pose proof (sp_start_length g s). lia.
  - assert (Hbound : forall k, walk g s d k -> (dist_of st d <= Z.of_nat k)%Z).
    { intros k Hk.
      destruct (dijkstra_walk_bound Hclosed Hs Hinv Hk) as [(y & Hy & Hle)|(_ & Hnot & _)].
      - pose proof (Hmin y Hy). lia.
      - contradiction. }
    assert (Hrange : (0 <= dist_of st d)%Z).
    { destruct Hinv as (_ & _ & _ & Hrange & _). apply Hrange. }
    pose proof (Hbound k0 Hwalk) as Hle0.
    destruct (dijkstra_walk_back Hempty Hs Hinv (Z.to_nat (dist_of st d)) d fuel Hd)
      as (l & Hw & Hlen & l' & Hl'); [lia|lia|lia|].
    exists (rev (d :: l)), (Z.to_nat (dist_of st d)).
    unfold shortestPath. rewrite Hloop, Hw.
    split; [reflexivity|]. split; [rewrite length_rev; simpl; lia|].
    split; [exists (rev l'); rewrite Hl', rev_app_distr; reflexivity|].
    split; [exists (rev l); reflexivity|].
    intros k Hk. pose proof (Hbound k Hk). lia.
Qed.

Lemma shortestPath_follows_edges (g : graph path) (s d : path) (fuel : nat)
      (r : list path) :
  shortestPath fuel g s d = Some r -> is_path g r.
Proof.
  unfold shortestPath.
  destruct (sp_loop fuel g d (sp_start g s)) as [st|] eqn:Hloop; [|discriminate].
  destruct (sp_walk fuel (previous st) d) as [l|] eqn:Hw; [|discriminate].
  intros E. inversion E; subst r.
  assert (Hedges : previous_are_edges g (previous st)).
  { apply (sp_loop_keeps g d (fun st => previous_are_edges g (previous st)))
      with (fuel := fuel) (st := sp_start g s); [| |exact Hloop].
    - intros st0 current Hst0. apply sp_turn_edges, Hst0.
    - intros n Hn. rewrite sp_start_previous in Hn. congruence. }
  apply (sp_walk_is_path Hedges fuel d l Hw).
Qed.

(** X14: when the destination can be reached from the source, both
    vertices of a graph as the store keeps it and in which the empty path
    is not a vertex, [shortestPath] returns a walk of the graph that
    starts at the source, ends at the destination and has no more edges
    than any walk from the source to the destination.  (The walk that
    witnesses reachability has fewer than [INT_MAX] edges, so that no
    distance leaves the range of [int].) *)
Theorem shortestPath_is_shortest (g : graph path) (s d : path) (fuel k0 : nat) :
  well_formed g ->
  ~ In path_empty (map_keys g) ->
  In s (map_keys g) ->
  walk g s d k0 ->
  (Z.of_nat k0 < INT_MAX)%Z ->
  (map_size g <= fuel)%nat ->
  (k0 < fuel)%nat ->
  exists r,
    shortestPath fuel g s d = Some r
    /\ (exists t, r = s :: t)
    /\ (exists l, r = l ++ [d])
    /\ is_path g r
    /\ forall k, walk g s d k -> (List.length r <= S k)%nat.
Proof.
  intros Hwf Hempty Hs Hwalk Hk0 Hfuel Hfuel'.
  destruct (dijkstra_returns Hwf Hempty Hs Hwalk Hk0 Hfuel Hfuel')
    as (r & m & Hr & Hlen & Hfirst & Hlast & Hleast).
  exists r. split; [exact Hr|]. split; [exact Hfirst|]. split; [exact Hlast|].
  split; [apply (shortestPath_follows_edges _ _ _ _ _ Hr)|].
  intros k Hk. pose proof (Hleast k Hk). lia.
Qed.

(** X15: for an edge from [s] to another vertex [d], neither of them the
    empty path, as from a directory to one of its entries,
    [shortestPath(s, d)] returns the two vertices [s], [d], whatever else
    the graph holds: the empty path may be a vertex of it, and other
    vertices may be out of reach. *)
Theorem shortestPath_along_edge (g : graph path) (s d : path) (fuel : nat) :
  well_formed g ->
  s <> path_empty ->
  d <> path_empty ->
  In d (neighbors g s) ->
  s <> d ->
  (map_size g <= fuel)%nat ->
  (1 < fuel)%nat ->
  shortestPath fuel g s d = Some [s; d].
Proof.
  intros Hwf Hsne Hdne Hedge Hne Hfuel Hfuel'.
  assert (Hs : In s (map_keys g)).
  { apply map_count_In. unfold map_count. unfold neighbors, map_at in Hedge.
    destruct (map_find s g); [reflexivity|destruct Hedge]. }
  pose proof (well_formed_closed Hwf) as Hclosed.
  assert (Hwalk : walk g s d 1) by (apply walk_edge with s; [apply walk_here|exact Hedge]).
  assert (Hk0 : (Z.of_nat 1 < INT_MAX)%Z) by reflexivity.
  pose proof (walk_ends_at_key Hwf Hs Hwalk) as Hd.
  destruct (dijkstra_loop Hclosed Hs Hwalk Hk0 fuel (sp_start g s))
    as (st & Hloop & Hinv & Hdin & Hmin).
  - apply dijkstra_inv_start.
  - apply sp_start_unvisited, Hd.
  - pose proof (sp_start_length g s). lia.
  - assert (Hle : (dist_of st d <= 1)%Z).
    { destruct (dijkstra_walk_bound Hclosed Hs Hinv Hwalk)
        as [(y & Hy & Hle)|(_ & Hnot & _)]; [|contradiction].
      pose proof (Hmin y Hy). simpl in Hle. lia. }
    destruct Hinv as (_ & _ & [_ Hsp] & Hrange & Hpred & _).
    assert (Hmax : (1 < INT_MAX)%Z) by reflexivity.
    assert (Hfin : (dist_of st d < INT_MAX)%Z) by lia.
    destruct (Hpred d Hd (fun E => Hne (eq_sym E)) Hfin) as (Hu & _ & _ & Heq).
    assert (Hprev : prev_of st d = s).
    { destruct (path_eq_dec (prev_of st d) s) as [E|E]; [exact E|].
      pose proof (Hrange (prev_of st d)) as Hr.
      assert (Hfin' : (dist_of st (prev_of st d) < INT_MAX)%Z) by lia.
      destruct (Hpred _ Hu E Hfin') as (_ & _ & _ & Heq').
      pose proof (Hrange (prev_of st (prev_of st d))). lia. }
    unfold shortestPath. rewrite Hloop.
    destruct fuel as [|[|fuel]]; [lia|lia|].
    rewrite sp_walk_step by exact Hdne. fold (prev_of st d). rewrite Hprev.
    rewrite sp_walk_step by exact Hsne. fold (prev_of st s).
    rewrite Hsp, sp_walk_empty. reflexivity.
Qed.

End DijkstraResults.

(* ================================================================== *)
(** ** More on the Minimum Spanning Tree Engine *)

Section MinSpanTreeMore.
Context {path : Type} `{PathOrder path}.

(** The scan of the neighbours of [current]: those not in [v] are
    appended to the children of [current] and queued, in order. *)
Lemma mst_scan_spec (current : path) (v : pset path) (l : list path) :
  forall t q,
    (forall p, p <> current ->
               map_at [] p (fst (fold_left (mst_scan_step current v) l (t, q)))
               = map_at [] p t)
    /\ map_at [] current (fst (fold_left (mst_scan_step current v) l (t, q)))
       = map_at [] current t ++ filter (fun n => negb (set_count n v)) l
    /\ (forall x, In x (snd (fold_left (mst_scan_step current v) l (t, q)))
                  <-> In x q \/ (fst x = 1%Z /\ In (snd x) l
                                 /\ set_count (snd x) v = false)).
Proof.
  induction l as [|n r IH]; intros t q; simpl.
  - split; [reflexivity|]. split; [rewrite app_nil_r; reflexivity|].
    intros x. split; [tauto|]. intros [Hx|(_ & [] & _)]. exact Hx.
  - unfold mst_scan_step at 2 4 6. simpl fst. simpl snd.
    destruct (set_count n v) eqn:E; simpl negb; cbv iota.
    + destruct (IH t q) as (Hother & Hcur & Hq).
      split; [exact Hother|]. split; [exact Hcur|].
      intros x. rewrite Hq. split.
      * intros [Hx|(H1 & Hin & Hc)]; [tauto|]. right. tauto.
      * intros [Hx|(H1 & [Heq|Hin] & Hc)]; [tauto| |tauto].
        subst n. congruence.
    + destruct (IH (map_insert current (map_at [] current t ++ [n]) t)
                   (pq_push (1%Z, n) q)) as (Hother & Hcur & Hq).
      split; [|split].
      * intros p Hp. rewrite (Hother p Hp). apply map_at_insert_other, Hp.
      * rewrite Hcur, map_at_insert_same, <- app_assoc. reflexivity.
      * intros x. rewrite Hq, pq_push_In. split.
        -- intros [[-> |Hx]|(H1 & Hin & Hc)]; [|tauto|tauto].
           right. simpl. tauto.
        -- intros [Hx|(H1 & [Heq|Hin] & Hc)]; [tauto| |tauto].
           left. left. destruct x as [w y]. simpl in *. congruence.
Qed.

Lemma mst_inv_start (g : graph path) (start : path) :
  mst_inv g start (mkMst [] [] [(0%Z, start)]).
Proof.
  split; [exact I|]. split; [intros p c []|].
  split; [right; split; [reflexivity|exists 0%Z; reflexivity]|].
  split; [intros x []|].
  split; [|intros u n []].
  intros x [<- |[]]. simpl. split; [apply reach_here|left; reflexivity].
Qed.

(** A turn on a vertex that is already visited. *)
Lemma mst_inv_skip [g : graph path] [start : path] [st : mst_state path]
      [w : Z] [current : path] [rest : list (Z * path)] :
  mst_inv g start st ->
  pq st = (w, current) :: rest ->
  In current (visited st) ->
  mst_inv g start (mkMst (tree st) (visited st) rest).
Proof.
  intros (Hinc & Htree & Hstart & Hvis & Hpq & Hclosed) Hq Hcur. simpl.
  split; [exact Hinc|]. split; [exact Htree|].
  split; [left; destruct Hstart as [Hs|[Hnil _]]; [exact Hs|]; rewrite Hnil in Hcur;
          destruct Hcur|].
  split; [exact Hvis|].
  split; [intros x Hx; apply Hpq; rewrite Hq; right; exact Hx|].
  intros u n Hu Hn. destruct (Hclosed u n Hu Hn) as [Hin|[w' Hin]]; [tauto|].
  rewrite Hq in Hin. destruct Hin as [Heq|Hin].
  - inversion Heq; subst. left. exact Hcur.
  - right. exists w'. exact Hin.
Qed.

(** A turn on a vertex that is visited now. *)
Lemma mst_inv_visit [g : graph path] [start : path] [st : mst_state path]
      [w : Z] [current : path] [rest : list (Z * path)] :
  mst_inv g start st ->
  pq st = (w, current) :: rest ->
  ~ In current (visited st) ->
  mst_inv g start
    (mkMst (fst (mst_scan g current (set_insert current (visited st)) (tree st, rest)))
           (set_insert current (visited st))
           (snd (mst_scan g current (set_insert current (visited st)) (tree st, rest)))).
Proof.
  intros (Hinc & Htree & Hstart & Hvis & Hpq & Hclosed) Hq Hcur.
  set (v := set_insert current (visited st)).
  assert (Hvinc : increasing v) by apply set_insert_increasing, Hinc.
  assert (Hv : forall x, In x v <-> x = current \/ In x (visited st))
    by (intros x; apply set_insert_In).
  assert (Hcount : forall x, set_count x v = false <-> ~ In x v).
  { intros x. rewrite <- (set_count_iff x v Hvinc).
    destruct (set_count x v); split; congruence. }
  unfold mst_scan.
  destruct (mst_scan_spec current v (neighbors g current) (tree st) rest)
    as (Hother & Hmine & Hqueue).
  set (tq := fold_left (mst_scan_step current v) (neighbors g current) (tree st, rest)) in *.
  assert (Hold : map_at [] current (tree st) = []).
  { destruct (map_at [] current (tree st)) as [|c l] eqn:E; [reflexivity|].
    exfalso. apply Hcur. apply (Htree current c). rewrite E. left. reflexivity. }
  rewrite Hold in Hmine. simpl in Hmine.
  assert (Hmono : forall x, in_tree start (tree st) x -> in_tree start (fst tq) x).
  { intros x [-> |[p Hp]]; [left; reflexivity|]. right. exists p.
    destruct (path_eq_dec p current) as [-> |Hne].
    - rewrite Hold in Hp. destruct Hp.
    - rewrite (Hother p Hne). exact Hp. }
  assert (Hcur_ok : reachable g start current /\ in_tree start (tree st) current).
  { apply (Hpq (w, current)). rewrite Hq. left. reflexivity. }
  assert (Hstart' : In start v).
  { apply Hv. destruct Hstart as [Hs|[_ [w' Hw']]]; [tauto|].
    rewrite Hq in Hw'. inversion Hw'. left. reflexivity. }
  unfold mst_inv. cbn [tree visited pq].
  split; [exact Hvinc|]. split; [|split; [left; exact Hstart'|split; [|split]]].
  - intros p c Hc. destruct (path_eq_dec p current) as [-> |Hne].
    + rewrite Hmine in Hc. apply filter_In in Hc. destruct Hc as [Hin Hc].
      apply Bool.negb_true_iff, Hcount in Hc.
      split; [exact Hin|]. split; [apply Hv; tauto|].
      split; intros ->; apply Hc; [apply Hv; tauto|exact Hstart'].
    + rewrite (Hother p Hne) in Hc.
      destruct (Htree p c Hc) as (Hin & Hp & Hcp & Hcs).
      repeat split; auto. apply Hv. tauto.
  - intros x Hx. apply Hv in Hx. destruct Hx as [-> |Hx].
    + split; [apply Hcur_ok|apply Hmono, Hcur_ok].
    + destruct (Hvis x Hx) as [Hr Ht]. split; [exact Hr|apply Hmono, Ht].
  - intros x Hx. apply Hqueue in Hx. destruct Hx as [Hx|(_ & Hin & Hc)].
    + destruct (Hpq x) as [Hr Ht]; [rewrite Hq; right; exact Hx|].
      split; [exact Hr|apply Hmono, Ht].
    + split.
      * apply reach_edge with current; [apply Hcur_ok|exact Hin].
      * right. exists current. rewrite Hmine. apply filter_In.
        split; [exact Hin|]. rewrite Hc. reflexivity.
  - intros u n Hu Hn. apply Hv in Hu. destruct Hu as [-> |Hu].
    + destruct (set_count n v) eqn:E.
      * left. apply (set_count_iff n v Hvinc), E.
      * right. exists 1%Z. apply Hqueue. right. simpl. tauto.
    + destruct (Hclosed u n Hu Hn) as [Hin|[w' Hin]]; [left; apply Hv; tauto|].
      rewrite Hq in Hin. destruct Hin as [Heq|Hin].
      * inversion Heq; subst. left. apply Hv. tauto.
      * right. exists w'. apply Hqueue. tauto.
Qed.

(** The tree returned comes from a state in which the invariant holds
    and the queue is empty. *)
Lemma mst_loop_keeps (g : graph path) (start : path) :
  forall fuel st t,
    mst_inv g start st ->
    mst_loop fuel g st = Some t ->
    exists st', mst_inv g start st' /\ pq st' = [] /\ tree st' = t.
Proof.
  induction fuel as [|fuel IH]; intros st t Hinv; simpl.
  - destruct (pq st) as [|[w c] rest] eqn:Hq; [|discriminate].
    intros E. inversion E. exists st. auto.
  - destruct (pq st) as [|[w c] rest] eqn:Hq.
    + intros E. inversion E. exists st. auto.
    + assert (Hinc : increasing (visited st)) by apply Hinv.
      destruct (set_count c (visited st)) eqn:Hc.
      * apply IH. apply (mst_inv_skip Hinv Hq).
        apply (set_count_iff c _ Hinc), Hc.
      * apply IH. apply (mst_inv_visit Hinv Hq).
        intros Hin. apply (set_count_iff c _ Hinc) in Hin. congruence.
Qed.

(** What the invariant says of the tree once the queue is empty. *)
Lemma mst_inv_final [g : graph path] [start : path] [st : mst_state path] :
  mst_inv g start st ->
  pq st = [] ->
  (forall p c, In c (map_at [] p (tree st)) ->
               In c (neighbors g p) /\ c <> p /\ c <> start /\ reachable g start p)
  /\ (forall x, reachable g start x <-> in_tree start (tree st) x).
Proof.
  intros (Hinc & Htree & Hstart & Hvis & Hpq & Hclosed) Hq.
  assert (Hs : In start (visited st)).
  { destruct Hstart as [Hs|[_ [w Hw]]]; [exact Hs|]. rewrite Hq in Hw. discriminate. }
  split.
  - intros p c Hc. destruct (Htree p c Hc) as (Hin & Hp & Hcp & Hcs).
    repeat split; auto. apply Hvis, Hp.
  - intros x. split.
    + intros Hr. apply Hvis. induction Hr as [|v w _ IH Hedge]; [exact Hs|].
      destruct (Hclosed v w IH Hedge) as [Hin|[w' Hin]]; [exact Hin|].
      rewrite Hq in Hin. destruct Hin.
    + intros [-> |[p Hp]]; [apply reach_here|].
      destruct (Htree p x Hp) as (Hin & Hpv & _).
      apply reach_edge with p; [apply Hvis, Hpv|exact Hin].
Qed.

(** X16: on every graph that is not empty the loop of [minSpanTree]
    ends and a tree is returned: each turn takes one pair from the queue,
    and only the first visit of a vertex pushes pairs, one per edge at
    most, so one turn more than the graph has edges is enough. *)
Theorem minSpanTree_ends (g : graph path) (fuel : nat) :
  g <> [] ->
  (edge_count g < fuel)%nat ->
  exists t, minSpanTree fuel g = Returns t.
Proof.
  intros Hg Hfuel. unfold minSpanTree. destruct g as [|[start ns] g']; [congruence|].
  destruct (mst_loop_ends ((start, ns) :: g') fuel (mkMst [] [] [(0%Z, start)]))
    as [t Ht].
  - exact I.
  - cbn [pq visited List.length].
    change (pending_edges ((start, ns) :: g') []) with (edge_count ((start, ns) :: g')).
    lia.
  - rewrite Ht. exists t. reflexivity.
Qed.

(** X17: the tree that [minSpanTree] returns invents nothing: every
    child recorded under a vertex is a neighbour of that vertex in the
    graph, is not that vertex itself and is not the start vertex, and
    the vertex it is recorded under can be reached from the start
    vertex. *)
Theorem minSpanTree_tree_edges (start : path) (ns : list path) (g' : graph path)
        (fuel : nat) (t : pmap path (list path)) (p c : path) :
  minSpanTree fuel ((start, ns) :: g') = Returns t ->
  In c (map_at [] p t) ->
  In c (neighbors ((start, ns) :: g') p)
  /\ c <> p
  /\ c <> start
  /\ reachable ((start, ns) :: g') start p.
Proof.
  unfold minSpanTree.
  destruct (mst_loop fuel _ _) as [t'|] eqn:Hloop; [|discriminate].
  intros E Hc. inversion E; subst t'.
  destruct (mst_loop_keeps _ start fuel _ _ (mst_inv_start _ start) Hloop)
    as (st & Hinv & Hq & Ht).
  destruct (mst_inv_final Hinv Hq) as [Hedges _].
  rewrite Ht in Hedges. apply Hedges, Hc.
Qed.

(** X18: the tree that [minSpanTree] returns spans what the start vertex
    reaches and nothing more: a vertex has a parent in the tree or is the
    start vertex exactly when it can be reached from the start vertex
    along edges. *)
Theorem minSpanTree_spans (start : path) (ns : list path) (g' : graph path)
        (fuel : nat) (t : pmap path (list path)) (x : path) :
  minSpanTree fuel ((start, ns) :: g') = Returns t ->
  (reachable ((start, ns) :: g') start x
   <-> x = start \/ exists p, In x (map_at [] p t)).
Proof.
  unfold minSpanTree.
  destruct (mst_loop fuel _ _) as [t'|] eqn:Hloop; [|discriminate].
  intros E. inversion E; subst t'.
  destruct (mst_loop_keeps _ start fuel _ _ (mst_inv_start _ start) Hloop)
    as (st & Hinv & Hq & Ht).
  destruct (mst_inv_final Hinv Hq) as [_ Hspan].
  rewrite Ht in Hspan. apply Hspan.
Qed.

End MinSpanTreeMore.

(* ================================================================== *)
(** ** Presentation: [printGraph] *)

Section PresentationFacts.
Context {path : Type} `{PathOrder path}.

Lemma read_lines_neighbors (ns : list path) (rest : list (out path)) :
  read_lines (print_neighbors ns ++ rest)
  = match read_lines rest with
    | Some (ns', es) => Some (ns ++ ns', es)
    | None => None
    end.
Proof.
  induction ns as [|n r IH].
  - simpl. destruct (read_lines rest) as [[ns' es]|]; reflexivity.
  - unfold print_neighbors in *. cbn [flat_map app]. cbn [read_lines].
    change (String.eqb "  " "  " && String.eqb newline newline)%bool with true.
    cbv iota. rewrite IH. destruct (read_lines rest) as [[ns' es]|]; reflexivity.
Qed.

Lemma print_neighbors_length (ns : list path) :
  List.length (print_neighbors ns) = (3 * List.length ns)%nat.
Proof.
  unfold print_neighbors. induction ns as [|n r IH]; simpl in *; lia.
Qed.

(** X19: [printGraph] writes every vertex once, in key order, each
    followed by its neighbours in the order of its list: the graph can be
    read back from what was written, and the output has two insertions
    for every vertex and three for every edge. *)
Theorem printGraph_read_back (g : graph path) :
  read_graph (printGraph g) = Some g
  /\ List.length (printGraph g) = (2 * map_size g + 3 * edge_count g)%nat.
Proof.
  split.
  - unfold read_graph.
    assert (Hread : read_lines (printGraph g) = Some ([], g)).
    { unfold printGraph. induction g as [|[k ns] r IH]; [reflexivity|].
      cbn [flat_map]. unfold print_entry at 1. cbn [fst snd app].
      cbn [read_lines].
      change (String.eqb (":" ++ newline) (":" ++ newline)) with true. cbv iota.
      rewrite read_lines_neighbors, IH, app_nil_r. reflexivity. }
    rewrite Hread. reflexivity.
  - unfold printGraph, map_size, edge_count.
    induction g as [|[k ns] r IH]; [reflexivity|].
    cbn [flat_map map list_sum List.length snd]. rewrite length_app, IH.
    unfold print_entry. cbn [fst snd app List.length].
    rewrite print_neighbors_length. unfold list_sum in *. cbn [fold_right]. lia.
Qed.

End PresentationFacts.

(* ================================================================== *)
(** ** The graph as the sequence of its edges *)

Section EdgeOrder.
Context {path : Type} `{PathOrder path}.

Lemma out_edges_app (q : path) (l1 l2 : list (path * path)) :
  out_edges q (l1 ++ l2) = out_edges q l1 ++ out_edges q l2.
Proof. unfold out_edges. rewrite filter_app, map_app. reflexivity. Qed.

Lemma neighbors_addEdge (a b q : path) (g : graph path) :
  neighbors (addEdge a b g) q = neighbors g q ++ out_edges q [(a, b)].
Proof.
  unfold out_edges. simpl. destruct (path_eq_dec a q) as [-> |Hne]; simpl.
  - apply addEdge_neighbors_source.
  - rewrite app_nil_r. apply addEdge_neighbors_other. congruence.
Qed.

Lemma run_calls_from (cs : list store_call) :
  forall g v,
    neighbors (fold_left run_call cs g) v = neighbors g v ++ out_edges v (call_edges cs)
    /\ forall x, In x (map_keys (fold_left run_call cs g))
                 <-> In x (map_keys g) \/ In x (call_paths cs).
Proof.
  induction cs as [|c r IH]; intros g v.
  - simpl. rewrite app_nil_r. split; [reflexivity|tauto].
  - simpl fold_left. destruct (IH (run_call g c) v) as [Hn Hk]. split.
    + rewrite Hn. destruct c as [p|a b]; simpl run_call.
      * rewrite addVertex_neighbors. reflexivity.
      * rewrite neighbors_addEdge. unfold call_edges. cbn [flat_map].
        rewrite out_edges_app, app_assoc. reflexivity.
    + intros x. destruct (IH (run_call g c) x) as [_ Hx]. rewrite Hx.
      unfold call_paths. cbn [flat_map]. rewrite in_app_iff.
      destruct c as [p|a b]; simpl run_call.
      * rewrite map_keys_addVertex. simpl. intuition.
      * rewrite map_keys_addEdge. simpl. intuition.
Qed.

(** X20: a graph made by calls of [addVertex] and [addEdge] on a new
    object is those calls and nothing else: the neighbours of a vertex
    are the ends of the edges added from it, in the order of the calls
    and with repetitions, the vertices are the paths named in the calls,
    and there is one edge per call of [addEdge]. *)
Theorem run_calls_graph (cs : list store_call) :
  (forall v, neighbors (run_calls cs) v = out_edges v (call_edges cs))
  /\ (forall x, In x (map_keys (run_calls cs)) <-> In x (call_paths cs))
  /\ edge_count (run_calls cs) = List.length (call_edges cs).
Proof.
  split; [|split].
  - intros v. destruct (run_calls_from cs empty_graph v) as [Hn _]. exact Hn.
  - intros x. destruct (run_calls_from cs empty_graph x) as [_ Hk].
    unfold run_calls. rewrite Hk. simpl. tauto.
  - unfold run_calls.
    assert (Hgen : forall g, edge_count (fold_left run_call cs g)
                             = (edge_count g + List.length (call_edges cs))%nat).
    { induction cs as [|c r IH]; intros g; simpl; [lia|].
      rewrite IH. unfold call_edges. cbn [flat_map]. rewrite length_app.
      destruct c as [p|a b]; simpl run_call.
      - rewrite edge_count_addVertex. simpl. lia.
      - rewrite edge_count_addEdge. simpl. lia. }
    rewrite Hgen. reflexivity.
Qed.

Lemma entry_done_neighbors (root p : path) (c : node path) (b : builder path) (q : path) :
  (forall b', neighbors (adjList (fst (buildGraph p c b'))) q
              = neighbors (adjList b') q ++ out_edges q (edges_walked p c)) ->
  neighbors (adjList (entry_done root p c b)) q
  = neighbors (adjList b) q ++ out_edges q ((root, p) :: edges_walked p c).
Proof.
  intros Hc.
  change ((root, p) :: edges_walked p c) with ([(root, p)] ++ edges_walked p c).
  rewrite out_edges_app, app_assoc, <- neighbors_addEdge.
  unfold entry_done.
  destruct (entry_error p c) as [e|]; cbn [report adjList]; rewrite Hc; reflexivity.
Qed.

Lemma build_entries_neighbors (root : path) (ending : completion path)
      (es : list (path * node path)) (q : path) :
  Forall (fun e => forall p b,
              neighbors (adjList (fst (buildGraph p (snd e) b))) q
              = neighbors (adjList b) q ++ out_edges q (edges_walked p (snd e))) es ->
  forall b,
    neighbors (adjList (fst (build_entries buildGraph root ending es b))) q
    = neighbors (adjList b) q
      ++ out_edges q (flat_map (fun e => (root, fst e) :: edges_walked (fst e) (snd e)) es).
Proof.
  induction 1 as [|[p c] rest Hc _ IH]; intros b.
  - simpl. rewrite app_nil_r. reflexivity.
  - rewrite build_entries_step, IH. cbn [snd] in Hc.
    rewrite (entry_done_neighbors root p c b q (Hc p)). cbn [flat_map fst snd].
    change ((root, p) :: edges_walked p c ++ ?l) with (((root, p) :: edges_walked p c) ++ l).
    rewrite out_edges_app, app_assoc. reflexivity.
Qed.

(** X21: a build appends to the neighbour list of every vertex the
    entries it met listed under that vertex, in the order of the walk,
    and changes the lists in no other way: what was there stays in front
    and in order, and an entry that fails still has its edge. *)
Theorem buildGraph_neighbors (root : path) (n : node path) (b : builder path) (q : path) :
  neighbors (adjList (fst (buildGraph root n b))) q
  = neighbors (adjList b) q ++ out_edges q (edges_walked root n).
Proof.
  revert root b. induction n as [| | | |es IH|es IH] using node_induction; intros root b;
    simpl; try (rewrite app_nil_r; reflexivity); apply build_entries_neighbors; exact IH.
Qed.

(** What a turn of the loop of [minSpanTree] keeps, the tree returned
    has. *)
Lemma mst_loop_invariant (g : graph path) (P : mst_state path -> Prop) :
  (forall st w c rest,
      P st -> pq st = (w, c) :: rest -> set_count c (visited st) = true ->
      P (mkMst (tree st) (visited st) rest)) ->
  (forall st w c rest,
      P st -> pq st = (w, c) :: rest -> set_count c (visited st) = false ->
      P (mkMst (fst (mst_scan g c (set_insert c (visited st)) (tree st, rest)))
               (set_insert c (visited st))
               (snd (mst_scan g c (set_insert c (visited st)) (tree st, rest))))) ->
  forall fuel st t,
    P st -> mst_loop fuel g st = Some t -> exists st', P st' /\ tree st' = t.
Proof.
  intros Hskip Hvisit. induction fuel as [|fuel IH]; intros st t HP; simpl.
  - destruct (pq st) as [|[w c] rest]; [|discriminate].
    intros E. inversion E. exists st. auto.
  - destruct (pq st) as [|[w c] rest] eqn:Hq.
    + intros E. inversion E. exists st. auto.
    + destruct (set_count c (visited st)) eqn:Hc.
      * apply IH. apply (Hskip st w c rest HP Hq Hc).
      * apply IH. apply (Hvisit st w c rest HP Hq Hc).
Qed.

(** X22: in the tree that [minSpanTree] returns, the children of the
    start vertex are its neighbours in the graph, in the order of its
    list and with repetitions, without the start vertex itself. *)
Theorem minSpanTree_children_of_start (start : path) (ns : list path) (g' : graph path)
        (fuel : nat) (t : pmap path (list path)) :
  minSpanTree fuel ((start, ns) :: g') = Returns t ->
  map_at [] start t = filter (fun n => negb (path_eqb n start)) ns.
Proof.
  unfold minSpanTree.
  destruct (mst_loop fuel _ _) as [t'|] eqn:Hloop; [|discriminate].
  intros E. inversion E; subst t'. clear E.
  destruct fuel as [|fuel]; [discriminate|].
  simpl in Hloop.
  set (g := (start, ns) :: g') in *.
  assert (Hns : neighbors g start = ns).
  { unfold neighbors, map_at, g. simpl. rewrite path_compare_refl. reflexivity. }
  assert (Hcount : forall c, set_count c [start] = path_eqb c start).
  { intros c. unfold path_eqb. simpl. destruct (path_compare c start); reflexivity. }
  destruct (mst_scan_spec start [start] (neighbors g start) [] []) as (_ & Hmine & _).
  destruct (mst_loop_invariant g
              (fun st => In start (visited st) /\ increasing (visited st)
                         /\ map_at [] start (tree st)
                            = filter (fun n => negb (path_eqb n start)) ns))
    with (fuel := fuel) (t := t)
         (st := mkMst (fst (mst_scan g start [start] ([], [])))
                      [start]
                      (snd (mst_scan g start [start] ([], []))))
    as (st' & (_ & _ & Ht) & <-).
  - intros st w c rest (Hs & Hinc & Ht) _ _. simpl. auto.
  - intros st w c rest (Hs & Hinc & Ht) _ Hc. cbn [tree visited].
    split; [apply set_insert_In; tauto|].
    split; [apply set_insert_increasing, Hinc|].
    assert (Hne : start <> c).
    { intros ->. apply (set_count_iff c _ Hinc) in Hs. congruence. }
    unfold mst_scan.
    destruct (mst_scan_spec c (set_insert c (visited st)) (neighbors g c) (tree st) rest)
      as (Hother & _ & _).
    rewrite (Hother start Hne). exact Ht.
  - cbn [tree visited]. split; [left; reflexivity|]. split; [exact I|].
    unfold mst_scan. etransitivity; [exact Hmine|]. rewrite Hns.
    change (map_at [] start (@nil (path * list path))) with (@nil path). cbn [app].
    apply filter_ext. intros c. rewrite Hcount. reflexivity.
  - exact Hloop.
  - exact Ht.
Qed.

End EdgeOrder.

(* ================================================================== *)
(** ** The further properties on concrete graphs *)

Module MoreConcrete.
Import Examples.
Open Scope string_scope.

Lemma chain_well_formed : well_formed chain.
Proof.
  unfold chain, chain_graph. repeat apply well_formed_addEdge. apply well_formed_empty.
Qed.

Lemma chain_has_no_empty_path : ~ In path_empty (map_keys chain).
Proof. vm_compute. intuition discriminate. Qed.

Lemma chain_walk : walk chain "A" "D" 3.
Proof.
  apply walk_edge with "C"; [|vm_compute; tauto].
  apply walk_edge with "B"; [|vm_compute; tauto].
  apply walk_edge with "A"; [|vm_compute; tauto].
  apply walk_here.
Qed.

Lemma buildGraph_keeps_well_formed_witness :
  well_formed (adjList (mkBuilder (@empty_graph string) []))
  /\ well_formed
       (adjList (fst (buildGraph "root" locked_and_file (mkBuilder empty_graph [])))).
Proof.
  split; [apply well_formed_empty|].
  apply (buildGraph_keeps_well_formed "root" locked_and_file (mkBuilder empty_graph [])).
  apply well_formed_empty.
Defined.

Lemma shortestPath_loop_ends_witness :
  (map_size chain <= 4)%nat
  /\ exists st, sp_loop 4 chain "D" (sp_start chain "A") = Some st
                /\ (List.length (unvisited st) <= map_size chain)%nat.
Proof.
  assert (Hsize : (map_size chain <= 4)%nat) by (vm_compute; lia).
  split; [exact Hsize|].
  exact (shortestPath_loop_ends chain "A" "D" 4 Hsize).
Defined.

Lemma shortestPath_result_is_path_witness :
  shortestPath 4 chain "A" "D" = Some ["A"; "B"; "C"; "D"]
  /\ is_path chain ["A"; "B"; "C"; "D"].
Proof.
  assert (Hrun : shortestPath 4 chain "A" "D" = Some ["A"; "B"; "C"; "D"])
    by (vm_compute; reflexivity).
  split; [exact Hrun|].
  apply (shortestPath_result_is_path chain "A" "D" 4 ["A"; "B"; "C"; "D"] Hrun).
Defined.

Lemma shortestPath_to_empty_path_witness :
  (map_size chain <= 4)%nat /\ shortestPath 4 chain "A" path_empty = Some [].
Proof.
  assert (Hsize : (map_size chain <= 4)%nat) by (vm_compute; lia).
  split; [exact Hsize|].
  exact (shortestPath_to_empty_path chain "A" 4 Hsize).
Defined.

Lemma shortestPath_to_missing_vertex_witness :
  (well_formed chain /\ map_count "Q" chain = false /\ "Q" <> path_empty
   /\ (map_size chain < 5)%nat)
  /\ shortestPath 5 chain "A" "Q" = Some ["Q"].
Proof.
  assert (Hmiss : map_count "Q" chain = false) by reflexivity.
  assert (Hne : "Q" <> path_empty) by discriminate.
  assert (Hsize : (map_size chain < 5)%nat) by (vm_compute; lia).
  split; [split; [exact chain_well_formed|split; [exact Hmiss|split; assumption]]|].
  exact (shortestPath_to_missing_vertex chain "A" "Q" 5 chain_well_formed Hmiss Hne Hsize).
Defined.

Lemma shortestPath_is_shortest_witness :
  (well_formed chain /\ ~ In path_empty (map_keys chain) /\ In "A" (map_keys chain)
   /\ walk chain "A" "D" 3 /\ (Z.of_nat 3 < INT_MAX)%Z
   /\ (map_size chain <= 4)%nat /\ (3 < 4)%nat)
  /\ exists r,
      shortestPath 4 chain "A" "D" = Some r
      /\ (exists t, r = "A" :: t)
      /\ (exists l, r = (l ++ ["D"])%list)
      /\ is_path chain r
      /\ forall k, walk chain "A" "D" k -> (List.length r <= S k)%nat.
Proof.
  assert (Hs : In "A" (map_keys chain)) by (vm_compute; tauto).
  assert (Hk0 : (Z.of_nat 3 < INT_MAX)%Z) by reflexivity.
  assert (Hsize : (map_size chain <= 4)%nat) by (vm_compute; lia).
  assert (Hfuel : (3 < 4)%nat) by lia.
  split.
  - repeat (split; [first [exact chain_well_formed|exact chain_has_no_empty_path
                          |exact Hs|exact chain_walk|exact Hk0|exact Hsize]|]).
    exact Hfuel.
  - exact (shortestPath_is_shortest chain "A" "D" 4 3 chain_well_formed
             chain_has_no_empty_path Hs chain_walk Hk0 Hsize Hfuel).
Defined.

(** The edge B -> C in a graph that has the empty path as a vertex, with
    an edge to B. *)
Lemma shortestPath_along_edge_witness :
  (well_formed (addEdge "" "B" (addEdge "B" "C" empty_graph))
   /\ "B" <> path_empty /\ "C" <> path_empty
   /\ In "C" (neighbors (addEdge "" "B" (addEdge "B" "C" empty_graph)) "B")
   /\ "B" <> "C"
   /\ (map_size (addEdge "" "B" (addEdge "B" "C" empty_graph)) <= 3)%nat /\ (1 < 3)%nat)
  /\ shortestPath 3 (addEdge "" "B" (addEdge "B" "C" empty_graph)) "B" "C"
     = Some ["B"; "C"].
Proof.
  assert (Hwf : well_formed (addEdge "" "B" (addEdge "B" "C" empty_graph)))
    by (repeat apply well_formed_addEdge; apply well_formed_empty).
  assert (Hsne : "B" <> path_empty) by discriminate.
  assert (Hdne : "C" <> path_empty) by discriminate.
  assert (Hedge : In "C" (neighbors (addEdge "" "B" (addEdge "B" "C" empty_graph)) "B"))
    by (vm_compute; tauto).
  assert (Hne : "B" <> "C") by discriminate.
  assert (Hsize : (map_size (addEdge "" "B" (addEdge "B" "C" empty_graph)) <= 3)%nat)
    by (vm_compute; lia).
  assert (Hfuel : (1 < 3)%nat) by lia.
  split.
  - repeat (split; [first [exact Hwf|exact Hsne|exact Hdne|exact Hedge|exact Hne
                          |exact Hsize]|]).
    exact Hfuel.
  - exact (shortestPath_along_edge _ "B" "C" 3 Hwf Hsne Hdne Hedge Hne Hsize Hfuel).
Defined.

(** From the empty path as source the walk back stops one vertex early:
    the sequence for the edge from the empty path to B is B alone. *)
Example shortestPath_from_empty_path :
  shortestPath 3 (addEdge "" "B" (addEdge "B" "C" empty_graph)) "" "B" = Some ["B"].
Proof. vm_compute. reflexivity. Qed.

Lemma minSpanTree_ends_witness :
  (diamond <> [] /\ (edge_count diamond < 5)%nat)
  /\ exists t, minSpanTree 5 diamond = Returns t.
Proof.
  assert (Hg : diamond <> []) by (vm_compute; discriminate).
  assert (Hfuel : (edge_count diamond < 5)%nat) by (vm_compute; lia).
  split; [split; assumption|].
  exact (minSpanTree_ends diamond 5 Hg Hfuel).
Defined.

Lemma diamond_run :
  diamond = ("A", ["B"; "C"]) :: diamond_entries
  /\ minSpanTree 5 (("A", ["B"; "C"]) :: diamond_entries) = Returns diamond_tree.
Proof. split; vm_compute; reflexivity. Qed.

Lemma minSpanTree_tree_edges_witness :
  (minSpanTree 5 (("A", ["B"; "C"]) :: diamond_entries) = Returns diamond_tree
   /\ In "D" (map_at [] "C" diamond_tree))
  /\ In "D" (neighbors (("A", ["B"; "C"]) :: diamond_entries) "C")
  /\ "D" <> "C"
  /\ "D" <> "A"
  /\ reachable (("A", ["B"; "C"]) :: diamond_entries) "A" "C".
Proof.
  assert (Hrun : minSpanTree 5 (("A", ["B"; "C"]) :: diamond_entries)
                 = Returns diamond_tree) by apply diamond_run.
  assert (Hc : In "D" (map_at [] "C" diamond_tree)) by (vm_compute; tauto).
  split; [split; assumption|].
  exact (minSpanTree_tree_edges "A" ["B"; "C"] diamond_entries 5 diamond_tree
                                "C" "D" Hrun Hc).
Defined.

Lemma minSpanTree_spans_witness :
  minSpanTree 5 (("A", ["B"; "C"]) :: diamond_entries) = Returns diamond_tree
  /\ (reachable (("A", ["B"; "C"]) :: diamond_entries) "A" "D"
      <-> "D" = "A" \/ exists p, In "D" (map_at [] p diamond_tree)).
Proof.
  assert (Hrun : minSpanTree 5 (("A", ["B"; "C"]) :: diamond_entries)
                 = Returns diamond_tree) by apply diamond_run.
  split; [exact Hrun|].
  exact (minSpanTree_spans "A" ["B"; "C"] diamond_entries 5 diamond_tree "D" Hrun).
Defined.

Lemma minSpanTree_children_of_start_witness :
  minSpanTree 5 (("A", ["B"; "C"]) :: diamond_entries) = Returns diamond_tree
  /\ map_at [] "A" diamond_tree
     = filter (fun n => negb (path_eqb n "A")) ["B"; "C"].
Proof.
  assert (Hrun : minSpanTree 5 (("A", ["B"; "C"]) :: diamond_entries)
                 = Returns diamond_tree) by apply diamond_run.
  split; [exact Hrun|].
  exact (minSpanTree_children_of_start "A" ["B"; "C"] diamond_entries 5 diamond_tree Hrun).
Defined.

(** A start vertex with an edge to itself and two edges to the same
    neighbour: the self-loop is dropped, the repetition is kept. *)
Example minSpanTree_start_with_self_loop :
  minSpanTree 4 (addEdge "A" "B" (addEdge "A" "A" (addEdge "A" "B" empty_graph)))
  = Returns [("A", ["B"; "B"])].
Proof. vm_compute. reflexivity. Qed.

Close Scope string_scope.
End MoreConcrete.
